(** * chatBruti: the NIRD retrieval core ([api_nird.py]) and the scraping
    service ([scrap.py])

    A shallow embedding of the scoring and retrieval engine of the NIRD
    semantic-search service: the tokenizer/vectorizer
    [nettoyer_et_vectoriser], [cosine_similarity], the start-up index
    [vecteurs_chunks] and the route [chercher_dans_nird] with its keyword
    bonus, best-match loop, acceptance threshold and text truncation; and
    of the routes of the scraping service, [scrape_urls],
    [get_scraped_data] and [get_data_stats], over the components they
    call.

    Modelling choices, all taken from the source:
    - a Python [str] is a [string] whose characters are the code points
      0..255 (the Latin-1 block of Unicode, which holds the accented letters
      of the stop words and key words); [lower], [\w], [isspace] are
      Python's tables on that block;
    - a Python [float] is a binary64 primitive float, with the kernel's
      IEEE-754 operations; an [int] is a [Z], converted to [float] by
      correct rounding as Python does;
    - a [Counter] is a finite map from terms to integers;
    - a chunk is a JSON object: each key may be absent;
    - exceptions are values of [Exception], threaded by an error monad;
    - the module-level globals [chunks] and [vecteurs_chunks] and the clock
      are explicit arguments. *)

From Stdlib Require Import ZArith Floats Ascii String List Lia Bool.
From stdpp Require Import base gmap strings list fin_maps.

#[local] Set Warnings "-inexact-float".
#[local] Open Scope Z_scope.
#[local] Arguments String.append !_ _ / : simpl nomatch.

(** ** Text: Python's [str] on the Latin-1 block *)

Module Texte.

Definition code (c : ascii) : N := N_of_ascii c.

Definition entre (a b n : N) : bool := ((a <=? n) && (n <=? b))%N.

(** The characters [c] with [c.lower() != c]: A-Z, and the accented
    capitals U+00C0..U+00DE without the multiplication sign U+00D7. *)
Definition est_majuscule (c : ascii) : bool :=
  let n := code c in entre 65 90 n || entre 192 214 n || entre 216 222 n.

Definition lower_char (c : ascii) : ascii :=
  if est_majuscule c then ascii_of_N (code c + 32) else c.

(** [str.isalnum] on one character. *)
Definition isalnum (c : ascii) : bool :=
  let n := code c in
  entre 48 57 n || entre 65 90 n || entre 97 122 n
  || (n =? 170)%N || entre 178 179 n || (n =? 181)%N || entre 185 186 n
  || entre 188 190 n || entre 192 214 n || entre 216 246 n || entre 248 255 n.

(** The class [\w] of [re] on [str] patterns: alphanumeric or underscore. *)
Definition is_word (c : ascii) : bool := isalnum c || (code c =? 95)%N.

(** [str.isspace] on one character: what [str.strip()] removes. *)
Definition isspace (c : ascii) : bool :=
  let n := code c in
  entre 9 13 n || entre 28 32 n || (n =? 133)%N || (n =? 160)%N.

(** [s.lower()] *)
Fixpoint lower (s : string) : string :=
  match s with
  | EmptyString => EmptyString
  | String c s' => String (lower_char c) (lower s')
  end.

(** [s.lstrip()], [s.rstrip()] and [s.strip()] *)
Fixpoint lstrip (s : string) : string :=
  match s with
  | EmptyString => EmptyString
  | String c s' => if isspace c then lstrip s' else s
  end.

Fixpoint rstrip (s : string) : string :=
  match s with
  | EmptyString => EmptyString
  | String c s' =>
      match rstrip s' with
      | EmptyString => if isspace c then EmptyString else String c EmptyString
      | r => String c r
      end
  end.

Definition strip (s : string) : string := rstrip (lstrip s).

(** [s[:n]] *)
Fixpoint prendre (n : nat) (s : string) : string :=
  match n, s with
  | S n', String c s' => String c (prendre n' s')
  | _, _ => EmptyString
  end.

(** [s.startswith(p)] and [m in s] (substring test). *)
Fixpoint prefixe (p s : string) : bool :=
  match p, s with
  | EmptyString, _ => true
  | String a p', String b s' => Ascii.eqb a b && prefixe p' s'
  | String _ _, EmptyString => false
  end.

Fixpoint contient (m s : string) : bool :=
  prefixe m s ||
  match s with
  | EmptyString => false
  | String _ s' => contient m s'
  end.

(** [s.rsplit(' ', 1)]: the text before the last space, when there is
    one. *)
Fixpoint avant_dernier_espace (s : string) : option string :=
  match s with
  | EmptyString => None
  | String c s' =>
      match avant_dernier_espace s' with
      | Some u => Some (String c u)
      | None => if Ascii.eqb c " " then Some EmptyString else None
      end
  end.

(** [s.rsplit(' ', 1)[0]]: without a space the list has the one element
    [s]. *)
Definition rsplit_espace_0 (s : string) : string :=
  default s (avant_dernier_espace s).

(** [re.findall(r'\w+', s)]: the maximal runs of word characters, left to
    right; [acc] is the run being read. *)
Definition clore (acc : string) : list string :=
  match acc with
  | EmptyString => []
  | _ => [acc]
  end.

Fixpoint mots_de (acc s : string) : list string :=
  match s with
  | EmptyString => clore acc
  | String c s' =>
      if is_word c then mots_de (acc +:+ String c EmptyString) s'
      else clore acc ++ mots_de EmptyString s'
  end.

Definition findall_w (s : string) : list string := mots_de EmptyString s.

(** Predicates on whole strings. *)
Fixpoint tous (p : ascii → bool) (s : string) : bool :=
  match s with
  | EmptyString => true
  | String c s' => p c && tous p s'
  end.

(** [n] copies of [s], as Python's [s * n]. *)
Fixpoint repeter (n : nat) (s : string) : string :=
  match n with
  | O => EmptyString
  | S n' => s +:+ repeter n' s
  end.

(** Characters outside ASCII, by code point. *)
Definition car (n : N) : string := String (ascii_of_N n) EmptyString.

End Texte.

(** ** Numbers: Python's [float] and [int] *)

Module Flottant.

(** [float(z)] for an [int]: the nearest binary64 value, ties to even.
    (Python raises [OverflowError] from 2^1024 on; a term vector built from
    a [str] stays far below, its counts being bounded by the length of the
    text.) *)
Definition Z2F (z : Z) : float :=
  SF2Prim (binary_normalize prec emax z 0 false).

(** The integer nearest to [a / b] for [0 < b], ties to the even one. *)
Definition arrondi_pair (a b : Z) : Z :=
  let q := a / b in
  let r := a mod b in
  if 2 * r <? b then q
  else if b <? 2 * r then q + 1
  else if Z.even q then q else q + 1.

(** [round(x, 3)]: the exact value of [x] is rounded to the nearest
    multiple [n / 1000] of one thousandth (ties to even), and the result is
    the binary64 value nearest to [n / 1000]; NaN and the infinities are
    returned as they are. *)
Definition round3 (x : float) : float :=
  match Prim2SF x with
  | S754_finite s m e =>
      let n := if 0 <=? e then Z.pos m * 2 ^ e * 1000
               else arrondi_pair (Z.pos m * 1000) (2 ^ (- e)) in
      match n with
      | Z.pos p =>
          SF2Prim (SFdiv prec emax (S754_finite s p 0) (S754_finite false 1000 0))
      | _ => SF2Prim (S754_zero s)
      end
  | _ => x
  end.

(** [x == x]: [x] is not a NaN. *)
Definition non_nan (x : float) : Prop := (x =? x)%float = true.

End Flottant.

(** ** The rounding of binary64 sums, in integers

    Every finite binary64 value is an integer multiple of 2^-1074. The
    definitions below name, on those integers, what the reference
    operations of [SpecFloat] compute: they serve to prove that the
    floating-point addition of the bonus is monotone. *)

(** The record that [n] right shifts leave of an exact mantissa [m]: the
    quotient, the last bit shifted out, and whether a lower bit was set. *)
Definition decale (m : Z) (n : nat) : shr_record :=
  match n with
  | O => {| shr_m := m; shr_r := false; shr_s := false |}
  | S k => {| shr_m := m / 2 ^ Z.of_nat n;
              shr_r := Z.odd (m / 2 ^ Z.of_nat k);
              shr_s := negb (m mod 2 ^ Z.of_nat k =? 0) |}
  end.

(** The binary64 number nearest to [N * 2^-1074] for [0 < N], with sign
    [s]: [N] itself up to 53 binary digits, and otherwise its 53 leading
    digits rounded to nearest, ties to even, or an infinity beyond the
    largest exponent. *)
Definition arrondi_binaire (s : bool) (N : Z) : spec_float :=
  let d := Zdigits2 N in
  if d <=? 53 then S754_finite s (Z.to_pos N) (-1074)
  else
    let n := d - 53 in
    let k := Flottant.arrondi_pair N (2 ^ n) in
    if k =? 2 ^ 53 then
      if -1074 + n + 1 <=? 971
      then S754_finite s (Z.to_pos (2 ^ 52)) (-1074 + n + 1)
      else S754_infinity s
    else
      if -1074 + n <=? 971
      then S754_finite s (Z.to_pos k) (-1074 + n)
      else S754_infinity s.

Definition arrondi_signe (N : Z) : spec_float :=
  match N with
  | Z0 => S754_zero false
  | Z.pos p => arrondi_binaire false (Z.pos p)
  | Z.neg p => arrondi_binaire true (Z.pos p)
  end.

(** A bound above the integer of every finite binary64 value: it stands for
    the infinities. *)
Definition infini : Z := 2 ^ 2098.

(** The value of a number in units of 2^-1074. *)
Definition entier (x : spec_float) : Z :=
  match x with
  | S754_zero _ => 0
  | S754_infinity s => if s then - infini else infini
  | S754_nan => 0
  | S754_finite s m e => cond_Zopp s (Z.pos m * 2 ^ (e + 1074))
  end.

(** The integer of [arrondi_binaire false N]. *)
Definition valeur_arrondie (N : Z) : Z :=
  let d := Zdigits2 N in
  if d <=? 53 then N
  else
    let n := d - 53 in
    let k := Flottant.arrondi_pair N (2 ^ n) in
    if (if k =? 2 ^ 53 then n <=? 2044 else n <=? 2045) then k * 2 ^ n
    else infini.

(** ** Exceptions and the error monad *)

Inductive Exception : Type :=
| HTTPException (status_code : Z) (detail : string)
| KeyError (key : string)
| TypeError
| IndexError.

Inductive resultat (A : Type) : Type :=
| Ok (a : A)
| Leve (e : Exception).
Arguments Ok {A} a.
Arguments Leve {A} e.

#[global] Instance resultat_ret : MRet resultat := λ A a, Ok a.
#[global] Instance resultat_bind : MBind resultat := λ A B f r,
  match r with
  | Ok a => f a
  | Leve e => Leve e
  end.

(** ** The data model *)

(** A term vector: [collections.Counter] keyed by terms. *)
Abbreviation Counter := (gmap string Z).

(** A chunk record of [larousse_tokens.json]; [None] is an absent key. *)
Record Chunk : Type := {
  k_chunk_id : option Z;
  k_text : option string;
  k_source_url : option string;
  k_source_title : option string
}.

(** [c[cle]] on a chunk record. *)
Definition champ {A : Type} (cle : string) (v : option A) : resultat A :=
  match v with
  | Some a => Ok a
  | None => Leve (KeyError cle)
  end.

Record ReponseNIRD : Type := {
  question : string;
  contexte : string;
  confiance : float;
  chunk_id : Z;
  source_url : string;
  source_title : string;
  timestamp : string
}.

Import Texte Flottant.

(** ** 2. The light semantic engine *)

Definition liste_stopwords : list string :=
  [ "le"; "la"; "les"; "de"; "du"; "des"; "un"; "une"; "et"; "ou"; car 224;
    "au"; "aux"; "en"; "dans"; "sur"; "pour"; "par"; "avec"; "sans"; "sous";
    "chez"; "ce"; "cette"; "ces"; "son"; "sa"; "ses"; "mon"; "ma"; "mes";
    "ton"; "ta"; "tes"; "je"; "tu"; "il"; "elle"; "nous"; "vous"; "ils";
    "elles"; "qui"; "que"; "quoi"; "dont"; "o" +:+ car 249; "quand";
    "comment"; "mais"; "est"; "sont"; "pas"; "plus";
    "tr" +:+ car 232 +:+ "s" ].

Definition stopwords : gset string := list_to_set liste_stopwords.

(** [Counter(mots)] *)
Definition compter (mots : list string) : Counter :=
  foldl (λ cpt m, <[m := default 0 (cpt !! m) + 1]> cpt) ∅ mots.

Definition nettoyer_et_vectoriser (texte : string) : Counter :=
  let texte := lower texte in
  let mots := findall_w texte in
  let mots := filter (λ m, (m ∉ stopwords) ∧ (2 < String.length m)%nat) mots in
  compter mots.

Definition somme (l : list Z) : Z := foldr Z.add 0 l.

(** [sum(v*v for v in vec.values())] *)
Definition somme_carres (vec : Counter) : Z :=
  somme ((λ kv, kv.2 * kv.2) <$> map_to_list vec).

(** [sum(vec1[w] * vec2[w] for w in communs)]; a [Counter] reads 0 at an
    absent key. *)
Definition produit_scalaire (vec1 vec2 : Counter) (communs : gset string) : Z :=
  somme ((λ w, default 0 (vec1 !! w) * default 0 (vec2 !! w)) <$> elements communs).

Definition cosine_similarity (vec1 vec2 : Counter) : float :=
  let communs : gset string := dom vec1 ∩ dom vec2 in
  if decide (communs = ∅) then 0%float
  else
    let num := produit_scalaire vec1 vec2 communs in
    let den := (sqrt (Z2F (somme_carres vec1)) * sqrt (Z2F (somme_carres vec2)))%float in
    if negb (den =? 0)%float then (Z2F num / den)%float else 0%float.

(** The pre-computed vectors: [[nettoyer_et_vectoriser(c["text"]) for c in chunks]]. *)
Fixpoint vecteurs_chunks (chunks : list Chunk) : resultat (list Counter) :=
  match chunks with
  | [] => Ok []
  | c :: reste =>
      t ← champ "text" (k_text c);
      vs ← vecteurs_chunks reste;
      Ok (nettoyer_et_vectoriser t :: vs)
  end.

(** ** 4. The main route *)

Definition mots_forts : list string :=
  [ "linux"; "reconditionnement"; "nird"; "primtux"; "tchap";
    car 233 +:+ "cologique"; "libre"; "inclusif"; "durable"; "obsolescence";
    "forge" ].

Definition seuil : float := 0.12%float.
Definition prime : float := 0.18%float.

(** The inner loop [for mot in mots_forts: if mot in question.lower(): score += 0.18]. *)
Definition bonus (question : string) (score : float) : float :=
  foldl (λ score mot,
           if contient mot (lower question) then (score + prime)%float else score)
        score mots_forts.

(** The score of one index entry, bonus included. *)
Definition score_de (question : string) (vec_q vec_chunk : Counter) : float :=
  bonus question (cosine_similarity vec_q vec_chunk).

(** The state of the outer loop: [(meilleur_score, meilleur_chunk)]. *)
Definition etat : Type := float * option Chunk.

(** One iteration of [for i, vec_chunk in enumerate(vecteurs_chunks)]. *)
Definition etape (chunks : list Chunk) (question : string) (vec_q : Counter)
    (st : etat) (i : nat) (vec_chunk : Counter) : resultat etat :=
  let score := score_de question vec_q vec_chunk in
  if (st.1 <? score)%float then
    match chunks !! i with
    | Some c => Ok (score, Some c)
    | None => Leve IndexError
    end
  else Ok st.

Fixpoint boucle (chunks : list Chunk) (question : string) (vec_q : Counter)
    (i : nat) (vecs : list Counter) (st : etat) : resultat etat :=
  match vecs with
  | [] => Ok st
  | vec_chunk :: reste =>
      st' ← etape chunks question vec_q st i vec_chunk;
      boucle chunks question vec_q (S i) reste st'
  end.

Definition e_aigu : string := car 233.

Definition contexte_defaut : string :=
  "La d" +:+ e_aigu +:+ "marche NIRD promeut un num" +:+ e_aigu
  +:+ "rique Inclusif, Responsable et Durable dans les " +:+ e_aigu
  +:+ "tablissements scolaires via Linux, le reconditionnement et les logiciels libres.".

(** The [else] branch: the fixed fallback answer. *)
Definition reponse_defaut (question now : string) : ReponseNIRD :=
  {| question := question;
     contexte := contexte_defaut;
     confiance := 0%float;
     chunk_id := -1;
     source_url := "https://nird.forge.apps.education.fr/";
     source_title := "Accueil";
     timestamp := now |}.

(** The shaping of the matched text: [texte[:600].rsplit(' ', 1)[0] + "..."]
    when it is longer than 600 characters. *)
Definition tronquer (texte : string) : string :=
  if (600 <? String.length texte)%nat
  then rsplit_espace_0 (prendre 600 texte) +:+ "..."
  else texte.

(** The [if] branch: the answer built from the best chunk. *)
Definition reponse_trouvee (question : string) (meilleur_score : float)
    (meilleur_chunk : option Chunk) (now : string) : resultat ReponseNIRD :=
  c ← match meilleur_chunk with
      | Some c => Ok c
      | None => Leve TypeError
      end;
  t ← champ "text" (k_text c);
  let texte := tronquer (strip t) in
  id ← champ "chunk_id" (k_chunk_id c);
  url ← champ "source_url" (k_source_url c);
  titre ← champ "source_title" (k_source_title c);
  Ok {| question := question;
        contexte := texte;
        confiance := round3 meilleur_score;
        chunk_id := id;
        source_url := url;
        source_title := titre;
        timestamp := now |}.

(** The engine: the body of [chercher_dans_nird] from [vec_q = ...] on. *)
Definition moteur (chunks : list Chunk) (vecteurs : list Counter)
    (question now : string) : resultat ReponseNIRD :=
  let vec_q := nettoyer_et_vectoriser question in
  st ← boucle chunks question vec_q 0 vecteurs (0%float, None);
  let '(meilleur_score, meilleur_chunk) := st in
  if (seuil <? meilleur_score)%float
  then reponse_trouvee question meilleur_score meilleur_chunk now
  else Ok (reponse_defaut question now).

(** The route [POST /nird]; [now] is [datetime.now().isoformat()]. *)
Definition chercher_dans_nird (chunks : list Chunk) (vecteurs : list Counter)
    (payload_question now : string) : resultat ReponseNIRD :=
  let question := strip payload_question in
  if String.eqb question "" then Leve (HTTPException 400 "Question vide")
  else moteur chunks vecteurs question now.

(** The scores of the index entries for one question, in corpus order. *)
Definition scores (question : string) (vecteurs : list Counter) : list float :=
  score_de question (nettoyer_et_vectoriser question) <$> vecteurs.

(** ** Worked inputs *)

Definition chunk_de (id : Z) (t : string) : Chunk :=
  {| k_chunk_id := Some id; k_text := Some t;
     k_source_url := Some "https://x"; k_source_title := Some "A" |}.

(** The index of a corpus, empty when its construction fails. *)
Definition index_de (chunks : list Chunk) : list Counter :=
  match vecteurs_chunks chunks with
  | Ok vs => vs
  | Leve _ => []
  end.

(** The scenario of the specification. *)
Definition corpus_nird : list Chunk :=
  [ chunk_de 1 ("Le reconditionnement Linux est un pilier du num" +:+ e_aigu
                +:+ "rique durable") ].

(** One chunk whose similarity with the question "foo" is 3/25. *)
Definition corpus_012 : list Chunk :=
  [ chunk_de 1 (repeter 3 "foo " +:+ repeter 24 "bar " +:+ repeter 6 "baz "
                +:+ repeter 2 "qux ") ].

(** One chunk whose similarity with the question "foo" is 1201/10000. *)
Definition corpus_01201 : list Chunk :=
  [ chunk_de 1 (repeter 1201 "foo " +:+ repeter (Z.to_nat 9927) "bar "
                +:+ repeter 110 "baz " +:+ repeter 13 "qux " +:+ "zap") ].

(** Two chunks with the same term vector. *)
Definition corpus_jumeaux : list Chunk :=
  [ chunk_de 1 "serveur debian"; chunk_de 2 "debian, serveur !" ].

(** Two chunks whose similarities with "linux serveur" are the neighbouring
    values 0.49999999999999989 and 0.5. *)
Definition corpus_voisins : list Chunk :=
  [ chunk_de 1 "serveur debian";
    chunk_de 2 "serveur debian serveur debian serveur debian" ].

(** Spec-side notions used to state the claims. *)

(** A term is lowercase when [lower] leaves it alone, alphanumeric when all
    its characters are ([str.isalnum]), a word when all its characters are
    in [\w]. *)
Definition est_minuscule (t : string) : Prop := lower t = t.
Definition est_alphanumerique (t : string) : Prop := tous isalnum t = true.
Definition est_mot (t : string) : Prop := tous is_word t = true.
Definition sans_espace (t : string) : Prop :=
  tous (λ c, negb (Ascii.eqb c " ")) t = true.

(** The number of occurrences of [w] in a token list. *)
Definition occurrences (w : string) (mots : list string) : nat :=
  length (filter (λ m, m = w) mots).

(** A chunk record with its four keys. *)
Definition complet (c : Chunk) : Prop :=
  is_Some (k_chunk_id c) ∧ is_Some (k_text c)
  ∧ is_Some (k_source_url c) ∧ is_Some (k_source_title c).

(** The cosine similarity as the specification words it: the terms common
    to both vectors, the sum of the products of their counts, and the
    product of the two Euclidean norms. *)
Definition termes_communs (vec1 vec2 : Counter) : list string :=
  filter (λ t, is_Some (vec2 !! t)) (map_to_list vec1).*1.

Definition numerateur_spec (vec1 vec2 : Counter) : Z :=
  somme ((λ t, default 0 (vec1 !! t) * default 0 (vec2 !! t))
           <$> termes_communs vec1 vec2).

Definition norme_spec (vec : Counter) : float :=
  sqrt (Z2F (map_fold (λ _ v acc, acc + v * v) 0 vec)).

Definition cosinus_spec (vec1 vec2 : Counter) : float :=
  match termes_communs vec1 vec2 with
  | [] => 0%float
  | _ :: _ =>
      let denominateur := (norme_spec vec1 * norme_spec vec2)%float in
      if (denominateur =? 0)%float then 0%float
      else (Z2F (numerateur_spec vec1 vec2) / denominateur)%float
  end.

(** What the best-match loop has established once the entries [vus] are
    scored: [meilleur_score] is a non-negative number that no seen score
    exceeds; with no best chunk it is still the initial 0.0, and a best
    chunk is the first seen entry that reaches it. *)
Definition invariant (chunks : list Chunk) (q : string)
    (vus : list Counter) (st : etat) : Prop :=
  let sc := scores q vus in
  non_nan st.1
  ∧ (0 <=? st.1)%float = true
  ∧ (∀ s, s ∈ sc → (st.1 <? s)%float = false)
  ∧ match st.2 with
    | None => st.1 = 0%float
    | Some c =>
        ∃ i, chunks !! i = Some c ∧ sc !! i = Some st.1
             ∧ ∀ j s, (j < i)%nat → sc !! j = Some s → (st.1 <=? s)%float = false
    end.

(** A question all of whose tokens [nettoyer_et_vectoriser] drops. *)
Definition tous_filtres (q : string) : Prop :=
  Forall (λ m, m ∈ stopwords ∨ (String.length m ≤ 2)%nat) (findall_w (lower q)).

(** The number of key words that occur in the lowercased question. *)
Definition nb_mots_forts (q : string) : nat :=
  length (filter (λ m, contient m (lower q) = true) mots_forts).

(** Three terms, once each. *)
Definition vecteur_trois : Counter :=
  list_to_map [("linux", 1); ("libre", 1); ("forge", 1)].

(** Two answers that differ at most by the question they echo. *)
Definition avec_question (q : string) (r : ReponseNIRD) : ReponseNIRD :=
  {| question := q; contexte := contexte r; confiance := confiance r;
     chunk_id := chunk_id r; source_url := source_url r;
     source_title := source_title r; timestamp := timestamp r |}.

Definition a_la_question_pres (q : string) (a : resultat ReponseNIRD) :
    resultat ReponseNIRD :=
  match a with
  | Ok r => Ok (avec_question q r)
  | Leve e => Leve e
  end.

(** ** The scraping service ([scrap.py])

    The routes of the scraping API. The classes [WebScraper], [TextChunker]
    and [JSONExporter] and the settings live in other modules: the routes
    receive them as arguments, and the outcome of [exporter.load] is an
    argument of the two reading routes. Logging is left out. The objects
    read from the exported file are typed: a key may be absent, and a
    present value has the type the exporter writes. *)

Module Scrap.

(** The class of an exception raised by a component or an operation, as
    far as the [except] clauses of the routes tell classes apart:
    [C_Exception] is any other subclass of [Exception], [C_BaseException]
    an exception outside [Exception]. *)
Inductive Classe : Type :=
| C_HTTPException (status_code : Z) (detail : string)
| C_FileNotFoundError
| C_Exception
| C_BaseException.

(** An exception raised under a [try]: its class and [str(e)]. *)
Record Levee : Type := { classe : Classe; str : string }.

(** What leaves a route: an [HTTPException] made by the route, or an
    exception of a component that no clause turned into one. *)
Inductive Exception : Type :=
| HTTPException (status_code : Z) (detail : string)
| DeComposant (e : Levee).

Inductive issue (E A : Type) : Type :=
| Retour (a : A)
| Echec (e : E).
Arguments Retour {E A} a.
Arguments Echec {E A} e.

#[global] Instance issue_ret {E : Type} : MRet (issue E) := λ A a, Retour a.
#[global] Instance issue_bind {E : Type} : MBind (issue E) := λ A B f r,
  match r with
  | Retour a => f a
  | Echec e => Echec e
  end.

(** A chunk of the exported file. *)
Record ChunkJSON : Type := {
  j_token_count : option Z;
  j_text : option string;
  j_source_url : option string
}.

Record Metadata : Type := { j_export_date : option string }.

(** The content of the exported file. *)
Record Donnees : Type := {
  j_chunks : option (list ChunkJSON);
  j_metadata : option Metadata
}.

(** The object that [GET /data/stats] returns. *)
Record Statistiques : Type := {
  total_chunks : Z;
  total_tokens : Z;
  total_characters : Z;
  unique_sources : Z;
  export_date : option string;
  average_chunk_size : Z;
  average_tokens_per_chunk : Z
}.

(** [a // b] on [int]: [ZeroDivisionError] for a zero divisor. *)
Definition floordiv (a b : Z) : issue Levee Z :=
  if b =? 0
  then Echec {| classe := C_Exception;
                str := "integer division or modulo by zero" |}
  else Retour (a / b).

(** [sum(chunk.get("token_count", 0) for chunk in chunks)] *)
Definition somme_tokens (chunks : list ChunkJSON) : Z :=
  somme ((λ chunk, default 0 (j_token_count chunk)) <$> chunks).

(** [sum(len(chunk.get("text", "")) for chunk in chunks)] *)
Definition somme_caracteres (chunks : list ChunkJSON) : Z :=
  somme ((λ chunk, Z.of_nat (String.length (default "" (j_text chunk))))
           <$> chunks).

(** [set(chunk.get("source_url", "") for chunk in chunks)] *)
Definition sources (chunks : list ChunkJSON) : gset string :=
  list_to_set ((λ chunk, default "" (j_source_url chunk)) <$> chunks).

(** The clauses [except FileNotFoundError] and [except Exception as e] of
    the two reading routes. *)
Definition rattraper_lecture {A : Type} (detail_404 : string)
    (r : issue Levee A) : issue Exception A :=
  match r with
  | Retour a => Retour a
  | Echec e =>
      match classe e with
      | C_FileNotFoundError => Echec (HTTPException 404 detail_404)
      | C_BaseException => Echec (DeComposant e)
      | C_HTTPException _ _ | C_Exception => Echec (HTTPException 500 (str e))
      end
  end.

(** The route [GET /data]; [charge] is the outcome of
    [exporter.load(settings.OUTPUT_FILE)]. *)
Definition get_scraped_data (charge : issue Levee Donnees) :
    issue Exception Donnees :=
  rattraper_lecture
    ("Aucune donn" +:+ car 233 +:+ "e scrap" +:+ car 233
     +:+ "e trouv" +:+ car 233 +:+ "e. Lancez d'abord un scraping.")
    (data ← charge; Retour data).

(** The route [GET /data/stats]. *)
Definition get_data_stats (charge : issue Levee Donnees) :
    issue Exception Statistiques :=
  rattraper_lecture
    ("Aucune donn" +:+ car 233 +:+ "e scrap" +:+ car 233
     +:+ "e trouv" +:+ car 233 +:+ "e.")
    (data ← charge;
     let chunks := default [] (j_chunks data) in
     let total_chunks := Z.of_nat (length chunks) in
     let total_tokens := somme_tokens chunks in
     let total_chars := somme_caracteres chunks in
     let unique_sources := Z.of_nat (size (sources chunks)) in
     let export_date := m ← j_metadata data; j_export_date m in
     average_chunk_size ←
       (if 0 <? total_chunks then floordiv total_chars total_chunks
        else Retour 0);
     average_tokens_per_chunk ←
       (if 0 <? total_chunks then floordiv total_tokens total_chunks
        else Retour 0);
     Retour {| total_chunks := total_chunks;
               total_tokens := total_tokens;
               total_characters := total_chars;
               unique_sources := unique_sources;
               export_date := export_date;
               average_chunk_size := average_chunk_size;
               average_tokens_per_chunk := average_tokens_per_chunk |}).

Record Settings : Type := {
  CHUNK_SIZE : Z;
  CHUNK_OVERLAP : Z;
  OUTPUT_FILE : string
}.

Record ScrapeRequest : Type := {
  urls : list string;
  chunk_size : option Z;
  chunk_overlap : option Z
}.

(** The model [ScrapeResponse]; its fields [total_chunks] and
    [total_tokens] carry the prefix [r_] here. *)
Record ScrapeResponse : Type := {
  success : bool;
  message : string;
  total_documents : Z;
  r_total_chunks : Z;
  r_total_tokens : Z;
  output_file : string
}.

Section Composants.

(** The components of [app.modules.scraper] and the settings. A document
    is opaque; a chunker is a value made by [TextChunker(...)], and
    [chunker] is the one the module made at start-up. *)
Context {Document Chunker : Type}.
Variable settings : Settings.
Variable scrape_multiple_urls : list string → issue Levee (list Document).
Variable chunker : Chunker.
Variable TextChunker : option Z → option Z → issue Levee Chunker.
Variable chunk_documents :
  Chunker → list Document → issue Levee (list ChunkJSON).
Variable export : list ChunkJSON → string → issue Levee string.

(** The calls a request makes to the components, in order. *)
Inductive Appel : Type :=
| appel_scrape_multiple_urls (urls : list string)
| appel_TextChunker (chunk_size chunk_overlap : option Z)
| appel_chunk_documents (c : Chunker) (documents : list Document)
| appel_export (chunks : list ChunkJSON) (fichier : string).

(** A computation that calls components: it extends the journal of the
    calls, and returns or raises. *)
Definition Prog (A : Type) : Type :=
  list Appel → issue Exception A * list Appel.

#[local] Instance prog_ret : MRet Prog := λ A a j, (Retour a, j).
#[local] Instance prog_bind : MBind Prog := λ A B f m j,
  match m j with
  | (Retour a, j') => f a j'
  | (Echec e, j') => (Echec e, j')
  end.

Definition appeler {A : Type} (a : Appel) (r : issue Levee A) : Prog A :=
  λ j, (match r with
        | Retour x => Retour x
        | Echec e => Echec (DeComposant e)
        end, j ++ [a]).

Definition lever {A : Type} (e : Exception) : Prog A := λ j, (Echec e, j).

(** The clauses [except HTTPException: raise] and [except Exception as e]
    of [scrape_urls]. *)
Definition rattraper_scrape {A : Type} (r : issue Exception A) :
    issue Exception A :=
  match r with
  | Retour a => Retour a
  | Echec (HTTPException c d) => Echec (HTTPException c d)
  | Echec (DeComposant e) =>
      match classe e with
      | C_HTTPException _ _ | C_BaseException => Echec (DeComposant e)
      | C_FileNotFoundError | C_Exception => Echec (HTTPException 500 (str e))
      end
  end.

(** The body of the [try] of [scrape_urls]. *)
Definition corps_scrape_urls (request : ScrapeRequest) : Prog ScrapeResponse :=
  let urls := urls request in
  documents ← appeler (appel_scrape_multiple_urls urls) (scrape_multiple_urls urls);
  match documents with
  | [] =>
      lever (HTTPException 400
               ("Aucun document n'a pu " +:+ car 234 +:+ "tre scrap" +:+ car 233))
  | _ :: _ =>
      custom_chunker ←
        (if bool_decide (chunk_size request ≠ Some (CHUNK_SIZE settings))
            || bool_decide (chunk_overlap request ≠ Some (CHUNK_OVERLAP settings))
         then appeler (appel_TextChunker (chunk_size request) (chunk_overlap request))
                (TextChunker (chunk_size request) (chunk_overlap request))
         else mret chunker);
      chunks ← appeler (appel_chunk_documents custom_chunker documents)
                 (chunk_documents custom_chunker documents);
      let total_tokens := somme_tokens chunks in
      output_file ← appeler (appel_export chunks (OUTPUT_FILE settings))
                      (export chunks (OUTPUT_FILE settings));
      mret {| success := true;
              message := "Scraping termin" +:+ car 233 +:+ " avec succ"
                         +:+ car 232 +:+ "s";
              total_documents := Z.of_nat (length documents);
              r_total_chunks := Z.of_nat (length chunks);
              r_total_tokens := total_tokens;
              output_file := output_file |}
  end.

(** The route [POST /scrape]: its outcome and the calls it made. *)
Definition scrape_urls (request : ScrapeRequest) :
    issue Exception ScrapeResponse * list Appel :=
  let '(r, j) := corps_scrape_urls request [] in (rattraper_scrape r, j).

(** The chunker a request works with: a new one when a size of the
    request differs from the settings. *)
Definition chunker_de (request : ScrapeRequest) : issue Levee Chunker :=
  if bool_decide (chunk_size request ≠ Some (CHUNK_SIZE settings))
     || bool_decide (chunk_overlap request ≠ Some (CHUNK_OVERLAP settings))
  then TextChunker (chunk_size request) (chunk_overlap request)
  else Retour chunker.

(** The exception [l] is the one that stopped the request: the first call
    that failed, every call before it having returned. *)
Definition leve_par (request : ScrapeRequest) (l : Levee) : Prop :=
  scrape_multiple_urls (urls request) = Echec l
  ∨ ∃ docs, scrape_multiple_urls (urls request) = Retour docs ∧ docs ≠ []
      ∧ (chunker_de request = Echec l
         ∨ ∃ ch, chunker_de request = Retour ch
             ∧ (chunk_documents ch docs = Echec l
                ∨ ∃ cs, chunk_documents ch docs = Retour cs
                    ∧ export cs (OUTPUT_FILE settings) = Echec l)).

End Composants.

(** Worked components: a scraper that keeps the [https] addresses, a
    chunker that is its chunk size, one chunk per document. *)
Definition jouet_settings : Settings :=
  {| CHUNK_SIZE := 512; CHUNK_OVERLAP := 64; OUTPUT_FILE := "data/nird.json" |}.

Definition jouet_scrape (urls : list string) : issue Levee (list string) :=
  Retour (filter (λ u, prefixe "https://" u = true) urls).

Definition jouet_TextChunker (cs co : option Z) : issue Levee Z :=
  match cs with
  | Some n => if 0 <? n then Retour n
              else Echec {| classe := C_Exception; str := "chunk_size" |}
  | None => Echec {| classe := C_Exception; str := "chunk_size" |}
  end.

Definition jouet_chunk_documents (ch : Z) (docs : list string) :
    issue Levee (list ChunkJSON) :=
  Retour ((λ d, {| j_token_count := Some (Z.of_nat (String.length d) / ch + 1);
                   j_text := Some d; j_source_url := Some d |}) <$> docs).

Definition jouet_export (cs : list ChunkJSON) (f : string) : issue Levee string :=
  Retour f.

Definition jouet_route (request : ScrapeRequest) :
    issue Exception ScrapeResponse * list (@Appel string Z) :=
  scrape_urls jouet_settings jouet_scrape 512 jouet_TextChunker
    jouet_chunk_documents jouet_export request.

Definition jouet_donnees : Donnees :=
  {| j_chunks :=
       Some [ {| j_token_count := Some 7; j_text := Some "Linux libre";
                 j_source_url := Some "https://a" |};
              {| j_token_count := None; j_text := Some "NIRD";
                 j_source_url := None |};
              {| j_token_count := Some 4; j_text := None;
                 j_source_url := Some "https://a" |} ];
     j_metadata := None |}.

End Scrap.


Definition corpus_sans_espace : list Chunk :=
  [ chunk_de 1 (repeter 121 "linux") ].

(** The sign of a binary64 number. *)

(** A number that is not negative: a NaN is not, nor is the zero of
    negative sign. *)
Definition positif (x : spec_float) : Prop :=
  match x with
  | S754_zero false | S754_infinity false | S754_finite false _ _ => True
  | _ => False
  end.

(** A number that is not negative and not infinite. *)
Definition positif_fini (x : spec_float) : Prop :=
  match x with
  | S754_zero false | S754_finite false _ _ => True
  | _ => False
  end.

(** [sum(vec.values())] *)
Definition somme_valeurs (vec : Counter) : Z := somme ((map_to_list vec).*2).

(** ** Facts about text *)

Section FaitsTexte.

Lemma longueur_app (a b : string) :
  String.length (a +:+ b) = (String.length a + String.length b)%nat.
Proof. induction a as [|c a IH]; simpl; [reflexivity | now rewrite IH]. Qed.

Lemma app_vide_d (a : string) : a +:+ "" = a.
Proof. induction a as [|c a IH]; simpl; [reflexivity | now rewrite IH]. Qed.

Lemma app_assoc_s (a b c : string) : (a +:+ b) +:+ c = a +:+ (b +:+ c).
Proof. induction a as [|x a IH]; simpl; [reflexivity | now rewrite IH]. Qed.

Lemma tous_app (p : ascii → bool) (a b : string) :
  tous p (a +:+ b) = tous p a && tous p b.
Proof.
  induction a as [|c a IH]; simpl; [reflexivity|].
  rewrite IH. now rewrite andb_assoc.
Qed.

Lemma prendre_tout (s : string) (n : nat) :
  (String.length s ≤ n)%nat → prendre n s = s.
Proof.
  revert n. induction s as [|c s IH]; intros [|n] H; simpl in *;
    try reflexivity; try lia.
  f_equal. apply IH. lia.
Qed.

Lemma prendre_app (a b : string) (n : nat) :
  prendre (String.length a + n) (a +:+ b) = a +:+ prendre n b.
Proof. induction a as [|c a IH]; simpl; [reflexivity | now rewrite IH]. Qed.

Lemma length_prendre (s : string) (n : nat) :
  String.length (prendre n s) = Nat.min n (String.length s).
Proof.
  revert n. induction s as [|c s IH]; intros [|n]; simpl; try reflexivity.
  now rewrite IH.
Qed.

(** [prendre n s] is a prefix of [s]. *)
Lemma prendre_prefixe (s : string) (n : nat) :
  ∃ r, s = prendre n s +:+ r.
Proof.
  revert n. induction s as [|c s IH]; intros [|n]; simpl.
  - now exists "".
  - now exists "".
  - now exists (String c s).
  - destruct (IH n) as [r Hr]. exists r. now rewrite <- Hr.
Qed.

(** *** The last space *)

Lemma avant_dernier_espace_None (s : string) :
  avant_dernier_espace s = None ↔ sans_espace s.
Proof.
  unfold sans_espace. induction s as [|c s IH]; simpl; [easy|].
  destruct (avant_dernier_espace s) as [u|].
  - split; [discriminate|]. intros [_ H]%andb_true_iff.
    apply IH in H. discriminate.
  - destruct (Ascii.eqb c " "); simpl.
    + split; discriminate.
    + split; [intros _; now apply IH | reflexivity].
Qed.

Lemma avant_dernier_espace_app (u w : string) :
  sans_espace w → avant_dernier_espace (u +:+ " " +:+ w) = Some u.
Proof.
  intros Hw. induction u as [|c u IH]; simpl.
  - apply avant_dernier_espace_None in Hw. now rewrite Hw.
  - simpl in IH. now rewrite IH.
Qed.

Lemma avant_dernier_espace_Some (s u : string) :
  avant_dernier_espace s = Some u →
  ∃ w, s = u +:+ " " +:+ w ∧ sans_espace w.
Proof.
  revert u. induction s as [|c s IH]; intros u; simpl; [discriminate|].
  destruct (avant_dernier_espace s) as [u'|] eqn:E.
  - intros [= <-]. destruct (IH u' eq_refl) as (w & -> & Hw).
    now exists w.
  - destruct (Ascii.eqb_spec c " ") as [->|]; [|discriminate].
    intros [= <-]. exists s. split; [reflexivity|].
    now apply avant_dernier_espace_None.
Qed.

(** *** Substrings *)

Lemma prefixe_spec (p s : string) :
  prefixe p s = true ↔ ∃ r, s = p +:+ r.
Proof.
  revert s. induction p as [|a p IH]; intros s; simpl.
  - split; [intros _; now exists s | reflexivity].
  - destruct s as [|b s].
    + split; [discriminate | intros [r Hr]; discriminate].
    + rewrite andb_true_iff, IH. split.
      * intros [Hab [r ->]]. apply Ascii.eqb_eq in Hab as ->. now exists r.
      * intros [r [= -> ->]]. split; [apply Ascii.eqb_refl | now exists r].
Qed.

Lemma contient_spec (m s : string) :
  contient m s = true ↔ ∃ a b, s = a +:+ m +:+ b.
Proof.
  induction s as [|c s IH]; simpl.
  - rewrite orb_false_r, prefixe_spec. split.
    + intros [r Hr]. now exists "", r.
    + intros (a & b & H). destruct a; [now exists b|discriminate].
  - rewrite orb_true_iff, prefixe_spec, IH. split.
    + intros [[r Hr]|(a & b & ->)].
      * now exists "", r.
      * now exists (String c a), b.
    + intros (a & b & H). destruct a as [|x a]; simpl in H.
      * left. now exists b.
      * right. injection H as -> ->. now exists a, b.
Qed.

(** *** Lowercasing *)

Lemma lower_char_idem (c : ascii) : lower_char (lower_char c) = lower_char c.
Proof. destruct c as [[] [] [] [] [] [] [] []]; reflexivity. Qed.

Lemma lower_idem (s : string) : lower (lower s) = lower s.
Proof.
  induction s as [|c s IH]; simpl; [reflexivity|].
  now rewrite lower_char_idem, IH.
Qed.

Lemma lower_app (a b : string) : lower (a +:+ b) = lower a +:+ lower b.
Proof. induction a as [|c a IH]; simpl; [reflexivity | now rewrite IH]. Qed.

(** A factor of a lowercase text is lowercase. *)
Lemma est_minuscule_app (a b : string) :
  est_minuscule (a +:+ b) ↔ est_minuscule a ∧ est_minuscule b.
Proof.
  unfold est_minuscule. rewrite lower_app. split.
  - revert b. induction a as [|c a IH]; simpl; intros b H; [easy|].
    injection H as Hc H. apply IH in H as [Ha Hb]. now rewrite Hc, Ha.
  - now intros [-> ->].
Qed.

Lemma isalnum_is_word (c : ascii) : isalnum c = true → is_word c = true.
Proof. unfold is_word. now intros ->. Qed.

End FaitsTexte.

(** ** Facts about tokens and term vectors *)

Section FaitsJetons.

Lemma elem_of_clore (acc t : string) : t ∈ clore acc ↔ t = acc ∧ acc ≠ "".
Proof.
  destruct acc as [|c acc]; simpl.
  - split; [intros H; inversion H | intros [_ H]; now destruct H].
  - rewrite list_elem_of_singleton. split; [intros ->; easy | now intros [-> _]].
Qed.

(** Every token is a factor of the text that was read. *)
Lemma mots_de_facteur (s acc t : string) :
  t ∈ mots_de acc s → ∃ a b, acc +:+ s = a +:+ t +:+ b.
Proof.
  revert acc. induction s as [|c s IH]; intros acc; simpl.
  - intros [-> _]%elem_of_clore. exists "", "". simpl. now rewrite !app_vide_d.
  - destruct (is_word c).
    + intros (a & b & H)%IH. exists a, b. rewrite <- H.
      now rewrite app_assoc_s.
    + intros [[-> _]%elem_of_clore | (a & b & H)%IH]%elem_of_app.
      * now exists "", (String c s).
      * simpl in H. exists (acc +:+ String c a), b. rewrite H.
        now rewrite app_assoc_s.
Qed.

(** Every token is a non-empty run of word characters. *)
Lemma mots_de_mot (s acc t : string) :
  est_mot acc → t ∈ mots_de acc s → est_mot t ∧ t ≠ "".
Proof.
  unfold est_mot. revert acc. induction s as [|c s IH]; intros acc Hacc; simpl.
  - now intros [-> ?]%elem_of_clore.
  - destruct (is_word c) eqn:Hc.
    + apply IH. rewrite tous_app, Hacc. simpl. now rewrite Hc.
    + intros [[-> ?]%elem_of_clore | H]%elem_of_app; [easy|].
      now apply (IH "").
Qed.

Lemma findall_w_mot (s t : string) : t ∈ findall_w s → est_mot t ∧ t ≠ "".
Proof. now apply mots_de_mot. Qed.

Lemma findall_w_facteur (s t : string) :
  t ∈ findall_w s → ∃ a b, s = a +:+ t +:+ b.
Proof. intros H. now apply mots_de_facteur in H. Qed.

(** Reading a run of word characters extends the current run. *)
Lemma mots_de_app_mot (k v acc : string) :
  est_mot k → mots_de acc (k +:+ v) = mots_de (acc +:+ k) v.
Proof.
  unfold est_mot. revert acc. induction k as [|c k IH]; intros acc; simpl.
  - now rewrite app_vide_d.
  - intros [Hc Hk]%andb_true_iff. rewrite Hc, IH by easy.
    now rewrite app_assoc_s.
Qed.

(** The run being read is the start of one of the tokens. *)
Lemma mots_de_prefixe (v acc : string) :
  acc ≠ "" → ∃ t r, t ∈ mots_de acc v ∧ t = acc +:+ r.
Proof.
  revert acc. induction v as [|c v IH]; intros acc Hacc; simpl.
  - exists acc, "". split; [now apply elem_of_clore | now rewrite app_vide_d].
  - destruct (is_word c).
    + destruct (IH (acc +:+ String c "")) as (t & r & Ht & ->).
      { destruct acc; [easy | discriminate]. }
      exists ((acc +:+ String c "") +:+ r), (String c r). split; [easy|].
      now rewrite app_assoc_s.
    + exists acc, "". split; [|now rewrite app_vide_d].
      apply elem_of_app. left. now apply elem_of_clore.
Qed.

(** A non-empty run of word characters that occurs in a text occurs inside
    one of its tokens. *)
Lemma mots_de_contient (k u v acc : string) :
  est_mot k → k ≠ "" →
  ∃ t, t ∈ mots_de acc (u +:+ k +:+ v) ∧ contient k t = true.
Proof.
  intros Hk Hne. revert acc. induction u as [|c u IH]; intros acc; simpl.
  - rewrite mots_de_app_mot by easy.
    destruct (mots_de_prefixe v (acc +:+ k)) as (t & r & Ht & ->).
    { destruct acc; simpl; [easy | discriminate]. }
    exists ((acc +:+ k) +:+ r). split; [easy|].
    apply contient_spec. exists acc, r. now rewrite app_assoc_s.
  - destruct (is_word c).
    + apply IH.
    + destruct (IH "") as (t & Ht & Hc). exists t. split; [|easy].
      apply elem_of_app. now right.
Qed.

Lemma findall_w_contient (k s : string) :
  est_mot k → k ≠ "" → contient k s = true →
  ∃ t, t ∈ findall_w s ∧ contient k t = true.
Proof.
  intros Hk Hne (u & v & ->)%contient_spec. now apply mots_de_contient.
Qed.

Lemma contient_length (k t : string) :
  contient k t = true → (String.length k ≤ String.length t)%nat.
Proof. intros (a & b & ->)%contient_spec. rewrite !longueur_app. lia. Qed.

(** *** [Counter] *)

Lemma occurrences_cons (w m : string) (mots : list string) :
  occurrences w (m :: mots)
  = ((if decide (m = w) then 1 else 0) + occurrences w mots)%nat.
Proof.
  unfold occurrences. rewrite filter_cons.
  now destruct (decide (m = w)).
Qed.

Lemma occurrences_pos (w : string) (mots : list string) :
  w ∈ mots ↔ (0 < occurrences w mots)%nat.
Proof.
  induction mots as [|m mots IH].
  - split; [intros H; inversion H | unfold occurrences; simpl; lia].
  - rewrite occurrences_cons, elem_of_cons, IH.
    destruct (decide (m = w)) as [->|]; split; try lia; try (now left).
    all: try (intros [->|]; [easy | lia]).
    all: try (intros H; right; lia).
Qed.

Lemma foldl_compter (mots : list string) (cpt : Counter) (w : string) :
  foldl (λ cpt m, <[m := default 0 (cpt !! m) + 1]> cpt) cpt mots !! w
  = match cpt !! w with
    | Some n => Some (n + Z.of_nat (occurrences w mots))
    | None => if decide (w ∈ mots)
              then Some (Z.of_nat (occurrences w mots)) else None
    end.
Proof.
  revert cpt. induction mots as [|m mots IH]; intros cpt; simpl.
  - destruct (cpt !! w); [f_equal; unfold occurrences; simpl; lia|].
    destruct (decide (w ∈ [])) as [H|]; [inversion H | reflexivity].
  - rewrite IH, occurrences_cons. destruct (decide (m = w)) as [->|Hne].
    + rewrite lookup_insert_eq. destruct (cpt !! w) as [n|]; simpl.
      * f_equal. lia.
      * rewrite decide_True by now left. f_equal. lia.
    + rewrite lookup_insert_ne by easy. destruct (cpt !! w) as [n|]; [easy|].
      destruct (decide (w ∈ mots)) as [Hin|Hnin].
      * rewrite decide_True by now right. easy.
      * rewrite decide_False; [easy|]. intros [->|]%elem_of_cons; easy.
Qed.

(** [Counter(mots)[w]] is the number of occurrences of [w], and [w] is a
    key exactly when it occurs. *)
Lemma compter_lookup (mots : list string) (w : string) :
  compter mots !! w
  = if decide (w ∈ mots) then Some (Z.of_nat (occurrences w mots)) else None.
Proof. unfold compter. now rewrite foldl_compter, lookup_empty. Qed.

Lemma compter_vide (mots : list string) : compter mots = ∅ ↔ mots = [].
Proof.
  split; [|now intros ->].
  destruct mots as [|m mots]; [easy|]. intros H.
  assert (Hm : compter (m :: mots) !! m = None) by now rewrite H.
  rewrite compter_lookup, decide_True in Hm by now left. discriminate.
Qed.

Lemma elem_of_stopwords (t : string) : t ∈ stopwords ↔ t ∈ liste_stopwords.
Proof. unfold stopwords. now rewrite elem_of_list_to_set. Qed.

End FaitsJetons.

(** ** Facts about binary64 values

    The comparisons of primitive floats are specified, through [Prim2SF],
    by [SFcompare]; its order is transitive, and total away from NaN. *)

Section FaitsFlottants.

Ltac sf_cas :=
  simpl; try congruence;
  rewrite ?Pos.compare_cont_spec; simpl;
  repeat match goal with
         | |- context [(?a ?= ?b)%Z] => destruct (Z.compare_spec a b)
         | |- context [(?a ?= ?b)%positive] => destruct (Pos.compare_spec a b)
         | H : context [(?a ?= ?b)%Z] |- _ => destruct (Z.compare_spec a b)
         | H : context [(?a ?= ?b)%positive] |- _ => destruct (Pos.compare_spec a b)
         end;
  simpl in *; try congruence; try lia.

Lemma SFcompare_trans (c1 c2 : comparison) (x y z : spec_float) :
  SFcompare x y = Some c1 → SFcompare y z = Some c2 →
  c1 ≠ Gt → c2 ≠ Gt →
  SFcompare x z = Some (match c1 with Eq => c2 | _ => Lt end).
Proof.
  destruct x as [[]|[]| |[] m1 e1], y as [[]|[]| |[] m2 e2],
           z as [[]|[]| |[] m3 e3];
    simpl; try congruence; intros H1 H2 N1 N2;
    injection H1 as H1; injection H2 as H2; subst c1 c2; f_equal;
    try congruence; revert N1 N2; sf_cas.
Qed.

Lemma SFcompare_sym (x y : spec_float) :
  SFcompare y x = CompOpp <$> SFcompare x y.
Proof.
  destruct x as [[]|[]| |[] m1 e1], y as [[]|[]| |[] m2 e2];
    simpl; try reflexivity; f_equal; sf_cas.
Qed.

Lemma SFcompare_refl (x : spec_float) :
  x ≠ S754_nan → SFcompare x x = Some Eq.
Proof.
  destruct x as [[]|[]| |[] m e]; simpl; try congruence; intros _; f_equal;
    rewrite Z.compare_refl, Pos.compare_cont_refl; reflexivity.
Qed.

Lemma SFcompare_Some (x y : spec_float) :
  is_Some (SFcompare x y) ↔ x ≠ S754_nan ∧ y ≠ S754_nan.
Proof.
  split.
  - intros [c Hc]. destruct x, y; simpl in Hc; try discriminate; split; congruence.
  - intros [Hx Hy]. destruct x, y; try congruence; simpl; eauto.
Qed.

Lemma non_nan_spec (x : float) : non_nan x ↔ Prim2SF x ≠ S754_nan.
Proof.
  unfold non_nan. rewrite FloatAxioms.eqb_spec. unfold SFeqb. split.
  - intros H E. rewrite E in H. discriminate.
  - intros H. now rewrite SFcompare_refl.
Qed.

Lemma ltb_Lt (a b : float) :
  (a <? b)%float = true ↔ SFcompare (Prim2SF a) (Prim2SF b) = Some Lt.
Proof.
  rewrite FloatAxioms.ltb_spec. unfold SFltb.
  destruct (SFcompare _ _) as [[]|]; split; congruence.
Qed.

Lemma leb_Le (a b : float) :
  (a <=? b)%float = true ↔
  SFcompare (Prim2SF a) (Prim2SF b) = Some Lt
  ∨ SFcompare (Prim2SF a) (Prim2SF b) = Some Eq.
Proof.
  rewrite FloatAxioms.leb_spec. unfold SFleb.
  destruct (SFcompare _ _) as [[]|]; split; try congruence; eauto;
    intros [|]; congruence.
Qed.

Lemma ltb_non_nan (a b : float) :
  (a <? b)%float = true → non_nan a ∧ non_nan b.
Proof.
  rewrite ltb_Lt, !non_nan_spec. intros H. apply SFcompare_Some. eauto.
Qed.

Lemma ltb_trans (a b c : float) :
  (a <? b)%float = true → (b <? c)%float = true → (a <? c)%float = true.
Proof.
  rewrite !ltb_Lt. intros H1 H2.
  now rewrite (SFcompare_trans Lt Lt _ _ _ H1 H2).
Qed.

Lemma ltb_leb_trans (a b c : float) :
  (a <? b)%float = true → (b <=? c)%float = true → (a <? c)%float = true.
Proof.
  rewrite !ltb_Lt, leb_Le. intros H1 [H2|H2].
  - now rewrite (SFcompare_trans Lt Lt _ _ _ H1 H2).
  - now rewrite (SFcompare_trans Lt Eq _ _ _ H1 H2).
Qed.

Lemma leb_ltb_trans (a b c : float) :
  (a <=? b)%float = true → (b <? c)%float = true → (a <? c)%float = true.
Proof.
  rewrite !ltb_Lt, leb_Le. intros [H1|H1] H2.
  - now rewrite (SFcompare_trans Lt Lt _ _ _ H1 H2).
  - now rewrite (SFcompare_trans Eq Lt _ _ _ H1 H2).
Qed.

Lemma leb_trans (a b c : float) :
  (a <=? b)%float = true → (b <=? c)%float = true → (a <=? c)%float = true.
Proof.
  rewrite !leb_Le. intros [H1|H1] [H2|H2].
  - left. now rewrite (SFcompare_trans Lt Lt _ _ _ H1 H2).
  - left. now rewrite (SFcompare_trans Lt Eq _ _ _ H1 H2).
  - left. now rewrite (SFcompare_trans Eq Lt _ _ _ H1 H2).
  - right. now rewrite (SFcompare_trans Eq Eq _ _ _ H1 H2).
Qed.

Lemma leb_refl (a : float) : non_nan a → (a <=? a)%float = true.
Proof.
  rewrite non_nan_spec, leb_Le. intros H. right. now apply SFcompare_refl.
Qed.

Lemma ltb_leb (a b : float) :
  (a <? b)%float = true → (a <=? b)%float = true.
Proof. rewrite ltb_Lt, leb_Le. now left. Qed.

(** The order is total on the values that are not NaN. *)
Lemma non_ltb_leb (a b : float) :
  non_nan a → non_nan b → (a <? b)%float = false → (b <=? a)%float = true.
Proof.
  rewrite !non_nan_spec, leb_Le. intros Ha Hb H.
  destruct (proj2 (SFcompare_Some (Prim2SF a) (Prim2SF b))) as [c Hc]; [easy|].
  rewrite (SFcompare_sym (Prim2SF a)), Hc. simpl.
  destruct c; simpl; eauto.
  apply ltb_Lt in Hc. congruence.
Qed.

Lemma leb_non_ltb (a b : float) :
  (a <=? b)%float = true → (b <? a)%float = false.
Proof.
  rewrite leb_Le. intros H. apply not_true_is_false. rewrite ltb_Lt.
  rewrite (SFcompare_sym (Prim2SF a)). destruct H as [-> | ->]; simpl; congruence.
Qed.

Lemma ltb_non_leb (a b : float) :
  (a <? b)%float = true → (b <=? a)%float = false.
Proof.
  rewrite ltb_Lt. intros H. apply not_true_is_false. rewrite leb_Le.
  rewrite (SFcompare_sym (Prim2SF a)), H. simpl. intros [|]; congruence.
Qed.

End FaitsFlottants.

(** ** Facts about the rounding of sums

    [binary_round] is characterised on the integers of the finite values,
    from which the addition of a finite number is monotone. *)

Section FaitsArrondi.

Lemma digits2_pos_bornes (p : positive) :
  2 ^ (Z.pos (digits2_pos p) - 1) ≤ Z.pos p < 2 ^ Z.pos (digits2_pos p).
Proof.
  induction p as [p IH|p IH|]; simpl digits2_pos.
  - rewrite Pos2Z.inj_succ. replace (Z.succ (Z.pos (digits2_pos p)) - 1)
      with (Z.succ (Z.pos (digits2_pos p) - 1)) by lia.
    rewrite !Z.pow_succ_r by lia. lia.
  - rewrite Pos2Z.inj_succ. replace (Z.succ (Z.pos (digits2_pos p)) - 1)
      with (Z.succ (Z.pos (digits2_pos p) - 1)) by lia.
    rewrite !Z.pow_succ_r by lia. lia.
  - simpl. lia.
Qed.

Lemma iter_pos_nat {A : Type} (f : A → A) (p : positive) (x : A) :
  SpecFloat.iter_pos f p x = Nat.iter (Pos.to_nat p) f x.
Proof.
  revert x. induction p as [p IH|p IH|]; intros x; simpl SpecFloat.iter_pos.
  - rewrite !IH, Pos2Nat.inj_xI. 
    replace (2 * Pos.to_nat p)%nat with (Pos.to_nat p + Pos.to_nat p)%nat by lia.
    rewrite Nat.iter_succ_r, Nat.iter_add. reflexivity.
  - rewrite !IH, Pos2Nat.inj_xO.
    replace (2 * Pos.to_nat p)%nat with (Pos.to_nat p + Pos.to_nat p)%nat by lia.
    rewrite Nat.iter_add. reflexivity.
  - reflexivity.
Qed.

Lemma shr_1_spec (m : Z) (r s : bool) :
  0 ≤ m →
  shr_1 {| shr_m := m; shr_r := r; shr_s := s |}
  = {| shr_m := m / 2; shr_r := Z.odd m; shr_s := r || s |}.
Proof.
  intros Hm. destruct m as [|[p|p|]|p]; try lia; simpl shr_1; f_equal;
    try reflexivity.
  - rewrite Pos2Z.inj_xI. apply Z.div_unique with 1; lia.
  - rewrite Pos2Z.inj_xO. apply Z.div_unique with 0; lia.
Qed.

(** The record after [n] shifts of an exact one. *)

Lemma mod_pow2_succ (m k : Z) :
  0 ≤ k → m mod 2 ^ (k + 1) = m mod 2 ^ k + 2 ^ k * ((m / 2 ^ k) mod 2).
Proof.
  intros Hk. rewrite Z.pow_add_r, Z.pow_1_r by lia.
  rewrite Z.rem_mul_r by lia. lia.
Qed.

Lemma iter_shr_1 (m : Z) (n : nat) :
  0 ≤ m →
  Nat.iter n shr_1 {| shr_m := m; shr_r := false; shr_s := false |} = decale m n.
Proof.
  intros Hm. induction n as [|n IH]; [reflexivity|].
  simpl Nat.iter. rewrite IH. destruct n as [|n].
  - unfold decale. rewrite shr_1_spec by easy.
    change (2 ^ Z.of_nat 1) with 2. change (2 ^ Z.of_nat 0) with 1.
    now rewrite Z.div_1_r, Z.mod_1_r.
  - unfold decale. rewrite shr_1_spec by (apply Z.div_pos; lia). f_equal.
    + rewrite Z.div_div by lia. f_equal.
      rewrite (Nat2Z.inj_succ (S n)), Z.pow_succ_r by lia. lia.
    + rewrite (Nat2Z.inj_succ n).
      replace (Z.succ (Z.of_nat n)) with (Z.of_nat n + 1) by lia.
      rewrite (mod_pow2_succ m (Z.of_nat n)) by lia.
      pose proof (Z.mod_pos_bound m (2 ^ Z.of_nat n) ltac:(lia)) as Hb.
      pose proof (Z.pow_pos_nonneg 2 (Z.of_nat n) ltac:(lia) ltac:(lia)) as Hp.
      rewrite (Zmod_odd (m / 2 ^ Z.of_nat n)).
      destruct (Z.odd (m / 2 ^ Z.of_nat n)); simpl;
        destruct (Z.eqb_spec (m mod 2 ^ Z.of_nat n) 0) as [E|E]; simpl.
      * rewrite E. destruct (Z.eqb_spec (0 + 2 ^ Z.of_nat n * 1) 0); [lia|reflexivity].
      * destruct (Z.eqb_spec (m mod 2 ^ Z.of_nat n + 2 ^ Z.of_nat n * 1) 0);
          [lia|reflexivity].
      * rewrite E. destruct (Z.eqb_spec (0 + 2 ^ Z.of_nat n * 0) 0); [reflexivity|lia].
      * destruct (Z.eqb_spec (m mod 2 ^ Z.of_nat n + 2 ^ Z.of_nat n * 0) 0);
          [lia|reflexivity].
Qed.

Lemma arrondi_decale (m : Z) (n : nat) :
  0 ≤ m → (0 < n)%nat →
  round_nearest_even (shr_m (decale m n)) (loc_of_shr_record (decale m n))
  = arrondi_pair m (2 ^ Z.of_nat n).
Proof.
  intros Hm Hn. destruct n as [|k]; [lia|]. unfold decale, arrondi_pair. simpl shr_m.
  rewrite (Nat2Z.inj_succ k).
  replace (Z.succ (Z.of_nat k)) with (Z.of_nat k + 1) by lia.
  rewrite (mod_pow2_succ m (Z.of_nat k)) by lia.
  rewrite (Zmod_odd (m / 2 ^ Z.of_nat k)).
  pose proof (Z.mod_pos_bound m (2 ^ Z.of_nat k) ltac:(lia)) as Hb.
  assert (Hp : 2 ^ (Z.of_nat k + 1) = 2 * 2 ^ Z.of_nat k)
    by (rewrite Z.pow_add_r, Z.pow_1_r by lia; lia).
  rewrite Hp.
  set (q := m / (2 * 2 ^ Z.of_nat k)). set (h := 2 ^ Z.of_nat k) in *.
  set (r := m mod h) in *.
  destruct (Z.odd (m / h)); simpl loc_of_shr_record;
    destruct (Z.eqb_spec r 0) as [E|E]; simpl.
  - rewrite E. destruct (Z.ltb_spec (2 * (0 + h * 1)) (2 * h)); [lia|].
    destruct (Z.ltb_spec (2 * h) (2 * (0 + h * 1))); [lia|]. reflexivity.
  - destruct (Z.ltb_spec (2 * (r + h * 1)) (2 * h)); [lia|].
    destruct (Z.ltb_spec (2 * h) (2 * (r + h * 1))); [reflexivity|lia].
  - rewrite E. destruct (Z.ltb_spec (2 * (0 + h * 0)) (2 * h)); [reflexivity|lia].
  - destruct (Z.ltb_spec (2 * (r + h * 0)) (2 * h)); [reflexivity|lia].
Qed.

Lemma fexp_val (x : Z) : fexp prec emax x = Z.max (x - 53) (-1074).
Proof. reflexivity. Qed.

Lemma iter_xO (m d : positive) :
  Z.pos (Pos.iter xO m d) = Z.pos m * 2 ^ Z.pos d.
Proof.
  induction d as [|d IH] using Pos.peano_ind.
  - simpl. lia.
  - rewrite Pos.iter_succ, Pos2Z.inj_xO, IH, Pos2Z.inj_succ, Z.pow_succ_r by lia. lia.
Qed.

Lemma shl_align_spec (m : positive) (e e' : Z) :
  e' ≤ e →
  Z.pos (fst (shl_align m e e')) = Z.pos m * 2 ^ (e - e')
  ∧ snd (shl_align m e e') = e'.
Proof.
  intros H. unfold shl_align. destruct (e' - e) as [|d|d] eqn:E; try lia; simpl.
  - replace (e - e') with 0 by lia. lia.
  - rewrite iter_xO. replace (e - e') with (Z.pos d) by lia. lia.
Qed.

Lemma shl_align_id (m : positive) (e e' : Z) :
  e ≤ e' → shl_align m e e' = (m, e).
Proof.
  intros H. unfold shl_align. destruct (e' - e) as [|d|d] eqn:E; try lia; reflexivity.
Qed.

Lemma shr_exact (m e n : Z) :
  0 ≤ m →
  shr {| shr_m := m; shr_r := false; shr_s := false |} e n
  = if 0 <? n then (decale m (Z.to_nat n), e + n)
    else ({| shr_m := m; shr_r := false; shr_s := false |}, e).
Proof.
  intros Hm. unfold shr. destruct n as [|p|p]; try reflexivity.
  simpl (0 <? _). cbv iota. rewrite iter_pos_nat, iter_shr_1 by easy.
  now rewrite Z2Nat.inj_pos.
Qed.

Lemma chiffres_bornes (N : Z) :
  0 < N → 1 ≤ Zdigits2 N ∧ 2 ^ (Zdigits2 N - 1) ≤ N ∧ N < 2 ^ Zdigits2 N.
Proof.
  intros H. destruct N as [|p|p]; try lia. simpl Zdigits2.
  pose proof (digits2_pos_bornes p). lia.
Qed.

Lemma chiffres_unique (N d : Z) :
  2 ^ (d - 1) ≤ N → N < 2 ^ d → 1 ≤ d → Zdigits2 N = d.
Proof.
  intros H1 H2 Hd.
  assert (HN : 0 < N) by (pose proof (Z.pow_pos_nonneg 2 (d - 1)); lia).
  destruct (chiffres_bornes N HN) as (Hd' & H3 & H4).
  destruct (Z.lt_trichotomy (Zdigits2 N) d) as [Hlt|[Heq|Hgt]]; [|easy|].
  - assert (2 ^ Zdigits2 N ≤ 2 ^ (d - 1)) by (apply Z.pow_le_mono_r; lia). lia.
  - assert (2 ^ d ≤ 2 ^ (Zdigits2 N - 1)) by (apply Z.pow_le_mono_r; lia). lia.
Qed.

Lemma chiffres_decale (N j : Z) :
  0 < N → 0 ≤ j → Zdigits2 (N * 2 ^ j) = Zdigits2 N + j.
Proof.
  intros HN Hj. destruct (chiffres_bornes N HN) as (Hd & H1 & H2).
  pose proof (Z.pow_pos_nonneg 2 j ltac:(lia) Hj) as Hp.
  apply chiffres_unique; [| |lia].
  - replace (Zdigits2 N + j - 1) with ((Zdigits2 N - 1) + j) by lia.
    rewrite Z.pow_add_r by lia. nia.
  - rewrite Z.pow_add_r by lia. nia.
Qed.

Lemma arrondi_pair_echelle (a b c : Z) :
  0 < b → 0 < c → arrondi_pair (a * c) (b * c) = arrondi_pair a b.
Proof.
  intros Hb Hc. unfold arrondi_pair.
  rewrite Z.div_mul_cancel_r by lia. rewrite Z.mul_mod_distr_r by lia.
  destruct (Z.ltb_spec (2 * (a mod b * c)) (b * c)), (Z.ltb_spec (2 * (a mod b)) b);
    try nia; try reflexivity.
  destruct (Z.ltb_spec (b * c) (2 * (a mod b * c))), (Z.ltb_spec b (2 * (a mod b)));
    try nia; reflexivity.
Qed.

Lemma arrondi_pair_exact (a b : Z) : 0 < b → arrondi_pair (a * b) b = a.
Proof.
  intros Hb. unfold arrondi_pair. rewrite Z.div_mul, Z.mod_mul by lia.
  destruct (Z.ltb_spec (2 * 0) b); [reflexivity | lia].
Qed.

Lemma arrondi_pair_encadre (a b : Z) :
  0 < b → a / b ≤ arrondi_pair a b ≤ a / b + 1.
Proof.
  intros Hb. unfold arrondi_pair.
  destruct (_ <? _); [lia|]. destruct (_ <? _); [lia|]. destruct (Z.even _); lia.
Qed.

Lemma arrondi_pair_mono (a a' b : Z) :
  0 < b → a ≤ a' → arrondi_pair a b ≤ arrondi_pair a' b.
Proof.
  intros Hb Ha.
  pose proof (Z.div_le_mono a a' b Hb Ha) as Hq.
  destruct (Z.eq_dec (a / b) (a' / b)) as [E|E].
  - unfold arrondi_pair. rewrite <- E.
    pose proof (Z.div_mod a b ltac:(lia)). pose proof (Z.div_mod a' b ltac:(lia)).
    assert (a mod b ≤ a' mod b) by nia.
    repeat match goal with
           | |- context [Z.ltb ?x ?y] => destruct (Z.ltb_spec x y)
           end; destruct (Z.even (a / b)); lia.
  - pose proof (arrondi_pair_encadre a b Hb). pose proof (arrondi_pair_encadre a' b Hb).
    lia.
Qed.

(** [binary_round_aux] on a mantissa that needs no shift. *)

Lemma binary_round_aux_exact (s : bool) (mz : positive) (ez : Z) :
  Z.max (Zdigits2 (Z.pos mz) + ez - 53) (-1074) = ez →
  binary_round_aux prec emax s (Z.pos mz) ez loc_Exact
  = if ez <=? 971 then S754_finite s mz ez else S754_infinity s.
Proof.
  intros H. unfold binary_round_aux.
  assert (Hs : shr_fexp prec emax (Z.pos mz) ez loc_Exact
               = ({| shr_m := Z.pos mz; shr_r := false; shr_s := false |}, ez)).
  { unfold shr_fexp. rewrite fexp_val, H. simpl shr_record_of_loc.
    rewrite shr_exact by lia. now rewrite Z.sub_diag. }
  rewrite Hs. simpl shr_m. simpl loc_of_shr_record. simpl round_nearest_even.
  rewrite Hs. reflexivity.
Qed.

Lemma binary_round_spec (s : bool) (m : positive) (e : Z) :
  -1074 ≤ e →
  binary_round prec emax s m e = arrondi_binaire s (Z.pos m * 2 ^ (e + 1074)).
Proof.
  intros He. unfold binary_round, arrondi_binaire.
  destruct (chiffres_bornes (Z.pos m) ltac:(lia)) as (Hd1 & Hd2 & Hd3).
  change (Z.pos (digits2_pos m)) with (Zdigits2 (Z.pos m)).
  set (d := Zdigits2 (Z.pos m)) in *.
  rewrite chiffres_decale by lia. fold d. rewrite fexp_val.
  pose proof (Z.pow_pos_nonneg 2 (e + 1074) ltac:(lia) ltac:(lia)) as Hpj.
  destruct (Z.le_gt_cases d 53) as [Hd|Hd].
  - (* no bit is lost *)
    set (E := Z.max (d + e - 53) (-1074)).
    assert (HE : E ≤ e) by lia.
    destruct (shl_align_spec m e E HE) as [Hm Hz].
    destruct (shl_align m e E) as [mz ez]. simpl in Hm, Hz. subst ez.
    assert (Hdz : Zdigits2 (Z.pos mz) = d + (e - E)).
    { rewrite Hm. apply chiffres_decale; lia. }
    rewrite binary_round_aux_exact by (rewrite Hdz; lia).
    destruct (Z.leb_spec (d + (e + 1074)) 53) as [Hs|Hs].
    + assert (E = -1074) as -> by lia.
      replace (e - -1074) with (e + 1074) in Hm by lia. rewrite <- Hm.
      now rewrite Pos2Z.id.
    + assert (HEq : E = d + e - 53) by lia.
      assert (Hn : d + (e + 1074) - 53 = E + 1074) by lia. rewrite Hn.
      assert (HN : Z.pos m * 2 ^ (e + 1074) = Z.pos mz * 2 ^ (E + 1074)).
      { rewrite Hm, <- Z.mul_assoc, <- Z.pow_add_r by lia. do 2 f_equal. lia. }
      rewrite HN, arrondi_pair_exact by (apply Z.pow_pos_nonneg; lia).
      destruct (chiffres_bornes (Z.pos mz) ltac:(lia)) as (_ & _ & Hlt).
      rewrite Hdz in Hlt. replace (d + (e - E)) with 53 in Hlt by lia.
      destruct (Z.eqb_spec (Z.pos mz) (2 ^ 53)) as [Heq|_]; [lia|].
      replace (-1074 + (E + 1074)) with E by lia. now rewrite Pos2Z.id.
  - (* bits are lost *)
    rewrite shl_align_id by lia.
    destruct (Z.leb_spec (d + (e + 1074)) 53) as [Hs|_]; [lia|].
    set (n0 := d - 53). assert (Hn0 : 0 < n0) by lia.
    assert (Hk : arrondi_pair (Z.pos m * 2 ^ (e + 1074)) (2 ^ (d + (e + 1074) - 53))
                 = arrondi_pair (Z.pos m) (2 ^ n0)).
    { replace (d + (e + 1074) - 53) with (n0 + (e + 1074)) by lia.
      rewrite (Z.pow_add_r 2 n0 (e + 1074)) by lia.
      apply arrondi_pair_echelle; [apply Z.pow_pos_nonneg; lia | easy]. }
    rewrite Hk. set (k := arrondi_pair (Z.pos m) (2 ^ n0)).
    pose proof (Z.pow_pos_nonneg 2 n0 ltac:(lia) ltac:(lia)) as Hpn.
    assert (Hq : 2 ^ 52 ≤ Z.pos m / 2 ^ n0 < 2 ^ 53).
    { split.
      - apply Z.div_le_lower_bound; [easy|].
        rewrite <- Z.pow_add_r by lia. replace (n0 + 52) with (d - 1) by lia. easy.
      - apply Z.div_lt_upper_bound; [easy|].
        rewrite <- Z.pow_add_r by lia. replace (n0 + 53) with d by lia. easy. }
    pose proof (arrondi_pair_encadre (Z.pos m) (2 ^ n0) Hpn) as Hke. fold k in Hke.
    unfold binary_round_aux.
    assert (Hs1 : shr_fexp prec emax (Z.pos m) e loc_Exact
                  = (decale (Z.pos m) (Z.to_nat n0), e + n0)).
    { unfold shr_fexp. rewrite fexp_val. fold d. simpl shr_record_of_loc.
      rewrite shr_exact by lia.
      replace (Z.max (d + e - 53) (-1074) - e) with n0 by lia.
      destruct (Z.ltb_spec 0 n0); [reflexivity | lia]. }
    rewrite Hs1. rewrite arrondi_decale by lia.
    rewrite Z2Nat.id by lia. fold k.
    replace (-1074 + (d + (e + 1074) - 53)) with (e + n0) by lia.
    destruct (Z.eqb_spec k (2 ^ 53)) as [Heq|Hne].
    + assert (Hs2 : shr_fexp prec emax k (e + n0) loc_Exact
                    = (decale k 1, e + n0 + 1)).
      { unfold shr_fexp. rewrite fexp_val, Heq.
        change (Zdigits2 (2 ^ 53)) with 54. simpl shr_record_of_loc.
        rewrite shr_exact by lia.
        replace (Z.max (54 + (e + n0) - 53) (-1074) - (e + n0)) with 1 by lia.
        reflexivity. }
      rewrite Hs2. rewrite Heq. reflexivity.
    + assert (Hdk : Zdigits2 k = 53) by (apply chiffres_unique; lia).
      assert (Hs2 : shr_fexp prec emax k (e + n0) loc_Exact
                    = ({| shr_m := k; shr_r := false; shr_s := false |}, e + n0)).
      { unfold shr_fexp. rewrite fexp_val, Hdk. simpl shr_record_of_loc.
        rewrite shr_exact by lia.
        replace (Z.max (53 + (e + n0) - 53) (-1074) - (e + n0)) with 0 by lia.
        reflexivity. }
      rewrite Hs2. simpl shr_m.
      destruct k as [|pk|pk]; try lia. reflexivity.
Qed.

Lemma valide_fini (s : bool) (m : positive) (e : Z) :
  valid_binary (S754_finite s m e) = true →
  -1074 ≤ e ≤ 971 ∧ Zdigits2 (Z.pos m) ≤ 53
  ∧ (e = -1074 ∨ Zdigits2 (Z.pos m) = 53).
Proof.
  unfold SpecFloat.valid_binary, bounded, canonical_mantissa.
  rewrite fexp_val. intros [H1 H2]%andb_true_iff.
  apply Z.eqb_eq in H1. apply Z.leb_le in H2.
  change (emax - prec) with 971 in H2. simpl Zdigits2. lia.
Qed.

Lemma pow2_pos (k : Z) : 0 ≤ k → 0 < 2 ^ k.
Proof. intros. now apply Z.pow_pos_nonneg. Qed.

(** The integer of a valid finite number, in units of 2^-1074. *)

Lemma valide_entier (m : positive) (e : Z) :
  valid_binary (S754_finite false m e) = true →
  2 ^ (Zdigits2 (Z.pos m) - 1 + (e + 1074)) ≤ Z.pos m * 2 ^ (e + 1074)
  ∧ Z.pos m * 2 ^ (e + 1074) < 2 ^ (Zdigits2 (Z.pos m) + (e + 1074))
  ∧ Z.pos m * 2 ^ (e + 1074) < infini.
Proof.
  intros (He & Hd & Hc)%valide_fini.
  destruct (chiffres_bornes (Z.pos m) ltac:(lia)) as (Hd1 & Hd2 & Hd3).
  pose proof (pow2_pos (e + 1074) ltac:(lia)) as Hp.
  rewrite (Z.pow_add_r 2 (Zdigits2 (Z.pos m) - 1) (e + 1074)) by lia.
  assert (Hb : 2 ^ (Zdigits2 (Z.pos m) + (e + 1074)) ≤ 2 ^ 2098)
    by (apply Z.pow_le_mono_r; lia).
  rewrite (Z.pow_add_r 2 (Zdigits2 (Z.pos m)) (e + 1074)) in * by lia.
  split; [nia|]. split; [nia|]. unfold infini. nia.
Qed.

Lemma compare_canonique (m1 m2 : positive) (e1 e2 : Z) :
  valid_binary (S754_finite false m1 e1) = true →
  valid_binary (S754_finite false m2 e2) = true →
  match e1 ?= e2 with
  | Eq => (m1 ?= m2)%positive
  | Lt => Lt
  | Gt => Gt
  end = (Z.pos m1 * 2 ^ (e1 + 1074) ?= Z.pos m2 * 2 ^ (e2 + 1074)).
Proof.
  intros H1 H2.
  destruct (valide_entier m1 e1 H1) as (L1 & U1 & _).
  destruct (valide_entier m2 e2 H2) as (L2 & U2 & _).
  apply valide_fini in H1 as (He1 & Hd1 & Hc1).
  apply valide_fini in H2 as (He2 & Hd2 & Hc2).
  destruct (Z.compare_spec e1 e2) as [->|Hlt|Hgt]; symmetry.
  - rewrite <- Zmult_compare_compat_r by (apply Z.lt_gt, pow2_pos; lia). reflexivity.
  - apply Z.compare_lt_iff.
    assert (2 ^ (Zdigits2 (Z.pos m1) + (e1 + 1074))
            ≤ 2 ^ (Zdigits2 (Z.pos m2) - 1 + (e2 + 1074)))
      by (apply Z.pow_le_mono_r; lia).
    lia.
  - apply Z.compare_gt_iff.
    assert (2 ^ (Zdigits2 (Z.pos m2) + (e2 + 1074))
            ≤ 2 ^ (Zdigits2 (Z.pos m1) - 1 + (e1 + 1074)))
      by (apply Z.pow_le_mono_r; lia).
    lia.
Qed.

Lemma infini_pos : 0 < infini.
Proof. reflexivity. Qed.

(** On valid numbers that are not NaN, [SFcompare] is the comparison of
    the integers. *)

Lemma SFcompare_entier (x y : spec_float) :
  valid_binary x = true → valid_binary y = true →
  x ≠ S754_nan → y ≠ S754_nan →
  SFcompare x y = Some (entier x ?= entier y).
Proof.
  pose proof infini_pos as Hi.
  intros Vx Vy Nx Ny.
  destruct x as [sx|sx| |sx mx ex], y as [sy|sy| |sy my ey]; try congruence;
    simpl SFcompare; simpl entier; f_equal;
    try (destruct (valide_entier mx ex) as (Lx & Ux & Ix); [exact Vx|]);
    try (destruct (valide_entier my ey) as (Ly & Uy & Iy); [exact Vy|]);
    try (pose proof (pow2_pos (Zdigits2 (Z.pos mx) - 1 + (ex + 1074))
           ltac:(apply valide_fini in Vx;
                 pose proof (chiffres_bornes (Z.pos mx)); lia)) as Px);
    try (pose proof (pow2_pos (Zdigits2 (Z.pos my) - 1 + (ey + 1074))
           ltac:(apply valide_fini in Vy;
                 pose proof (chiffres_bornes (Z.pos my)); lia)) as Py).
  all: try (destruct sx); try (destruct sy); simpl cond_Zopp; symmetry.
  all: try (apply Z.compare_eq_iff; lia).
  all: try (apply Z.compare_lt_iff; lia).
  all: try (apply Z.compare_gt_iff; lia).
  - change (Pos.compare_cont Eq mx my) with (mx ?= my)%positive.
    rewrite Z.compare_opp, <- (compare_canonique my mx ey ex Vy Vx).
    rewrite (Z.compare_antisym ex ey), (Pos.compare_antisym mx my).
    destruct (ex ?= ey); reflexivity.
  - change (Pos.compare_cont Eq mx my) with (mx ?= my)%positive.
    rewrite <- (compare_canonique mx my ex ey Vx Vy). reflexivity.
Qed.

Lemma quotient_borne (N : Z) :
  0 < N → 53 < Zdigits2 N →
  2 ^ 52 ≤ N / 2 ^ (Zdigits2 N - 53) ∧ N / 2 ^ (Zdigits2 N - 53) < 2 ^ 53.
Proof.
  intros HN Hd. destruct (chiffres_bornes N HN) as (_ & H1 & H2).
  set (d := Zdigits2 N) in *. pose proof (pow2_pos (d - 53) ltac:(lia)) as Hp.
  split.
  - apply Z.div_le_lower_bound; [easy|].
    rewrite <- Z.pow_add_r by lia. replace (d - 53 + 52) with (d - 1) by lia. easy.
  - apply Z.div_lt_upper_bound; [easy|].
    rewrite <- Z.pow_add_r by lia. replace (d - 53 + 53) with d by lia. easy.
Qed.

(** The value of the rounding of a positive integer. *)

Lemma entier_arrondi_binaire (s : bool) (N : Z) :
  0 < N → entier (arrondi_binaire s N) = cond_Zopp s (valeur_arrondie N).
Proof.
  intros HN. unfold arrondi_binaire, valeur_arrondie.
  destruct (Z.leb_spec (Zdigits2 N) 53) as [Hd|Hd].
  - cbn [entier]. rewrite Z2Pos.id by easy. change (2 ^ (-1074 + 1074)) with 1.
    now rewrite Z.mul_1_r.
  - destruct (quotient_borne N HN Hd) as [Hq1 Hq2].
    set (n := Zdigits2 N - 53) in *.
    pose proof (arrondi_pair_encadre N (2 ^ n) (pow2_pos n ltac:(lia))) as Hk.
    set (k := arrondi_pair N (2 ^ n)) in *.
    pose proof (pow2_pos 52 ltac:(lia)) as H52.
    destruct (Z.eqb_spec k (2 ^ 53)) as [Heq|Hne].
    + destruct (Z.leb_spec (-1074 + n + 1) 971), (Z.leb_spec n 2044); try lia.
      * cbn [entier]. rewrite Z2Pos.id by easy. rewrite Heq. f_equal.
        replace (-1074 + n + 1 + 1074) with (1 + n) by lia.
        rewrite (Z.pow_add_r 2 1 n) by lia.
        change (2 ^ 53) with (2 ^ 52 * 2 ^ 1). lia.
      * now destruct s.
    + destruct (Z.leb_spec (-1074 + n) 971), (Z.leb_spec n 2045); try lia.
      * cbn [entier]. rewrite Z2Pos.id by lia.
        now replace (-1074 + n + 1074) with n by lia.
      * now destruct s.
Qed.

Lemma valeur_arrondie_borne (N : Z) :
  0 < N → 0 < valeur_arrondie N ∧ valeur_arrondie N ≤ infini
  ∧ (53 < Zdigits2 N → 2 ^ (Zdigits2 N - 1) ≤ valeur_arrondie N
      ∨ valeur_arrondie N = infini)
  ∧ (valeur_arrondie N < infini → valeur_arrondie N ≤ 2 ^ Zdigits2 N).
Proof.
  intros HN. unfold valeur_arrondie.
  destruct (chiffres_bornes N HN) as (Hd0 & H1 & H2).
  pose proof infini_pos as Hi.
  destruct (Z.leb_spec (Zdigits2 N) 53) as [Hd|Hd].
  - assert (2 ^ Zdigits2 N ≤ infini) by (apply Z.pow_le_mono_r; lia). lia.
  - destruct (quotient_borne N HN Hd) as [Hq1 Hq2].
    set (d := Zdigits2 N) in *. set (n := d - 53) in *.
    pose proof (pow2_pos n ltac:(lia)) as Hp.
    pose proof (arrondi_pair_encadre N (2 ^ n) Hp) as Hk.
    set (k := arrondi_pair N (2 ^ n)) in *.
    pose proof (pow2_pos 52 ltac:(lia)) as H52.
    assert (H53 : 2 ^ 53 = 2 * 2 ^ 52) by reflexivity.
    assert (Hdn : 2 ^ d = 2 ^ 53 * 2 ^ n)
      by (rewrite <- Z.pow_add_r by lia; f_equal; lia).
    assert (Hdn' : 2 ^ (d - 1) = 2 ^ 52 * 2 ^ n)
      by (rewrite <- Z.pow_add_r by lia; f_equal; lia).
    assert (Hlow : 2 ^ (d - 1) ≤ k * 2 ^ n) by (rewrite Hdn'; nia).
    assert (Hup : k * 2 ^ n ≤ 2 ^ d) by (rewrite Hdn; nia).
    destruct (if k =? 2 ^ 53 then n <=? 2044 else n <=? 2045) eqn:Hov.
    + assert (Hfin : k * 2 ^ n ≤ infini).
      { unfold infini. destruct (Z.eqb_spec k (2 ^ 53)) as [Heq|Hne].
        - apply Z.leb_le in Hov. rewrite Heq, <- Z.pow_add_r by lia.
          apply Z.pow_le_mono_r; lia.
        - apply Z.leb_le in Hov.
          assert (2 ^ 53 * 2 ^ n ≤ 2 ^ 2098)
            by (rewrite <- Z.pow_add_r by lia; apply Z.pow_le_mono_r; lia).
          nia. }
      nia.
    + split; [lia|]. split; [lia|]. split; [|lia]. intros _. now right.
Qed.

Lemma chiffres_mono (N1 N2 : Z) :
  0 < N1 → N1 ≤ N2 → Zdigits2 N1 ≤ Zdigits2 N2.
Proof.
  intros H1 H2.
  destruct (chiffres_bornes N1 H1) as (Ha & Hb & Hc).
  destruct (chiffres_bornes N2 ltac:(lia)) as (Ha' & Hb' & Hc').
  destruct (Z.le_gt_cases (Zdigits2 N1) (Zdigits2 N2)) as [|Hgt]; [easy|].
  assert (2 ^ Zdigits2 N2 ≤ 2 ^ (Zdigits2 N1 - 1)) by (apply Z.pow_le_mono_r; lia).
  lia.
Qed.

Lemma valeur_arrondie_mono (N1 N2 : Z) :
  0 < N1 → N1 ≤ N2 → valeur_arrondie N1 ≤ valeur_arrondie N2.
Proof.
  intros H1 H2. assert (H2' : 0 < N2) by lia.
  pose proof (chiffres_mono N1 N2 H1 H2) as Hd.
  destruct (valeur_arrondie_borne N1 H1) as (P1 & I1 & L1 & U1).
  destruct (valeur_arrondie_borne N2 H2') as (P2 & I2 & L2 & U2).
  destruct (chiffres_bornes N1 H1) as (Ha & Hb & Hc).
  destruct (Z.le_gt_cases (Zdigits2 N2) 53) as [Hs2|Hs2].
  - unfold valeur_arrondie.
    destruct (Z.leb_spec (Zdigits2 N1) 53), (Z.leb_spec (Zdigits2 N2) 53); lia.
  - destruct (Z.le_gt_cases (Zdigits2 N1) 53) as [Hs1|Hs1].
    + destruct (L2 Hs2) as [L2'|L2']; [|lia].
      assert (valeur_arrondie N1 = N1) as ->.
      { unfold valeur_arrondie. destruct (Z.leb_spec (Zdigits2 N1) 53); [easy|lia]. }
      assert (2 ^ Zdigits2 N1 ≤ 2 ^ (Zdigits2 N2 - 1)) by (apply Z.pow_le_mono_r; lia).
      lia.
    + destruct (Z.eq_dec (Zdigits2 N1) (Zdigits2 N2)) as [E|E].
      * unfold valeur_arrondie in *. rewrite <- E in *.
        destruct (Z.leb_spec (Zdigits2 N1) 53); [lia|].
        set (n := Zdigits2 N1 - 53) in *.
        pose proof (pow2_pos n ltac:(lia)) as Hp.
        pose proof (arrondi_pair_mono N1 N2 (2 ^ n) Hp H2) as Hk.
        pose proof (arrondi_pair_encadre N2 (2 ^ n) Hp) as Hk2.
        destruct (quotient_borne N2 H2' ltac:(lia)) as [_ Hq2].
        rewrite <- E in Hq2. fold n in Hq2.
        set (k1 := arrondi_pair N1 (2 ^ n)) in *.
        set (k2 := arrondi_pair N2 (2 ^ n)) in *.
        destruct (Z.eqb_spec k1 (2 ^ 53)), (Z.eqb_spec k2 (2 ^ 53));
          destruct (Z.leb_spec n 2044), (Z.leb_spec n 2045); try lia; nia.
      * destruct (L2 Hs2) as [L2'|L2']; [|lia].
        destruct (Z.lt_ge_cases (valeur_arrondie N1) infini) as [Hf|Hf].
        -- specialize (U1 Hf).
           assert (2 ^ Zdigits2 N1 ≤ 2 ^ (Zdigits2 N2 - 1))
             by (apply Z.pow_le_mono_r; lia).
           lia.
        -- (* N1 overflows: so does N2 *)
           assert (valeur_arrondie N2 = infini); [|lia].
           unfold valeur_arrondie in *.
           destruct (Z.leb_spec (Zdigits2 N1) 53); [lia|].
           destruct (Z.leb_spec (Zdigits2 N2) 53); [lia|].
           set (n1 := Zdigits2 N1 - 53) in *. set (n2 := Zdigits2 N2 - 53) in *.
           destruct (if arrondi_pair N1 (2 ^ n1) =? 2 ^ 53
                     then n1 <=? 2044 else n1 <=? 2045) eqn:Ho1.
           ++ exfalso.
              assert (arrondi_pair N1 (2 ^ n1) * 2 ^ n1 < infini); [|lia].
              destruct (quotient_borne N1 H1 ltac:(lia)) as [_ Hq1]. fold n1 in Hq1.
              pose proof (pow2_pos n1 ltac:(lia)) as Hp.
              pose proof (arrondi_pair_encadre N1 (2 ^ n1) Hp) as Hk1.
              unfold infini.
              destruct (Z.eqb_spec (arrondi_pair N1 (2 ^ n1)) (2 ^ 53)) as [Heq|Hne];
                apply Z.leb_le in Ho1.
              ** rewrite Heq, <- Z.pow_add_r by lia. apply Z.pow_lt_mono_r; lia.
              ** assert (2 ^ 53 * 2 ^ n1 ≤ 2 ^ 2098)
                   by (rewrite <- Z.pow_add_r by lia; apply Z.pow_le_mono_r; lia).
                 nia.
           ++ assert (2045 ≤ n1)
                by (destruct (Z.eqb_spec (arrondi_pair N1 (2 ^ n1)) (2 ^ 53));
                    apply Z.leb_gt in Ho1; lia).
              destruct (Z.eqb_spec (arrondi_pair N2 (2 ^ n2)) (2 ^ 53));
                destruct (Z.leb_spec n2 2044), (Z.leb_spec n2 2045); lia.
Qed.

Lemma valeur_arrondie_exacte (m : positive) (e : Z) :
  valid_binary (S754_finite false m e) = true →
  valeur_arrondie (Z.pos m * 2 ^ (e + 1074)) = Z.pos m * 2 ^ (e + 1074).
Proof.
  intros (He & Hd & Hc)%valide_fini. unfold valeur_arrondie.
  rewrite chiffres_decale by lia.
  destruct (Z.leb_spec (Zdigits2 (Z.pos m) + (e + 1074)) 53) as [Hs|Hs]; [easy|].
  destruct (chiffres_bornes (Z.pos m) ltac:(lia)) as (Hd1 & Hd2 & Hd3).
  assert (Hd53 : Zdigits2 (Z.pos m) = 53) by lia. rewrite Hd53 in *.
  replace (53 + (e + 1074) - 53) with (e + 1074) by lia.
  rewrite arrondi_pair_exact by (apply pow2_pos; lia).
  destruct (Z.eqb_spec (Z.pos m) (2 ^ 53)); [lia|].
  destruct (Z.leb_spec (e + 1074) 2045); [reflexivity | lia].
Qed.

Lemma entier_arrondi_signe (N : Z) :
  entier (arrondi_signe N)
  = match N with
    | 0 => 0
    | Z.pos p => valeur_arrondie (Z.pos p)
    | Z.neg p => - valeur_arrondie (Z.pos p)
    end.
Proof.
  destruct N as [|p|p]; [reflexivity| |]; unfold arrondi_signe;
    now rewrite entier_arrondi_binaire by lia.
Qed.

Lemma entier_arrondi_signe_mono (N1 N2 : Z) :
  N1 ≤ N2 → entier (arrondi_signe N1) ≤ entier (arrondi_signe N2).
Proof.
  intros H. rewrite !entier_arrondi_signe.
  destruct N1 as [|p1|p1], N2 as [|p2|p2]; try lia;
    try (pose proof (valeur_arrondie_borne (Z.pos p1) ltac:(lia)));
    try (pose proof (valeur_arrondie_borne (Z.pos p2) ltac:(lia))); try lia.
  - apply valeur_arrondie_mono; lia.
  - pose proof (valeur_arrondie_mono (Z.pos p2) (Z.pos p1) ltac:(lia) ltac:(lia)). lia.
Qed.

Lemma entier_arrondi_signe_borne (N : Z) :
  - infini ≤ entier (arrondi_signe N) ≤ infini.
Proof.
  rewrite entier_arrondi_signe. pose proof infini_pos.
  destruct N as [|p|p]; [lia| |];
    pose proof (valeur_arrondie_borne (Z.pos p) ltac:(lia)); lia.
Qed.

Lemma arrondi_binaire_non_nan (s : bool) (N : Z) : arrondi_binaire s N ≠ S754_nan.
Proof.
  unfold arrondi_binaire. repeat destruct (_ <=? _); try destruct (_ =? _);
    repeat destruct (_ <=? _); discriminate.
Qed.

Lemma arrondi_signe_non_nan (N : Z) : arrondi_signe N ≠ S754_nan.
Proof. destruct N; [discriminate | apply arrondi_binaire_non_nan ..]. Qed.

(** The sum of two valid finite numbers is the rounding of the sum of their
    integers. *)

Lemma SFadd_fini (sx sc : bool) (mx mc : positive) (ex ec : Z) :
  valid_binary (S754_finite sx mx ex) = true →
  valid_binary (S754_finite sc mc ec) = true →
  SFadd prec emax (S754_finite sx mx ex) (S754_finite sc mc ec)
  = arrondi_signe (entier (S754_finite sx mx ex) + entier (S754_finite sc mc ec)).
Proof.
  intros (Hex & _)%valide_fini (Hec & _)%valide_fini. unfold SFadd.
  set (ez := Z.min ex ec).
  destruct (shl_align_spec mx ex ez ltac:(lia)) as [Hx _].
  destruct (shl_align_spec mc ec ez ltac:(lia)) as [Hc _].
  rewrite Hx, Hc. cbn [entier].
  set (S := cond_Zopp sx (Z.pos mx * 2 ^ (ex - ez))
            + cond_Zopp sc (Z.pos mc * 2 ^ (ec - ez))).
  assert (HS : cond_Zopp sx (Z.pos mx * 2 ^ (ex + 1074))
               + cond_Zopp sc (Z.pos mc * 2 ^ (ec + 1074))
               = S * 2 ^ (ez + 1074)).
  { unfold S.
    replace (ex + 1074) with ((ex - ez) + (ez + 1074)) by lia.
    replace (ec + 1074) with ((ec - ez) + (ez + 1074)) by lia.
    rewrite (Z.pow_add_r 2 (ex - ez) (ez + 1074)) by lia.
    rewrite (Z.pow_add_r 2 (ec - ez) (ez + 1074)) by lia.
    destruct sx, sc; simpl cond_Zopp; ring. }
  rewrite HS. pose proof (pow2_pos (ez + 1074) ltac:(lia)) as Hp.
  unfold binary_normalize. destruct S as [|p|p].
  - reflexivity.
  - rewrite binary_round_spec by lia.
    destruct (Z.pos p * 2 ^ (ez + 1074)) as [|p'|p'] eqn:E; try lia. reflexivity.
  - rewrite binary_round_spec by lia.
    destruct (Z.neg p * 2 ^ (ez + 1074)) as [|p'|p'] eqn:E; try lia.
    unfold arrondi_signe. f_equal. lia.
Qed.

(** Adding a valid finite number [c] is monotone on the valid numbers that
    are not NaN, and yields no NaN. *)

Lemma SFadd_croissant (x y c : spec_float) (sc : bool) (mc : positive) (ec : Z) :
  c = S754_finite sc mc ec →
  valid_binary x = true → valid_binary y = true → valid_binary c = true →
  x ≠ S754_nan → y ≠ S754_nan → entier x ≤ entier y →
  entier (SFadd prec emax x c) ≤ entier (SFadd prec emax y c)
  ∧ SFadd prec emax x c ≠ S754_nan ∧ SFadd prec emax y c ≠ S754_nan.
Proof.
  intros -> Vx Vy Vc Nx Ny Hxy.
  pose proof infini_pos as Hi.
  set (C := entier (S754_finite sc mc ec)).
  assert (Hpt : ∀ z, valid_binary z = true → z ≠ S754_nan →
            SFadd prec emax z (S754_finite sc mc ec) ≠ S754_nan
            ∧ match z with
              | S754_infinity s =>
                  entier (SFadd prec emax z (S754_finite sc mc ec)) = entier z
              | _ => entier (SFadd prec emax z (S754_finite sc mc ec))
                     = entier (arrondi_signe (entier z + C))
                     ∧ - infini < entier z < infini
              end).
  { intros z Vz Nz. destruct z as [sz|sz| |sz mz ez]; try congruence.
    - split; [discriminate|]. split; [|simpl; lia].
      cbn [SFadd entier]. rewrite Z.add_0_l. unfold C. cbn [entier].
      rewrite entier_arrondi_signe.
      pose proof (valeur_arrondie_exacte mc ec Vc) as He.
      destruct (valide_entier mc ec Vc) as (_ & _ & _).
      pose proof (pow2_pos (ec + 1074)
                    ltac:(apply valide_fini in Vc; lia)) as Hp.
      destruct (Z.pos mc * 2 ^ (ec + 1074)) as [|p|p] eqn:E; try lia.
      try rewrite E in He.
      destruct sc; simpl cond_Zopp; [change (- Z.pos p) with (Z.neg p)|];
        cbv iota; now rewrite He.
    - split; [discriminate | reflexivity].
    - rewrite SFadd_fini by easy. split; [apply arrondi_signe_non_nan|].
      split; [reflexivity|].
      destruct (valide_entier mz ez Vz) as (_ & _ & Hlt).
      pose proof (pow2_pos (ez + 1074)
                    ltac:(apply valide_fini in Vz; lia)) as Hp.
      cbn [entier]. destruct sz; simpl cond_Zopp; lia. }
  destruct (Hpt x Vx Nx) as [Rx Ex], (Hpt y Vy Ny) as [Ry Ey].
  split; [|easy].
  pose proof (entier_arrondi_signe_borne (entier x + C)) as Bx.
  pose proof (entier_arrondi_signe_borne (entier y + C)) as By.
  pose proof (entier_arrondi_signe_mono (entier x + C) (entier y + C) ltac:(lia)) as Hm.
  destruct x as [sx|sx| |sx mx ex], y as [sy|sy| |sy my ey]; try congruence;
    repeat match goal with
           | H : _ ∧ _ |- _ => destruct H
           end;
    try (destruct sx); try (destruct sy); cbn [entier] in *; lia.
Qed.

Lemma leb_entier (a b : float) :
  (a <=? b)%float = true
  ↔ non_nan a ∧ non_nan b ∧ entier (Prim2SF a) ≤ entier (Prim2SF b).
Proof.
  rewrite !non_nan_spec, FloatAxioms.leb_spec. unfold SFleb. split.
  - intros H.
    assert (Hn : Prim2SF a ≠ S754_nan ∧ Prim2SF b ≠ S754_nan).
    { apply SFcompare_Some. destruct (SFcompare _ _); [eauto | discriminate]. }
    destruct Hn as [Ha Hb]. split; [easy|]. split; [easy|].
    rewrite (SFcompare_entier _ _ (Prim2SF_valid a) (Prim2SF_valid b) Ha Hb) in H.
    destruct (Z.compare_spec (entier (Prim2SF a)) (entier (Prim2SF b)));
      [lia | lia | discriminate].
  - intros (Ha & Hb & H).
    rewrite (SFcompare_entier _ _ (Prim2SF_valid a) (Prim2SF_valid b) Ha Hb).
    destruct (Z.compare_spec (entier (Prim2SF a)) (entier (Prim2SF b)));
      [reflexivity | reflexivity | lia].
Qed.

(** Adding a finite number is monotone: the rounding of the sum never
    inverts an order. *)

Theorem add_croissant (x y c : float) (sc : bool) (mc : positive) (ec : Z) :
  Prim2SF c = S754_finite sc mc ec →
  (x <=? y)%float = true → (x + c <=? y + c)%float = true.
Proof.
  intros Hc (Hx & Hy & Hxy)%leb_entier. apply non_nan_spec in Hx, Hy.
  destruct (SFadd_croissant (Prim2SF x) (Prim2SF y) (Prim2SF c) sc mc ec Hc
              (Prim2SF_valid x) (Prim2SF_valid y) (Prim2SF_valid c) Hx Hy Hxy)
    as (Hle & Nx & Ny).
  apply leb_entier. rewrite !non_nan_spec, !add_spec. easy.
Qed.

(** Adding a finite non-negative number never lowers a number. *)

Theorem add_positif (x c : float) (mc : positive) (ec : Z) :
  Prim2SF c = S754_finite false mc ec →
  non_nan x → (x <=? x + c)%float = true.
Proof.
  intros Hc Hx. apply leb_entier. split; [easy|].
  apply non_nan_spec in Hx. rewrite non_nan_spec, add_spec.
  pose proof (Prim2SF_valid x) as Vx. pose proof (Prim2SF_valid c) as Vc.
  rewrite Hc in *. unfold SF64add.
  pose proof infini_pos as Hi.
  destruct (valide_entier mc ec Vc) as (_ & _ & HC).
  pose proof (pow2_pos (ec + 1074) ltac:(apply valide_fini in Vc; lia)) as Hp.
  destruct (Prim2SF x) as [sx|sx| |sx mx ex]; try congruence.
  - split; [discriminate|]. cbn [SFadd entier cond_Zopp]. lia.
  - split; [discriminate|]. cbn [SFadd]. lia.
  - rewrite SFadd_fini by easy. split; [apply arrondi_signe_non_nan|].
    set (X := entier (S754_finite sx mx ex)).
    assert (HX : entier (arrondi_signe X) = X).
    { unfold X. cbn [entier]. rewrite entier_arrondi_signe.
      pose proof (valeur_arrondie_exacte mx ex) as He.
      assert (Vx' : valid_binary (S754_finite false mx ex) = true) by exact Vx.
      specialize (He Vx').
      pose proof (pow2_pos (ex + 1074) ltac:(apply valide_fini in Vx; lia)) as Hpx.
      destruct (Z.pos mx * 2 ^ (ex + 1074)) as [|p|p] eqn:E; try lia.
      destruct sx; simpl cond_Zopp; [change (- Z.pos p) with (Z.neg p)|];
        cbv iota; now rewrite He. }
    rewrite <- HX at 1. apply entier_arrondi_signe_mono.
    cbn [entier cond_Zopp]. lia.
Qed.

End FaitsArrondi.

(** ** The best-match loop *)

Section Boucle.

Variable chunks : list Chunk.
Variable q : string.

Lemma invariant_initial : invariant chunks q [] (0%float, None).
Proof.
  unfold invariant. simpl. repeat split.
  intros s H. inversion H.
Qed.

Lemma invariant_etape (vus : list Counter) (v : Counter) (st : etat) :
  (length vus < length chunks)%nat →
  invariant chunks q vus st →
  ∃ st', etape chunks q (nettoyer_et_vectoriser q) st (length vus) v = Ok st'
         ∧ invariant chunks q (vus ++ [v]) st'.
Proof.
  intros Hlen (Hnn & Hpos & Hmax & Hbest). unfold etape.
  set (note := score_de q (nettoyer_et_vectoriser q)) in *.
  destruct (st.1 <? note v)%float eqn:Hlt.
  - destruct (lookup_lt_is_Some_2 chunks (length vus) Hlen) as [c Hc].
    rewrite Hc. eexists. split; [reflexivity|].
    destruct (ltb_non_nan _ _ Hlt) as [_ Hnv].
    unfold invariant, scores. fold note. simpl. rewrite fmap_app. simpl.
    split; [easy|]. split; [apply ltb_leb; eapply leb_ltb_trans; eauto|].
    split.
    + intros s [Hs| ->%list_elem_of_singleton]%elem_of_app.
      * apply not_true_is_false. intros Hs'.
        pose proof (Hmax s Hs) as Hm.
        rewrite (ltb_trans _ _ _ Hlt Hs') in Hm. discriminate.
      * apply leb_non_ltb. now apply leb_refl.
    + exists (length vus). split; [easy|]. split.
      * rewrite lookup_app_r by (rewrite length_fmap; lia).
        rewrite length_fmap, Nat.sub_diag. reflexivity.
      * intros j s Hj Hs. rewrite lookup_app_l in Hs by (rewrite length_fmap; lia).
        apply not_true_is_false. intros Hle.
        assert (Hin : s ∈ note <$> vus) by (eapply list_elem_of_lookup_2; eauto).
        pose proof (Hmax s Hin) as Hm.
        rewrite (ltb_leb_trans _ _ _ Hlt Hle) in Hm. discriminate.
  - eexists. split; [reflexivity|].
    unfold invariant, scores. fold note. rewrite fmap_app. simpl.
    split; [easy|]. split; [easy|]. split.
    + intros s [Hs| ->%list_elem_of_singleton]%elem_of_app; [now apply Hmax | easy].
    + destruct st.2 as [c|]; [|easy].
      destruct Hbest as (i & Hi & Hsi & Hfirst). exists i.
      split; [easy|]. split.
      * rewrite lookup_app_l; [easy|]. eapply lookup_lt_Some; eauto.
      * intros j s Hj Hs. apply (Hfirst j s Hj).
        rewrite lookup_app_l in Hs; [easy|].
        apply lookup_lt_Some in Hsi. unfold scores in Hsi. fold note in Hsi. lia.
Qed.

(** The loop never fails when the index is no longer than the corpus, and
    it ends with the invariant on all the entries. *)
Lemma invariant_boucle (vecs vus : list Counter) (st : etat) :
  (length (vus ++ vecs) ≤ length chunks)%nat →
  invariant chunks q vus st →
  ∃ st', boucle chunks q (nettoyer_et_vectoriser q) (length vus) vecs st = Ok st'
         ∧ invariant chunks q (vus ++ vecs) st'.
Proof.
  revert vus st. induction vecs as [|v vecs IH]; intros vus st Hlen Hinv; simpl.
  - exists st. now rewrite app_nil_r.
  - rewrite length_app in Hlen. simpl in Hlen.
    destruct (invariant_etape vus v st) as (st1 & -> & H1); [lia | easy |].
    simpl. destruct (IH (vus ++ [v]) st1) as (st' & Hb & H').
    + rewrite !length_app. simpl. lia.
    + easy.
    + rewrite length_app in Hb. simpl in Hb.
      replace (length vus + 1)%nat with (S (length vus)) in Hb by lia.
      exists st'. split; [easy|]. now rewrite <- app_assoc in H'.
Qed.

(** The engine, in terms of the final state of the loop. *)
Lemma moteur_boucle (vecteurs : list Counter) (now : string) :
  (length vecteurs ≤ length chunks)%nat →
  ∃ ms mc,
    boucle chunks q (nettoyer_et_vectoriser q) 0 vecteurs (0%float, None)
    = Ok (ms, mc)
    ∧ invariant chunks q vecteurs (ms, mc)
    ∧ moteur chunks vecteurs q now
      = if (seuil <? ms)%float then reponse_trouvee q ms mc now
        else Ok (reponse_defaut q now).
Proof.
  intros Hlen.
  destruct (invariant_boucle vecteurs [] (0%float, None)) as ([ms mc] & Hb & Hinv);
    [easy | apply invariant_initial |].
  simpl in Hb, Hinv. exists ms, mc. split; [easy|]. split; [easy|].
  unfold moteur. now rewrite Hb.
Qed.

End Boucle.

Lemma vecteurs_chunks_length (chunks : list Chunk) (vecteurs : list Counter) :
  vecteurs_chunks chunks = Ok vecteurs → length vecteurs = length chunks.
Proof.
  revert vecteurs. induction chunks as [|c chunks IH]; intros vecteurs; simpl.
  - now intros [= <-].
  - destruct (k_text c); simpl; [|discriminate].
    destruct (vecteurs_chunks chunks) as [vs|]; simpl; [|discriminate].
    intros [= <-]. simpl. now rewrite (IH vs).
Qed.

Lemma vecteurs_chunks_lookup (chunks : list Chunk) (vecteurs : list Counter)
    (i : nat) (c : Chunk) :
  vecteurs_chunks chunks = Ok vecteurs → chunks !! i = Some c →
  ∃ t, k_text c = Some t ∧ vecteurs !! i = Some (nettoyer_et_vectoriser t).
Proof.
  revert vecteurs i. induction chunks as [|c0 chunks IH]; intros vecteurs i; simpl.
  - intros _ H. inversion H.
  - destruct (k_text c0) as [t0|] eqn:Ht; simpl; [|discriminate].
    destruct (vecteurs_chunks chunks) as [vs|]; simpl; [|discriminate].
    intros [= <-]. destruct i as [|i]; simpl.
    + intros [= <-]. now exists t0.
    + now apply IH.
Qed.

(** ** The two outcomes of a query *)

Lemma seuil_positif : (seuil <? 0)%float = false.
Proof. reflexivity. Qed.

(** Either the loop ends on an entry whose score is above the threshold, is
    exceeded by no score and is reached by no earlier entry, and the answer
    is built from that entry; or no score is above the threshold and the
    answer is the fallback. *)
Lemma moteur_cas (chunks : list Chunk) (vecteurs : list Counter) (q now : string) :
  (length vecteurs ≤ length chunks)%nat →
  let sc := scores q vecteurs in
  (∃ i c s, chunks !! i = Some c ∧ sc !! i = Some s
     ∧ (seuil <? s)%float = true
     ∧ (∀ s', s' ∈ sc → (s <? s')%float = false)
     ∧ (∀ j s', (j < i)%nat → sc !! j = Some s' → (s <=? s')%float = false)
     ∧ boucle chunks q (nettoyer_et_vectoriser q) 0 vecteurs (0%float, None)
       = Ok (s, Some c)
     ∧ moteur chunks vecteurs q now = reponse_trouvee q s (Some c) now)
  ∨ ((∀ s, s ∈ sc → (seuil <? s)%float = false)
     ∧ (∃ ms mc, boucle chunks q (nettoyer_et_vectoriser q) 0 vecteurs (0%float, None)
                 = Ok (ms, mc) ∧ (seuil <? ms)%float = false)
     ∧ moteur chunks vecteurs q now = Ok (reponse_defaut q now)).
Proof.
  intros Hlen sc.
  destruct (moteur_boucle chunks q vecteurs now Hlen)
    as (ms & mc & Hb & (Hnn & Hpos & Hmax & Hbest) & Hm).
  simpl in Hnn, Hpos, Hmax, Hbest. rewrite Hm.
  destruct (seuil <? ms)%float eqn:Hs.
  - left. destruct mc as [c|].
    + destruct Hbest as (i & Hi & Hsi & Hfirst). exists i, c, ms. easy.
    + subst ms. rewrite seuil_positif in Hs. discriminate.
  - right. split; [|split; [now exists ms, mc | reflexivity]].
    intros s Hin. apply not_true_is_false. intros Hlt.
    destruct (ltb_non_nan _ _ Hlt) as [_ Hns].
    pose proof (non_ltb_leb _ _ Hnn Hns (Hmax s Hin)) as Hle.
    rewrite (ltb_leb_trans _ _ _ Hlt Hle) in Hs. discriminate.
Qed.

(** With its four keys present, the best chunk gives an answer: its text
    stripped and truncated, the rounded score, and its metadata. *)
Lemma reponse_trouvee_complet (q now : string) (s : float) (c : Chunk) :
  complet c →
  ∃ id t url titre,
    k_chunk_id c = Some id ∧ k_text c = Some t
    ∧ k_source_url c = Some url ∧ k_source_title c = Some titre
    ∧ reponse_trouvee q s (Some c) now
      = Ok {| question := q; contexte := tronquer (strip t);
              confiance := round3 s; chunk_id := id;
              source_url := url; source_title := titre; timestamp := now |}.
Proof.
  intros ([id Hid] & [t Ht] & [url Hu] & [titre Hti]).
  exists id, t, url, titre. unfold reponse_trouvee. simpl.
  rewrite Hid, Ht, Hu, Hti. easy.
Qed.

(** The answer built from a chunk never fails with [TypeError]. *)
Lemma reponse_trouvee_Some (q now : string) (s : float) (c : Chunk) :
  reponse_trouvee q s (Some c) now ≠ Leve TypeError.
Proof.
  unfold reponse_trouvee. simpl.
  destruct (k_text c); simpl; [|discriminate].
  destruct (k_chunk_id c); simpl; [|discriminate].
  destruct (k_source_url c); simpl; [|discriminate].
  destruct (k_source_title c); simpl; discriminate.
Qed.

(** With complete chunk records the query returns an answer. *)
Lemma moteur_complet (chunks : list Chunk) (vecteurs : list Counter) (q now : string) :
  (length vecteurs ≤ length chunks)%nat → Forall complet chunks →
  ∃ r, moteur chunks vecteurs q now = Ok r.
Proof.
  intros Hlen Hall.
  destruct (moteur_cas chunks vecteurs q now Hlen)
    as [(i & c & s & Hc & _ & _ & _ & _ & _ & Hm) | (_ & _ & Hm)]; [|eauto].
  rewrite Forall_forall in Hall.
  assert (Hin : c ∈ chunks) by (eapply list_elem_of_lookup_2; eauto).
  destruct (reponse_trouvee_complet q now s c (Hall c Hin))
    as (id & t & url & titre & _ & _ & _ & _ & Hr).
  rewrite Hm, Hr. eauto.
Qed.

Lemma complet_text (c : Chunk) : complet c → is_Some (k_text c).
Proof. now intros (_ & H & _). Qed.

(** ** The claims *)

(** The answer built from a chunk that has its four keys. *)
Lemma reponse_trouvee_champs (q now : string) (s : float) (c : Chunk)
    (t : string) (id : Z) (url titre : string) :
  k_text c = Some t → k_chunk_id c = Some id →
  k_source_url c = Some url → k_source_title c = Some titre →
  reponse_trouvee q s (Some c) now
  = Ok {| question := q; contexte := tronquer (strip t);
          confiance := round3 s; chunk_id := id;
          source_url := url; source_title := titre; timestamp := now |}.
Proof.
  intros Ht Hid Hurl Htitre. unfold reponse_trouvee. simpl.
  by rewrite Ht, Hid, Hurl, Htitre.
Qed.

(** C1 — For every corpus and every question, the query answers from the
    best entry (the winning chunk with the maximum score) exactly when the
    maximum score over the index entries is strictly greater than 0.12, and
    with the fallback otherwise: when some score is above the threshold the
    answer is built from an entry whose score is above the threshold and is
    exceeded by no score, and the response returned carries the identifier,
    the address, the title and the shaped text of that chunk with that
    score, rounded, as its confidence; when no score is above it the
    response returned is the fallback, with identifier -1 and confidence
    0.0. In particular a best score of exactly 0.12 gives the fallback and
    a score of 0.1201 gives a match. *)
Theorem C1_seuil_acceptation
    (chunks : list Chunk) (vecteurs : list Counter) (q now : string) :
  vecteurs_chunks chunks = Ok vecteurs →
  let sc := scores q vecteurs in
  let defaut :=
    {| question := q;
       contexte := "La d" +:+ car 233 +:+ "marche NIRD promeut un num"
                   +:+ car 233
                   +:+ "rique Inclusif, Responsable et Durable dans les "
                   +:+ car 233
                   +:+ "tablissements scolaires via Linux, le reconditionnement et les logiciels libres.";
       confiance := 0%float; chunk_id := -1;
       source_url := "https://nird.forge.apps.education.fr/";
       source_title := "Accueil"; timestamp := now |} in
  ((∃ s, s ∈ sc ∧ (0.12 <? s)%float = true) →
     ∃ i c s t, chunks !! i = Some c ∧ sc !! i = Some s
       ∧ k_text c = Some t
       ∧ (0.12 <? s)%float = true
       ∧ (∀ s', s' ∈ sc → (s <? s')%float = false)
       ∧ moteur chunks vecteurs q now = reponse_trouvee q s (Some c) now
       ∧ (∀ id url titre,
            k_chunk_id c = Some id → k_source_url c = Some url →
            k_source_title c = Some titre →
            moteur chunks vecteurs q now
            = Ok {| question := q; contexte := tronquer (strip t);
                    confiance := round3 s; chunk_id := id;
                    source_url := url; source_title := titre;
                    timestamp := now |}))
  ∧ ((∀ s, s ∈ sc → (0.12 <? s)%float = false) →
       moteur chunks vecteurs q now = Ok (reponse_defaut q now)
       ∧ moteur chunks vecteurs q now = Ok defaut)
  ∧ ((∀ s, s ∈ sc → (s <=? 0.12)%float = true) →
       moteur chunks vecteurs q now = Ok (reponse_defaut q now)
       ∧ moteur chunks vecteurs q now = Ok defaut)
  ∧ (0.1201%float ∈ sc →
       ∃ c s t, c ∈ chunks ∧ k_text c = Some t
         ∧ (0.1201 <=? s)%float = true
         ∧ moteur chunks vecteurs q now = reponse_trouvee q s (Some c) now
         ∧ (∀ id url titre,
              k_chunk_id c = Some id → k_source_url c = Some url →
              k_source_title c = Some titre →
              moteur chunks vecteurs q now
              = Ok {| question := q; contexte := tronquer (strip t);
                      confiance := round3 s; chunk_id := id;
                      source_url := url; source_title := titre;
                      timestamp := now |})).
Proof.
  intros Hv sc defaut. pose proof (vecteurs_chunks_length _ _ Hv) as Hl.
  assert (Hlen : (length vecteurs ≤ length chunks)%nat) by lia.
  pose proof (moteur_cas chunks vecteurs q now Hlen) as Hcas.
  fold sc in Hcas. change seuil with 0.12%float in Hcas.
  assert (Hhaut : (∃ s, s ∈ sc ∧ (0.12 <? s)%float = true) →
     ∃ i c s t, chunks !! i = Some c ∧ sc !! i = Some s
       ∧ k_text c = Some t
       ∧ (0.12 <? s)%float = true
       ∧ (∀ s', s' ∈ sc → (s <? s')%float = false)
       ∧ moteur chunks vecteurs q now = reponse_trouvee q s (Some c) now
       ∧ (∀ id url titre,
            k_chunk_id c = Some id → k_source_url c = Some url →
            k_source_title c = Some titre →
            moteur chunks vecteurs q now
            = Ok {| question := q; contexte := tronquer (strip t);
                    confiance := round3 s; chunk_id := id;
                    source_url := url; source_title := titre;
                    timestamp := now |})).
  { intros (s0 & Hin & Hs0).
    destruct Hcas as [(i & c & s & Hc & Hs & Hlt & Hmax & _ & _ & Hm) | (Hnone & _)].
    - destruct (vecteurs_chunks_lookup _ _ _ _ Hv Hc) as (t & Ht & _).
      exists i, c, s, t. repeat (split; [easy|]).
      intros id url titre Hid Hurl Htitre. rewrite Hm.
      now apply reponse_trouvee_champs.
    - rewrite (Hnone s0 Hin) in Hs0. discriminate. }
  assert (Hbas : (∀ s, s ∈ sc → (0.12 <? s)%float = false) →
       moteur chunks vecteurs q now = Ok (reponse_defaut q now)
       ∧ moteur chunks vecteurs q now = Ok defaut).
  { intros Hnone.
    destruct Hcas as [(i & c & s & Hc & Hs & Hlt & _) | (_ & _ & Hm)].
    - rewrite (Hnone s) in Hlt; [discriminate|].
      eapply list_elem_of_lookup_2; eauto.
    - split; [exact Hm|]. rewrite Hm. reflexivity. }
  split; [exact Hhaut|]. split; [exact Hbas|]. split.
  - intros Hle. apply Hbas. intros s Hin. apply leb_non_ltb. now apply Hle.
  - intros Hin. destruct Hhaut as (i & c & s & t & Hc & Hs & Ht & Hlt & Hmax & Hm & Hr).
    { exists 0.1201%float. split; [easy | reflexivity]. }
    exists c, s, t. split; [eapply list_elem_of_lookup_2; eauto|].
    split; [easy|]. split; [|easy].
    apply non_ltb_leb; [now apply (ltb_non_nan _ _ Hlt) | reflexivity | now apply Hmax].
Qed.

Lemma C1_seuil_acceptation_temoin :
  vecteurs_chunks corpus_012 = Ok (index_de corpus_012)
  ∧ scores "foo" (index_de corpus_012) = [0.12%float]
  ∧ moteur corpus_012 (index_de corpus_012) "foo" "t"
    = Ok (reponse_defaut "foo" "t")
  ∧ vecteurs_chunks corpus_01201 = Ok (index_de corpus_01201)
  ∧ scores "foo" (index_de corpus_01201) = [0.1201%float]
  ∧ ∃ r, moteur corpus_01201 (index_de corpus_01201) "foo" "t" = Ok r
         ∧ chunk_id r = 1 ∧ source_title r = "A"
         ∧ r ≠ reponse_defaut "foo" "t".
Proof.
  split; [vm_compute; reflexivity|]. split; [vm_compute; reflexivity|].
  split.
  { apply (C1_seuil_acceptation corpus_012 (index_de corpus_012) "foo" "t");
      [vm_compute; reflexivity|].
    intros s Hs.
    change (scores "foo" (index_de corpus_012)) with [0.12%float] in Hs.
    apply list_elem_of_singleton in Hs. now subst s. }
  split; [vm_compute; reflexivity|].
  assert (E : scores "foo" (index_de corpus_01201) = [0.1201%float])
    by (vm_compute; reflexivity).
  split; [exact E|].
  destruct (C1_seuil_acceptation corpus_01201 (index_de corpus_01201) "foo" "t"
              ltac:(vm_compute; reflexivity)) as (_ & _ & _ & H).
  destruct H as (c & s & t & Hc & Ht & _ & _ & Hr).
  { rewrite E. apply list_elem_of_here. }
  unfold corpus_01201 in Hc. apply list_elem_of_singleton in Hc. subst c.
  specialize (Hr 1 "https://x" "A" eq_refl eq_refl eq_refl).
  eexists. split; [exact Hr|]. split; [reflexivity|]. split; [reflexivity|].
  intros Habs. apply (f_equal chunk_id) in Habs. discriminate Habs.
Defined.

(** The two boundary cases of the threshold, end to end: a best score of
    exactly 0.12 gives the fallback, a best score of 0.1201 gives the
    chunk. *)
Example seuil_exact_012 :
  scores "foo" (index_de corpus_012) = [0.12%float]
  ∧ moteur corpus_012 (index_de corpus_012) "foo" "t"
    = Ok (reponse_defaut "foo" "t").
Proof. split; vm_compute; reflexivity. Qed.

Example seuil_01201 :
  scores "foo" (index_de corpus_01201) = [0.1201%float]
  ∧ ∃ r, moteur corpus_01201 (index_de corpus_01201) "foo" "t" = Ok r
         ∧ chunk_id r = 1 ∧ confiance r = 0.12%float.
Proof.
  split; [vm_compute; reflexivity|].
  eexists. split; [vm_compute; reflexivity|]. split; reflexivity.
Qed.

(** C6 — The best entry is tracked with a strict [>] over the entries in
    corpus order: at the end of the loop no score exceeds the tracked
    maximum, and the tracked chunk stands at an index [i] that has this
    maximum as its score while no earlier entry reaches it. So among the
    entries that attain the maximal score the first one is kept, an earlier
    entry with the same term vector as entry [i] cannot exist, and when the
    maximum is above the threshold the query returns that first chunk: the
    response carries its identifier, its address, its title and its shaped
    text, with the maximum, rounded, as confidence. *)
Theorem C6_premier_en_cas_d_egalite
    (chunks : list Chunk) (vecteurs : list Counter) (q now : string) :
  vecteurs_chunks chunks = Ok vecteurs →
  let sc := scores q vecteurs in
  ∃ ms mc,
    boucle chunks q (nettoyer_et_vectoriser q) 0 vecteurs (0%float, None)
    = Ok (ms, mc)
    ∧ (∀ j s', sc !! j = Some s' → (ms <? s')%float = false)
    ∧ (∀ c, mc = Some c →
         ∃ i, chunks !! i = Some c ∧ sc !! i = Some ms
           ∧ (∀ j s', (j < i)%nat → sc !! j = Some s' → (ms <=? s')%float = false)
           ∧ (∀ j s', (j < i)%nat → sc !! j = Some s' → s' ≠ ms)
           ∧ (∀ j, (j < i)%nat → vecteurs !! j ≠ vecteurs !! i))
    ∧ ((seuil <? ms)%float = true →
         ∃ c t, mc = Some c ∧ k_text c = Some t
              ∧ moteur chunks vecteurs q now = reponse_trouvee q ms (Some c) now
              ∧ (∀ id url titre,
                   k_chunk_id c = Some id → k_source_url c = Some url →
                   k_source_title c = Some titre →
                   moteur chunks vecteurs q now
                   = Ok {| question := q; contexte := tronquer (strip t);
                           confiance := round3 ms; chunk_id := id;
                           source_url := url; source_title := titre;
                           timestamp := now |})).
Proof.
  intros Hv sc. pose proof (vecteurs_chunks_length _ _ Hv) as Hl.
  assert (Hlen : (length vecteurs ≤ length chunks)%nat) by lia.
  destruct (moteur_boucle chunks q vecteurs now Hlen)
    as (ms & mc & Hb & (Hnn & Hpos & Hmax & Hbest) & Hm).
  simpl in Hnn, Hpos, Hmax, Hbest. fold sc in Hmax, Hbest.
  exists ms, mc. split; [exact Hb|]. split; [|split].
  - intros j s' Hs'. apply Hmax. eapply list_elem_of_lookup_2; eauto.
  - intros c ->. destruct Hbest as (i & Hc & Hs & Hfirst).
    assert (Hneq : ∀ j s', (j < i)%nat → sc !! j = Some s' → s' ≠ ms).
    { intros j s' Hj Hs' ->. pose proof (Hfirst j ms Hj Hs') as Hf.
      rewrite leb_refl in Hf; [discriminate | easy]. }
    exists i. repeat (split; [easy|]).
    intros j Hj Heq. unfold sc, scores in Hs, Hneq.
    rewrite list_lookup_fmap in Hs.
    destruct (vecteurs !! i) as [v|] eqn:Hvi; [|discriminate].
    simpl in Hs. injection Hs as Hs.
    apply (Hneq j ms Hj); [|reflexivity].
    now rewrite list_lookup_fmap, Heq, <- Hs.
  - intros Hs. rewrite Hs in Hm. destruct mc as [c|].
    + destruct Hbest as (i & Hc & _).
      destruct (vecteurs_chunks_lookup _ _ _ _ Hv Hc) as (t & Ht & _).
      exists c, t. split; [reflexivity|]. split; [exact Ht|]. split; [exact Hm|].
      intros id url titre Hid Hurl Htitre. rewrite Hm.
      now apply reponse_trouvee_champs.
    + subst ms. rewrite seuil_positif in Hs. discriminate.
Qed.

Lemma C6_premier_en_cas_d_egalite_temoin :
  vecteurs_chunks corpus_jumeaux = Ok (index_de corpus_jumeaux)
  ∧ index_de corpus_jumeaux !! 0%nat = index_de corpus_jumeaux !! 1%nat
  ∧ (∃ ms, boucle corpus_jumeaux "linux serveur"
             (nettoyer_et_vectoriser "linux serveur") 0
             (index_de corpus_jumeaux) (0%float, None)
           = Ok (ms, corpus_jumeaux !! 0%nat))
  ∧ ∃ r, moteur corpus_jumeaux (index_de corpus_jumeaux) "linux serveur" "t"
         = Ok r
         ∧ chunk_id r = 1 ∧ contexte r = "serveur debian".
Proof.
  split; [vm_compute; reflexivity|]. split; [vm_compute; reflexivity|].
  destruct (C6_premier_en_cas_d_egalite corpus_jumeaux (index_de corpus_jumeaux)
              "linux serveur" "t")
    as (ms & mc & Hb & _ & Hbest & Hm); [vm_compute; reflexivity|].
  assert (E : ms = 0.67999999999999994%float).
  { assert (Hb' : boucle corpus_jumeaux "linux serveur"
              (nettoyer_et_vectoriser "linux serveur") 0
              (index_de corpus_jumeaux) (0%float, None)
            = Ok (0.67999999999999994%float, corpus_jumeaux !! 0%nat))
      by (vm_compute; reflexivity).
    rewrite Hb in Hb'. now injection Hb'. }
  destruct Hm as (c & t & -> & Ht & _ & Hr); [now rewrite E|].
  assert (Hc0 : corpus_jumeaux !! 0%nat = Some c).
  { destruct (Hbest c eq_refl) as (i & Hc & _ & _ & _ & Hvec).
    rewrite <- Hc. f_equal.
    destruct i as [|[|i]]; [reflexivity | | ].
    - exfalso. apply (Hvec 0%nat); [lia | vm_compute; reflexivity].
    - apply lookup_lt_Some in Hc. simpl in Hc. lia. }
  split; [exists ms; now rewrite Hb, Hc0|].
  injection Hc0 as <-. injection Ht as <-.
  specialize (Hr 1 "https://x" "A" eq_refl eq_refl eq_refl).
  eexists. split; [exact Hr|]. split; reflexivity.
Defined.

(** C10 — For every question and every corpus, the loop ends without
    failure, and whenever the tracked maximum score is strictly greater than
    0.12 the tracked best chunk is a chunk of the corpus (never the initial
    [None]): the query never fails on a [None] best chunk, and with complete
    chunk records it returns an answer. *)
Theorem C10_meilleur_chunk_defini
    (chunks : list Chunk) (vecteurs : list Counter) (q now : string) :
  vecteurs_chunks chunks = Ok vecteurs →
  (∃ ms mc,
     boucle chunks q (nettoyer_et_vectoriser q) 0 vecteurs (0%float, None)
     = Ok (ms, mc)
     ∧ ((0.12 <? ms)%float = true → ∃ c, mc = Some c ∧ c ∈ chunks))
  ∧ moteur chunks vecteurs q now ≠ Leve TypeError
  ∧ moteur chunks vecteurs q now ≠ Leve IndexError
  ∧ (Forall complet chunks → ∃ r, moteur chunks vecteurs q now = Ok r).
Proof.
  intros Hv. apply vecteurs_chunks_length in Hv.
  assert (Hlen : (length vecteurs ≤ length chunks)%nat) by lia.
  destruct (moteur_cas chunks vecteurs q now Hlen)
    as [(i & c & s & Hc & Hs & Hlt & Hmax & Hfirst & Hb & Hm)
       | (Hnone & (ms & mc & Hb & Hms) & Hm)].
  - assert (Hin : c ∈ chunks) by (eapply list_elem_of_lookup_2; eauto).
    split; [exists s, (Some c); split; [easy | intros _; now exists c]|].
    rewrite Hm. split; [apply reponse_trouvee_Some|]. split.
    + unfold reponse_trouvee. simpl.
      destruct (k_text c); simpl; [|discriminate].
      destruct (k_chunk_id c); simpl; [|discriminate].
      destruct (k_source_url c); simpl; [|discriminate].
      destruct (k_source_title c); simpl; discriminate.
    + intros Hall. rewrite <- Hm. now apply moteur_complet.
  - split.
    + exists ms, mc. split; [easy|]. change seuil with 0.12%float in Hms.
      rewrite Hms. discriminate.
    + rewrite Hm. split; [discriminate|]. split; [discriminate|]. eauto.
Qed.

Lemma C10_meilleur_chunk_defini_temoin :
  vecteurs_chunks corpus_nird = Ok (index_de corpus_nird)
  ∧ moteur corpus_nird (index_de corpus_nird)
      "Comment faire du reconditionnement ?" "t" ≠ Leve TypeError.
Proof.
  split; [vm_compute; reflexivity|].
  apply (C10_meilleur_chunk_defini corpus_nird (index_de corpus_nird)
           "Comment faire du reconditionnement ?" "t").
  vm_compute; reflexivity.
Defined.

(** ** Questions without terms *)

Section QuestionSansTerme.

Lemma isspace_non_mot (c : ascii) : isspace c = true → is_word c = false.
Proof. destruct c as [[] [] [] [] [] [] [] []]; vm_compute; congruence. Qed.

Lemma isspace_lower_char (c : ascii) : isspace (lower_char c) = isspace c.
Proof. destruct c as [[] [] [] [] [] [] [] []]; reflexivity. Qed.

Lemma mots_de_vide (acc : string) : mots_de acc "" = clore acc.
Proof. reflexivity. Qed.

(** Stripping a text removes none of its tokens. *)
Lemma mots_de_lstrip (s : string) : mots_de "" (lstrip s) = mots_de "" s.
Proof.
  induction s as [|c s IH]; simpl; [reflexivity|].
  destruct (isspace c) eqn:Hc; [|reflexivity].
  now rewrite (isspace_non_mot c Hc).
Qed.

Lemma mots_de_rstrip (s acc : string) : mots_de acc (rstrip s) = mots_de acc s.
Proof.
  revert acc. induction s as [|c s IH]; intros acc; [reflexivity|].
  simpl. destruct (rstrip s) as [|d r] eqn:Hr.
  - destruct (isspace c) eqn:Hc.
    + rewrite (isspace_non_mot c Hc), <- IH. simpl. now rewrite app_nil_r.
    + simpl. destruct (is_word c); now rewrite <- IH.
  - simpl. destruct (is_word c); now rewrite <- IH.
Qed.

Lemma findall_w_strip (s : string) : findall_w (strip s) = findall_w s.
Proof. unfold findall_w, strip. now rewrite mots_de_rstrip, mots_de_lstrip. Qed.

Lemma lower_lstrip (s : string) : lower (lstrip s) = lstrip (lower s).
Proof.
  induction s as [|c s IH]; simpl; [reflexivity|].
  rewrite isspace_lower_char. now destruct (isspace c).
Qed.

Lemma lower_rstrip (s : string) : lower (rstrip s) = rstrip (lower s).
Proof.
  induction s as [|c s IH]; simpl; [reflexivity|].
  rewrite <- IH, isspace_lower_char.
  destruct (rstrip s); simpl; [now destruct (isspace c) | reflexivity].
Qed.

Lemma lower_strip (s : string) : lower (strip s) = strip (lower s).
Proof. unfold strip. now rewrite lower_rstrip, lower_lstrip. Qed.

(** Every key word is a run of at least four word characters, and no stop
    word contains one. *)
Lemma mots_forts_table :
  forallb (λ k, tous is_word k && (4 <=? String.length k)%nat
                && forallb (λ w, negb (contient k w)) liste_stopwords)
          mots_forts = true.
Proof. vm_compute. reflexivity. Qed.

Lemma mots_forts_faits (k : string) :
  k ∈ mots_forts →
  est_mot k ∧ (4 ≤ String.length k)%nat
  ∧ ∀ w, w ∈ stopwords → contient k w = false.
Proof.
  intros Hk%list_elem_of_In. pose proof mots_forts_table as H.
  rewrite forallb_forall in H. apply H in Hk.
  apply andb_true_iff in Hk as [[Hm Hl]%andb_true_iff Hs].
  split; [easy|]. split; [now apply Nat.leb_le|].
  intros w Hw%elem_of_stopwords%list_elem_of_In. rewrite forallb_forall in Hs.
  apply Hs in Hw. now apply negb_true_iff.
Qed.

Lemma tous_filtres_vecteur (q : string) :
  tous_filtres q → nettoyer_et_vectoriser q = ∅.
Proof.
  unfold tous_filtres, nettoyer_et_vectoriser. intros H.
  induction H as [|m l Hm Hl IH]; [reflexivity|].
  rewrite filter_cons. destruct (decide _) as [[Hs Hn]|]; [|exact IH].
  destruct Hm; [easy | lia].
Qed.

(** A question whose tokens are all dropped contains no key word. *)
Lemma tous_filtres_sans_mot_fort (q k : string) :
  tous_filtres q → k ∈ mots_forts → contient k (lower q) = false.
Proof.
  intros Hq Hk. destruct (mots_forts_faits k Hk) as (Hmot & Hlen & Hstop).
  apply not_true_is_false. intros Hc.
  destruct (findall_w_contient k (lower q)) as (t & Ht & Hkt); [easy | | easy |].
  { intros ->. simpl in Hlen. lia. }
  unfold tous_filtres in Hq. rewrite Forall_forall in Hq.
  destruct (Hq t Ht) as [Hs|Hl].
  - rewrite (Hstop t Hs) in Hkt. discriminate.
  - apply contient_length in Hkt. lia.
Qed.

Lemma bonus_sans_mot_fort (q : string) (s : float) :
  (∀ k, k ∈ mots_forts → contient k (lower q) = false) → bonus q s = s.
Proof.
  unfold bonus. generalize mots_forts. intros l. revert s.
  induction l as [|k l IH]; intros s H; simpl; [reflexivity|].
  rewrite (H k) by now left. apply IH. intros k' Hk'. apply H. now right.
Qed.

Lemma cosine_similarity_vide (v : Counter) : cosine_similarity ∅ v = 0%float.
Proof.
  unfold cosine_similarity. rewrite decide_True; [reflexivity|].
  rewrite dom_empty_L. apply intersection_empty_l_L.
Qed.

(** With every score at 0.0 the loop keeps its initial state, whatever the
    corpus. *)
Lemma boucle_nulle (chunks : list Chunk) (q : string) (vec_q : Counter)
    (vecs : list Counter) (i : nat) :
  (∀ v, score_de q vec_q v = 0%float) →
  boucle chunks q vec_q i vecs (0%float, None) = Ok (0%float, None).
Proof.
  intros H. revert i. induction vecs as [|v vecs IH]; intros i; simpl; [reflexivity|].
  unfold etape. rewrite H. simpl. apply IH.
Qed.

End QuestionSansTerme.

(** C7 — For every question whose tokens are all stop words or of length at
    most 2 (the empty string included), vectorization yields the empty term
    vector, the similarity with every chunk vector is 0.0 (and no key word
    adds a bonus), and the query answers with the fallback whatever the
    corpus and the index. At the route, the blank questions among them are
    rejected with status 400 before the engine runs, and the others get the
    fallback. *)
Theorem C7_question_sans_terme
    (chunks : list Chunk) (vecteurs : list Counter) (q now : string) :
  Forall (λ m, m ∈ stopwords ∨ (String.length m ≤ 2)%nat) (findall_w (lower q)) →
  nettoyer_et_vectoriser q = ∅
  ∧ (∀ v, cosine_similarity (nettoyer_et_vectoriser q) v = 0%float)
  ∧ scores q vecteurs = (λ _, 0%float) <$> vecteurs
  ∧ moteur chunks vecteurs q now = Ok (reponse_defaut q now)
  ∧ chercher_dans_nird chunks vecteurs q now
    = if String.eqb (strip q) ""
      then Leve (HTTPException 400 "Question vide")
      else Ok (reponse_defaut (strip q) now).
Proof.
  intros Hq.
  assert (Hgen : ∀ q', tous_filtres q' →
            nettoyer_et_vectoriser q' = ∅
            ∧ (∀ v, score_de q' (nettoyer_et_vectoriser q') v = 0%float)
            ∧ moteur chunks vecteurs q' now = Ok (reponse_defaut q' now)).
  { intros q' Hq'. pose proof (tous_filtres_vecteur q' Hq') as Hvide.
    assert (Hs : ∀ v, score_de q' (nettoyer_et_vectoriser q') v = 0%float).
    { intros v. unfold score_de. rewrite Hvide, cosine_similarity_vide.
      apply bonus_sans_mot_fort. intros k. now apply tous_filtres_sans_mot_fort. }
    split; [easy|]. split; [easy|].
    unfold moteur. now rewrite (boucle_nulle chunks q' _ vecteurs 0%nat Hs). }
  destruct (Hgen q Hq) as (Hvide & Hs & Hm).
  split; [easy|]. split; [intros v; rewrite Hvide; apply cosine_similarity_vide|].
  split; [unfold scores; apply list_fmap_ext; intros ? v _; apply Hs|].
  split; [easy|].
  unfold chercher_dans_nird. destruct (String.eqb (strip q) ""); [reflexivity|].
  apply Hgen. unfold tous_filtres. now rewrite lower_strip, findall_w_strip.
Qed.

Lemma C7_question_sans_terme_temoin :
  Forall (λ m, m ∈ stopwords ∨ (String.length m ≤ 2)%nat)
         (findall_w (lower "Qui est-ce ?"))
  ∧ moteur corpus_nird (index_de corpus_nird) "Qui est-ce ?" "t"
    = Ok (reponse_defaut "Qui est-ce ?" "t").
Proof.
  assert (H : Forall (λ m, m ∈ stopwords ∨ (String.length m ≤ 2)%nat)
                     (findall_w (lower "Qui est-ce ?"))).
  { apply (bool_decide_unpack _). vm_compute. reflexivity. }
  split; [exact H|].
  apply (C7_question_sans_terme corpus_nird (index_de corpus_nird) "Qui est-ce ?" "t" H).
Defined.

(** ** The terms of a vector *)

Lemma lower_minuscule (s : string) : est_minuscule (lower s).
Proof. apply lower_idem. Qed.

(** The keys of [nettoyer_et_vectoriser texte] are the kept tokens of the
    lowercased text, each with its number of occurrences. *)
Lemma nettoyer_et_vectoriser_lookup (texte t : string) (n : Z) :
  nettoyer_et_vectoriser texte !! t = Some n →
  t ∈ findall_w (lower texte) ∧ (t ∉ stopwords) ∧ (2 < String.length t)%nat
  ∧ n = Z.of_nat (occurrences t
          (filter (λ m, (m ∉ stopwords) ∧ (2 < String.length m)%nat)
                  (findall_w (lower texte))))
  ∧ 1 ≤ n.
Proof.
  unfold nettoyer_et_vectoriser. rewrite compter_lookup.
  destruct (decide _) as [Hin|]; [|discriminate].
  intros [= <-]. pose proof Hin as Hocc. apply occurrences_pos in Hocc.
  apply list_elem_of_filter in Hin as [[Hs Hl] Hin].
  repeat split; try easy. lia.
Qed.

(** C9 (as the code has it) — Every term of the vector of a text has a
    count of at least 1, is lowercase, is a run of word characters (letters,
    digits and the underscore that [\w] admits) of length strictly greater
    than 2, and is not a stop word. *)
Theorem C9_termes_du_vecteur (texte t : string) (n : Z) :
  nettoyer_et_vectoriser texte !! t = Some n →
  1 ≤ n ∧ est_minuscule t ∧ est_mot t ∧ (2 < String.length t)%nat
  ∧ (t ∉ stopwords).
Proof.
  intros (Hin & Hs & Hl & _ & Hn)%nettoyer_et_vectoriser_lookup.
  split; [easy|]. split.
  - destruct (findall_w_facteur _ _ Hin) as (a & b & Hab).
    pose proof (lower_minuscule texte) as Hm. rewrite Hab in Hm.
    apply est_minuscule_app in Hm as [_ Hm].
    now apply est_minuscule_app in Hm as [Hm _].
  - split; [now apply (findall_w_mot _ _ Hin)|]. easy.
Qed.

Lemma C9_termes_du_vecteur_temoin :
  nettoyer_et_vectoriser "Linux, linux et chunk_id !" !! "linux" = Some 2
  ∧ est_mot "linux" ∧ est_minuscule "linux".
Proof.
  assert (H : nettoyer_et_vectoriser "Linux, linux et chunk_id !" !! "linux" = Some 2)
    by (vm_compute; reflexivity).
  split; [exact H|].
  destruct (C9_termes_du_vecteur _ _ _ H) as (_ & Hm & Hw & _). now split.
Defined.

(** C9 as stated fails: the token "chunk_id" is a term, and its underscore
    is not alphanumeric. *)
Lemma C9_contre_exemple :
  ¬ (∀ (texte t : string) (n : Z),
       nettoyer_et_vectoriser texte !! t = Some n →
       1 ≤ n ∧ est_minuscule t ∧ est_alphanumerique t
       ∧ (2 < String.length t)%nat ∧ (t ∉ stopwords)).
Proof.
  intros H.
  destruct (H "le chunk_id" "chunk_id" 1) as (_ & _ & Ha & _);
    [vm_compute; reflexivity|].
  vm_compute in Ha. discriminate.
Qed.

(** ** The shaping of the answer *)

Lemma tronquer_court (t : string) :
  (String.length t ≤ 600)%nat → tronquer t = t.
Proof.
  intros H. unfold tronquer.
  destruct (600 <? String.length t)%nat eqn:E; [|reflexivity].
  apply Nat.ltb_lt in E. lia.
Qed.

Lemma tronquer_espace (t u w : string) :
  (600 < String.length t)%nat → prendre 600 t = u +:+ " " +:+ w →
  sans_espace w → tronquer t = u +:+ "...".
Proof.
  intros H Hp Hw. unfold tronquer, rsplit_espace_0.
  apply Nat.ltb_lt in H. rewrite H, Hp.
  now rewrite avant_dernier_espace_app.
Qed.

Lemma tronquer_sans_espace (t : string) :
  (600 < String.length t)%nat → sans_espace (prendre 600 t) →
  tronquer t = prendre 600 t +:+ "...".
Proof.
  intros H Hp. unfold tronquer, rsplit_espace_0.
  apply Nat.ltb_lt in H. rewrite H.
  apply avant_dernier_espace_None in Hp. now rewrite Hp.
Qed.

(** C5 (as the code has it) — The context of an answer built from a chunk
    is the chunk text stripped of surrounding whitespace; when that has at
    most 600 characters it is returned as it is, and when it has more and a
    space character (U+0020) stands among its first 600 characters, it is
    cut to what stands before the last such space and "..." is appended:
    the cut then falls just before a space. In particular a stripped text
    of 650 characters with a space at position 590 and none at positions 591
    to 599 gives its first 590 characters and "...". *)
Theorem C5_troncature (q now : string) (s : float) (c : Chunk) :
  complet c →
  ∃ t r, k_text c = Some t ∧ reponse_trouvee q s (Some c) now = Ok r
    ∧ contexte r = tronquer (strip t)
    ∧ ((String.length (strip t) ≤ 600)%nat → contexte r = strip t)
    ∧ ((600 < String.length (strip t))%nat →
         ∀ u w, prendre 600 (strip t) = u +:+ " " +:+ w → sans_espace w →
                contexte r = u +:+ "..."
                ∧ ∃ v, strip t = u +:+ " " +:+ v)
    ∧ (∀ u w v, strip t = u +:+ " " +:+ w +:+ v →
                String.length u = 590%nat → String.length w = 9%nat →
                String.length v = 50%nat → sans_espace w →
                contexte r = u +:+ "...").
Proof.
  intros Hc.
  destruct (reponse_trouvee_complet q now s c Hc)
    as (id & t & url & titre & _ & Ht & _ & _ & Hr).
  eexists t, _. split; [easy|]. split; [exact Hr|]. cbn [contexte].
  split; [reflexivity|]. split; [apply tronquer_court|]. split.
  - intros Hlen u w Hp Hw. split; [now apply (tronquer_espace _ u w)|].
    destruct (prendre_prefixe (strip t) 600) as [r' Hr'].
    exists (w +:+ r'). rewrite Hr' at 1. rewrite Hp.
    now rewrite !app_assoc_s.
  - intros u w v Ht' Hu Hw Hv Hsw.
    apply (tronquer_espace _ u w); [| |easy].
    + rewrite Ht', !longueur_app. simpl. lia.
    + rewrite Ht'. replace 600%nat with (String.length u + 10)%nat by lia.
      rewrite prendre_app. f_equal.
      change (prendre 10 (" " +:+ w +:+ v))
        with (String " "%char (prendre 9 (w +:+ v))).
      rewrite <- Hw, <- (Nat.add_0_r (String.length w)), prendre_app.
      destruct v; simpl; now rewrite app_vide_d.
Qed.

Lemma C5_troncature_temoin :
  complet (chunk_de 1 (repeter 59 "numerique " +:+ repeter 60 "libre"))
  ∧ ∃ r, reponse_trouvee "q" 1 (Some (chunk_de 1 (repeter 59 "numerique "
                                                   +:+ repeter 60 "libre"))) "t"
         = Ok r
         ∧ contexte r = repeter 58 "numerique " +:+ "numerique...".
Proof.
  assert (Hc : complet (chunk_de 1 (repeter 59 "numerique " +:+ repeter 60 "libre"))).
  { repeat split; eexists; reflexivity. }
  split; [exact Hc|].
  destruct (C5_troncature "q" "t" 1 _ Hc) as (t & r & Ht & Hr & Hctx & _).
  exists r. split; [exact Hr|]. rewrite Hctx.
  injection Ht as <-. vm_compute. reflexivity.
Defined.

(** C5 as stated fails: a stripped text of 650 characters whose only
    whitespace is a line feed at position 590 keeps its first 600
    characters, so the word that follows the line feed is cut; and a short
    text with surrounding whitespace is not returned unchanged. *)
Lemma C5_contre_exemple :
  let t := repeter 590 "a" +:+ car 10 +:+ repeter 59 "b" in
  String.length t = 650%nat
  ∧ isspace (ascii_of_N 10) = true
  ∧ (∃ r, reponse_trouvee "q" 1 (Some (chunk_de 1 t)) "t" = Ok r
          ∧ contexte r = repeter 590 "a" +:+ car 10 +:+ repeter 9 "b" +:+ "..."
          ∧ contexte r ≠ prendre 590 t +:+ "...")
  ∧ (∃ r, reponse_trouvee "q" 1 (Some (chunk_de 1 " libre ")) "t" = Ok r
          ∧ contexte r = "libre").
Proof.
  split; [vm_compute; reflexivity|]. split; [reflexivity|]. split.
  - eexists. split; [reflexivity|]. split; [vm_compute; reflexivity|].
    vm_compute. discriminate.
  - eexists. split; [reflexivity|]. vm_compute. reflexivity.
Qed.

(** ** Chunk records with absent keys *)

Lemma vecteurs_chunks_Ok (chunks : list Chunk) :
  Forall (λ c, is_Some (k_text c)) chunks →
  vecteurs_chunks chunks
  = Ok ((λ c, nettoyer_et_vectoriser (default "" (k_text c))) <$> chunks).
Proof.
  induction 1 as [|c chunks [t Ht] _ IH]; simpl; [reflexivity|].
  now rewrite Ht, IH.
Qed.

Lemma vecteurs_chunks_KeyError (chunks : list Chunk) :
  ¬ Forall (λ c, is_Some (k_text c)) chunks →
  vecteurs_chunks chunks = Leve (KeyError "text").
Proof.
  induction chunks as [|c chunks IH]; intros H; simpl.
  - destruct H. constructor.
  - destruct (k_text c) as [t|] eqn:Ht; simpl; [|reflexivity].
    rewrite IH; [reflexivity|]. intros Hall. apply H. constructor; [|easy].
    rewrite Ht. eauto.
Qed.

(** C3 (as the code has it) — An absent key is not replaced by an empty
    string. The index is built exactly when every chunk record has its
    [text] (it then holds the vector of each text), and a record without
    [text] makes its construction fail with [KeyError('text')]. The answer
    built from a best chunk fails with the [KeyError] of the first absent key
    among [text], [chunk_id], [source_url], [source_title], and carries the
    record's own values when the four are present. With complete records
    neither the construction of the index nor the query fails. *)
Theorem C3_cles_absentes :
  (∀ chunks : list Chunk,
     (Forall (λ c, is_Some (k_text c)) chunks →
        vecteurs_chunks chunks
        = Ok ((λ c, nettoyer_et_vectoriser (default "" (k_text c))) <$> chunks))
     ∧ (¬ Forall (λ c, is_Some (k_text c)) chunks →
        vecteurs_chunks chunks = Leve (KeyError "text")))
  ∧ (∀ (q now : string) (s : float) (c : Chunk),
       reponse_trouvee q s (Some c) now
       = match k_text c, k_chunk_id c, k_source_url c, k_source_title c with
         | None, _, _, _ => Leve (KeyError "text")
         | Some _, None, _, _ => Leve (KeyError "chunk_id")
         | Some _, Some _, None, _ => Leve (KeyError "source_url")
         | Some _, Some _, Some _, None => Leve (KeyError "source_title")
         | Some t, Some id, Some url, Some titre =>
             Ok {| question := q; contexte := tronquer (strip t);
                   confiance := round3 s; chunk_id := id;
                   source_url := url; source_title := titre;
                   timestamp := now |}
         end)
  ∧ (∀ (chunks : list Chunk) (q now : string),
       Forall complet chunks →
       ∃ vecteurs r, vecteurs_chunks chunks = Ok vecteurs
                     ∧ moteur chunks vecteurs q now = Ok r).
Proof.
  split; [|split].
  - intros chunks. split; [apply vecteurs_chunks_Ok | apply vecteurs_chunks_KeyError].
  - intros q now s c. unfold reponse_trouvee. simpl.
    destruct (k_text c); simpl; [|reflexivity].
    destruct (k_chunk_id c); simpl; [|reflexivity].
    destruct (k_source_url c); simpl; [|reflexivity].
    destruct (k_source_title c); reflexivity.
  - intros chunks q now Hall.
    assert (Ht : Forall (λ c, is_Some (k_text c)) chunks).
    { eapply Forall_impl; [exact Hall | apply complet_text]. }
    pose proof (vecteurs_chunks_Ok chunks Ht) as Hv.
    destruct (moteur_complet chunks _ q now
                (Nat.eq_le_incl _ _ (vecteurs_chunks_length _ _ Hv)) Hall) as [r Hr].
    eexists _, r. split; [exact Hv | exact Hr].
Qed.

(** C3 as stated fails: a record without [text] stops the construction of
    the index, and a best chunk without [source_url] stops the query. *)
Lemma C3_contre_exemple :
  vecteurs_chunks
    [ {| k_chunk_id := Some 1; k_text := None;
         k_source_url := Some "https://x"; k_source_title := Some "A" |} ]
  = Leve (KeyError "text")
  ∧ (let c := {| k_chunk_id := Some 1; k_text := Some "Linux";
                 k_source_url := None; k_source_title := None |} in
     vecteurs_chunks [c] = Ok (index_de [c])
     ∧ moteur [c] (index_de [c]) "linux" "t" = Leve (KeyError "source_url")).
Proof.
  split; [reflexivity|]. split; vm_compute; reflexivity.
Qed.

(** ** The confidence *)

(** [arrondi_pair a b] is an integer nearest to [a / b]. *)
Lemma arrondi_pair_proche (a b : Z) :
  0 < b → 2 * Z.abs (a - arrondi_pair a b * b) ≤ b.
Proof.
  intros Hb. unfold arrondi_pair.
  pose proof (Z.div_mod a b ltac:(lia)) as Hd.
  pose proof (Z.mod_pos_bound a b Hb) as Hm.
  destruct (Z.ltb_spec (2 * (a mod b)) b); [nia|].
  destruct (Z.ltb_spec b (2 * (a mod b))); [nia|].
  destruct (Z.even (a / b)); nia.
Qed.

(** C4 (as the code has it) — The confidence of an answer is the winning
    score rounded to 3 decimal places, where the winning score is above
    0.12 and is the similarity plus the key-word bonus, or it is the 0.0 of
    the fallback. The bonus is part of the score, so the confidence is not
    confined to the range 0.0 to 1.0. *)
Theorem C4_confiance
    (chunks : list Chunk) (vecteurs : list Counter) (q now : string)
    (r : ReponseNIRD) :
  vecteurs_chunks chunks = Ok vecteurs →
  moteur chunks vecteurs q now = Ok r →
  (r = reponse_defaut q now ∧ confiance r = 0%float)
  ∨ (∃ i v s, vecteurs !! i = Some v
       ∧ s = bonus q (cosine_similarity (nettoyer_et_vectoriser q) v)
       ∧ (∀ s', s' ∈ scores q vecteurs → (s <? s')%float = false)
       ∧ (0.12 <? s)%float = true
       ∧ confiance r = round3 s).
Proof.
  intros Hv Hr. apply vecteurs_chunks_length in Hv.
  assert (Hlen : (length vecteurs ≤ length chunks)%nat) by lia.
  destruct (moteur_cas chunks vecteurs q now Hlen)
    as [(i & c & s & Hc & Hs & Hlt & Hmax & _ & _ & Hm) | (_ & _ & Hm)].
  - right. unfold scores in Hs. rewrite list_lookup_fmap in Hs.
    destruct (vecteurs !! i) as [v|] eqn:Hvi; [|discriminate].
    injection Hs as Hs. exists i, v, s. split; [easy|]. split; [easy|].
    split; [easy|]. split; [easy|].
    rewrite Hm in Hr. unfold reponse_trouvee in Hr. simpl in Hr.
    destruct (k_text c); simpl in Hr; [|discriminate].
    destruct (k_chunk_id c); simpl in Hr; [|discriminate].
    destruct (k_source_url c); simpl in Hr; [|discriminate].
    destruct (k_source_title c); simpl in Hr; [|discriminate].
    now injection Hr as <-.
  - left. rewrite Hm in Hr. now injection Hr as <-.
Qed.

Lemma C4_confiance_temoin :
  vecteurs_chunks corpus_nird = Ok (index_de corpus_nird)
  ∧ ∃ r, moteur corpus_nird (index_de corpus_nird)
           "Comment faire du reconditionnement ?" "t" = Ok r
         ∧ chunk_id r = 1 ∧ confiance r = 0.496%float
         ∧ ∃ s, (0.12 <? s)%float = true ∧ confiance r = round3 s.
Proof.
  assert (Hv : vecteurs_chunks corpus_nird = Ok (index_de corpus_nird))
    by (vm_compute; reflexivity).
  split; [exact Hv|]. eexists. split; [vm_compute; reflexivity|].
  split; [reflexivity|]. split; [reflexivity|].
  destruct (C4_confiance corpus_nird (index_de corpus_nird)
              "Comment faire du reconditionnement ?" "t" _ Hv
              ltac:(vm_compute; reflexivity))
    as [[_ H0] | (i & v & s & _ & _ & _ & Hlt & Hc)].
  - vm_compute in H0. discriminate.
  - exists s. split; [exact Hlt | exact Hc].
Defined.

(** C4 as stated fails: the question "linux" against the one chunk "Linux"
    has similarity 1.0 and receives the bonus, so the confidence is 1.18. *)
Lemma C4_contre_exemple :
  vecteurs_chunks [chunk_de 1 "Linux"] = Ok (index_de [chunk_de 1 "Linux"])
  ∧ ∃ r, moteur [chunk_de 1 "Linux"] (index_de [chunk_de 1 "Linux"]) "linux" "t"
         = Ok r
         ∧ confiance r = 1.18%float
         ∧ (confiance r <=? 1)%float = false.
Proof.
  split; [vm_compute; reflexivity|].
  eexists. split; [vm_compute; reflexivity|]. split; reflexivity.
Qed.

(** ** The cosine similarity *)

Section Cosinus.

Lemma somme_cons (x : Z) (l : list Z) : somme (x :: l) = x + somme l.
Proof. reflexivity. Qed.

Lemma somme_Permutation (l k : list Z) : l ≡ₚ k → somme l = somme k.
Proof. induction 1; rewrite ?somme_cons; lia. Qed.

Lemma cauchy_schwarz_pas (x y p a b : Z) :
  0 ≤ a → 0 ≤ b → p * p ≤ a * b →
  (x * y + p) * (x * y + p) ≤ (x * x + a) * (y * y + b).
Proof.
  intros Ha Hb IH.
  pose proof (Z.square_nonneg x) as Hx. pose proof (Z.square_nonneg y) as Hy.
  assert (H1 : 0 ≤ x * x * b + y * y * a) by nia.
  assert (H0 : 0 ≤ (x * x) * (y * y)) by nia.
  pose proof (Z.mul_le_mono_nonneg_l _ _ (4 * ((x * x) * (y * y))) ltac:(lia) IH) as H3.
  pose proof (Z.square_nonneg (x * x * b - y * y * a)) as H4.
  assert (H2 : (2 * (x * y) * p) * (2 * (x * y) * p)
               ≤ (x * x * b + y * y * a) * (x * x * b + y * y * a)).
  { replace ((2 * (x * y) * p) * (2 * (x * y) * p))
      with (4 * ((x * x) * (y * y)) * (p * p)) by ring.
    replace ((x * x * b + y * y * a) * (x * x * b + y * y * a))
      with ((x * x * b - y * y * a) * (x * x * b - y * y * a)
            + 4 * ((x * x) * (y * y)) * (a * b)) by ring.
    lia. }
  assert (H : 2 * (x * y) * p ≤ x * x * b + y * y * a).
  { destruct (Z.le_gt_cases (2 * (x * y) * p) (x * x * b + y * y * a)) as [|Hgt];
      [easy|].
    pose proof (Z.mul_lt_mono_nonneg _ _ _ _ H1 Hgt H1 Hgt). lia. }
  replace ((x * y + p) * (x * y + p))
    with ((x * x) * (y * y) + 2 * (x * y) * p + p * p) by ring.
  replace ((x * x + a) * (y * y + b))
    with ((x * x) * (y * y) + (x * x * b + y * y * a) + a * b) by ring.
  lia.
Qed.

(** Cauchy-Schwarz for the counts of two vectors over a list of terms. *)
Lemma cauchy_schwarz (f g : string → Z) (l : list string) :
  0 ≤ somme ((λ t, f t * f t) <$> l)
  ∧ 0 ≤ somme ((λ t, g t * g t) <$> l)
  ∧ somme ((λ t, f t * g t) <$> l) * somme ((λ t, f t * g t) <$> l)
    ≤ somme ((λ t, f t * f t) <$> l) * somme ((λ t, g t * g t) <$> l).
Proof.
  induction l as [|t l (Ha & Hb & IH)]; [unfold somme; simpl; lia|].
  rewrite !fmap_cons, !somme_cons.
  split; [nia|]. split; [nia|]. now apply cauchy_schwarz_pas.
Qed.

Lemma somme_filtre_le (f : string → Z) (P : string → Prop)
    `{∀ t, Decision (P t)} (l : list string) :
  (∀ t, 0 ≤ f t) → somme (f <$> filter P l) ≤ somme (f <$> l).
Proof.
  intros Hf. induction l as [|t l IH]; [easy|].
  rewrite filter_cons. destruct (decide (P t));
    rewrite ?fmap_cons, ?somme_cons; specialize (Hf t); lia.
Qed.

Lemma somme_positive (f : string → Z) (l : list string) :
  (∀ t, t ∈ l → 0 ≤ f t) → 0 ≤ somme (f <$> l).
Proof.
  induction l as [|t l IH]; intros Hf; [easy|].
  rewrite fmap_cons, somme_cons.
  assert (0 ≤ f t) by (apply Hf; now left).
  assert (0 ≤ somme (f <$> l)) by (apply IH; intros; apply Hf; now right).
  lia.
Qed.

(** The sum of the squares, over the keys. *)
Lemma somme_carres_cles (vec : Counter) :
  somme_carres vec
  = somme ((λ t, default 0 (vec !! t) * default 0 (vec !! t)) <$> (map_to_list vec).*1).
Proof.
  unfold somme_carres. rewrite <- list_fmap_compose. f_equal.
  apply list_fmap_ext. intros i [k v] Hkv. simpl.
  apply list_elem_of_lookup_2, elem_of_map_to_list in Hkv. now rewrite Hkv.
Qed.

Lemma somme_carres_fold (vec : Counter) :
  map_fold (λ _ v acc, acc + v * v) 0 vec = somme_carres vec.
Proof.
  rewrite map_fold_foldr. unfold somme_carres.
  induction (map_to_list vec) as [|[k v] l IH]; [reflexivity|].
  rewrite fmap_cons, somme_cons, <- IH. simpl. lia.
Qed.

Lemma elem_of_termes_communs (vec1 vec2 : Counter) (t : string) :
  t ∈ termes_communs vec1 vec2 ↔ is_Some (vec1 !! t) ∧ is_Some (vec2 !! t).
Proof.
  unfold termes_communs. rewrite list_elem_of_filter, list_elem_of_fmap. split.
  - intros [H2 ([k v] & -> & Hkv)]. split; [|easy].
    apply elem_of_map_to_list in Hkv. simpl. eauto.
  - intros [[v Hv] H2]. split; [easy|]. exists (t, v). split; [easy|].
    now apply elem_of_map_to_list.
Qed.

Lemma NoDup_termes_communs (vec1 vec2 : Counter) :
  NoDup (termes_communs vec1 vec2).
Proof. apply NoDup_filter, NoDup_fst_map_to_list. Qed.

Lemma termes_communs_elements (vec1 vec2 : Counter) :
  elements (dom vec1 ∩ dom vec2) ≡ₚ termes_communs vec1 vec2.
Proof.
  apply NoDup_Permutation; [apply NoDup_elements | apply NoDup_termes_communs |].
  intros t. rewrite elem_of_elements, elem_of_intersection, !elem_of_dom.
  now rewrite elem_of_termes_communs.
Qed.

Lemma termes_communs_sym (vec1 vec2 : Counter) :
  termes_communs vec1 vec2 ≡ₚ termes_communs vec2 vec1.
Proof.
  apply NoDup_Permutation; try apply NoDup_termes_communs.
  intros t. rewrite !elem_of_termes_communs. tauto.
Qed.

Lemma produit_scalaire_spec (vec1 vec2 : Counter) :
  produit_scalaire vec1 vec2 (dom vec1 ∩ dom vec2) = numerateur_spec vec1 vec2.
Proof.
  unfold produit_scalaire, numerateur_spec. apply somme_Permutation.
  apply fmap_Permutation, termes_communs_elements.
Qed.

(** The code and the wording of the specification compute the same number. *)
Lemma cosine_similarity_spec (vec1 vec2 : Counter) :
  cosine_similarity vec1 vec2 = cosinus_spec vec1 vec2.
Proof.
  unfold cosine_similarity, cosinus_spec, norme_spec.
  rewrite !somme_carres_fold, produit_scalaire_spec.
  pose proof (termes_communs_elements vec1 vec2) as Hp.
  destruct (decide (dom vec1 ∩ dom vec2 = ∅)) as [He|Hne].
  - rewrite He, elements_empty in Hp. symmetry in Hp.
    apply Permutation_nil_r in Hp. now rewrite Hp.
  - destruct (termes_communs vec1 vec2) as [|t l] eqn:E.
    + apply Permutation_nil_r in Hp. apply elements_empty_iff in Hp.
      destruct Hne. now apply leibniz_equiv.
    + now destruct (_ =? 0)%float.
Qed.

Lemma cosine_similarity_disjoints (vec1 vec2 : Counter) :
  dom vec1 ## dom vec2 → cosine_similarity vec1 vec2 = 0%float.
Proof.
  intros H. unfold cosine_similarity. rewrite decide_True; [reflexivity|].
  apply disjoint_intersection_L, H.
Qed.

(** The exact quotient [num / sqrt (s1 * s2)] lies between 0 and 1. *)
Lemma cosinus_exact_borne (vec1 vec2 : Counter) :
  map_Forall (λ _ n, 0 ≤ n) vec1 → map_Forall (λ _ n, 0 ≤ n) vec2 →
  let num := produit_scalaire vec1 vec2 (dom vec1 ∩ dom vec2) in
  0 ≤ num ∧ num * num ≤ somme_carres vec1 * somme_carres vec2.
Proof.
  intros H1 H2 num. unfold num. rewrite produit_scalaire_spec.
  unfold numerateur_spec.
  set (f := λ t, default 0 (vec1 !! t)). set (g := λ t, default 0 (vec2 !! t)).
  assert (Hf : ∀ t, 0 ≤ f t).
  { intros t. unfold f. destruct (vec1 !! t) eqn:E; simpl; [|lia]. now apply (H1 t). }
  assert (Hg : ∀ t, 0 ≤ g t).
  { intros t. unfold g. destruct (vec2 !! t) eqn:E; simpl; [|lia]. now apply (H2 t). }
  split.
  - apply (somme_positive (λ t, f t * g t)). intros t _.
    specialize (Hf t). specialize (Hg t). nia.
  - destruct (cauchy_schwarz f g (termes_communs vec1 vec2)) as (Ha & Hb & Hcs).
    assert (Ha' : somme ((λ t, f t * f t) <$> termes_communs vec1 vec2)
                  ≤ somme_carres vec1).
    { rewrite somme_carres_cles. apply (somme_filtre_le (λ t, f t * f t)).
      intros t. nia. }
    assert (Hb' : somme ((λ t, g t * g t) <$> termes_communs vec1 vec2)
                  ≤ somme_carres vec2).
    { rewrite (somme_Permutation _ ((λ t, g t * g t) <$> termes_communs vec2 vec1))
        by apply fmap_Permutation, termes_communs_sym.
      rewrite somme_carres_cles. apply (somme_filtre_le (λ t, g t * g t)).
      intros t. nia. }
    eapply Z.le_trans; [exact Hcs|]. now apply Z.mul_le_mono_nonneg.
Qed.

End Cosinus.

(** C8 (as the code has it) — For term vectors with non-negative counts,
    [cosine_similarity] returns 0.0 when the term sets are disjoint, and
    otherwise the floating-point quotient of the sum over the common terms
    of the products of the counts by the product of the two Euclidean norms
    (0.0 when that denominator is 0). The exact ratio lies in [0,1]: the
    numerator is non-negative and its square is at most the product of the
    two sums of squares. The binary64 result is that ratio after the
    roundings of [sqrt], [*] and [/], which can leave it just above 1. *)
Theorem C8_cosinus (vec1 vec2 : Counter) :
  map_Forall (λ _ n, 0 ≤ n) vec1 → map_Forall (λ _ n, 0 ≤ n) vec2 →
  (dom vec1 ## dom vec2 → cosine_similarity vec1 vec2 = 0%float)
  ∧ cosine_similarity vec1 vec2 = cosinus_spec vec1 vec2
  ∧ (let num := produit_scalaire vec1 vec2 (dom vec1 ∩ dom vec2) in
     0 ≤ num ∧ num * num ≤ somme_carres vec1 * somme_carres vec2).
Proof.
  intros H1 H2. split; [apply cosine_similarity_disjoints|].
  split; [apply cosine_similarity_spec | now apply cosinus_exact_borne].
Qed.

Lemma C8_cosinus_temoin :
  map_Forall (λ _ n, 0 ≤ n) (nettoyer_et_vectoriser "linux serveur")
  ∧ map_Forall (λ _ n, 0 ≤ n) (nettoyer_et_vectoriser "serveur debian")
  ∧ cosine_similarity (nettoyer_et_vectoriser "linux serveur")
                      (nettoyer_et_vectoriser "serveur debian")
    = cosinus_spec (nettoyer_et_vectoriser "linux serveur")
                   (nettoyer_et_vectoriser "serveur debian").
Proof.
  assert (H1 : map_Forall (λ _ n, 0 ≤ n) (nettoyer_et_vectoriser "linux serveur")).
  { apply (bool_decide_unpack _). vm_compute. reflexivity. }
  assert (H2 : map_Forall (λ _ n, 0 ≤ n) (nettoyer_et_vectoriser "serveur debian")).
  { apply (bool_decide_unpack _). vm_compute. reflexivity. }
  split; [exact H1|]. split; [exact H2|].
  apply (C8_cosinus _ _ H1 H2).
Defined.

(** C8 as stated fails: the similarity of a vector of three terms with
    itself is 3 / (sqrt 3 * sqrt 3), and the rounded product of the two
    square roots is below 3. *)
Lemma C8_contre_exemple :
  map_Forall (λ _ n, 0 ≤ n) vecteur_trois
  ∧ cosine_similarity vecteur_trois vecteur_trois = 1.0000000000000002%float
  ∧ (cosine_similarity vecteur_trois vecteur_trois <=? 1)%float = false.
Proof.
  split; [apply (bool_decide_unpack _); vm_compute; reflexivity|].
  split; vm_compute; reflexivity.
Qed.

(** ** The key-word bonus *)

Lemma bonus_iter (q : string) (s : float) :
  bonus q s = Nat.iter (nb_mots_forts q) (λ x, (x + 0.18)%float) s.
Proof.
  unfold bonus, nb_mots_forts. generalize mots_forts. intros l. revert s.
  induction l as [|m l IH]; intros s; simpl; [reflexivity|].
  rewrite filter_cons. destruct (contient m (lower q)) eqn:E.
  - rewrite decide_True by reflexivity. simpl length.
    rewrite Nat.iter_succ_r. apply IH.
  - rewrite decide_False by discriminate. apply IH.
Qed.

Lemma prime_fini : Prim2SF prime = S754_finite false 6485183463413514 (-55).
Proof. reflexivity. Qed.

Lemma leb_non_nan (a b : float) :
  (a <=? b)%float = true → non_nan a ∧ non_nan b.
Proof. now intros (Ha & Hb & _)%leb_entier. Qed.

(** The bonus is monotone: it never inverts the order of two scores. *)
Lemma bonus_croissant (q : string) (a b : float) :
  (a <=? b)%float = true → (bonus q a <=? bonus q b)%float = true.
Proof.
  unfold bonus. generalize mots_forts. intros l. revert a b.
  induction l as [|m l IH]; intros a b H; simpl; [exact H|].
  destruct (contient m (lower q)); apply IH; [|exact H].
  exact (add_croissant a b prime _ _ _ prime_fini H).
Qed.

(** The bonus never lowers a score. *)
Lemma bonus_minore (q : string) (a : float) :
  non_nan a → (a <=? bonus q a)%float = true.
Proof.
  unfold bonus. generalize mots_forts. intros l.
  assert (Hgen : ∀ b, (a <=? b)%float = true →
            (a <=? foldl (λ score mot,
                            if contient mot (lower q)
                            then (score + prime)%float else score) b l)%float
            = true).
  { induction l as [|m l IH]; intros b H; simpl; [exact H|].
    apply IH. destruct (contient m (lower q)); [|exact H].
    eapply leb_trans; [exact H|].
    apply (add_positif b prime _ _ prime_fini), (leb_non_nan a b H). }
  intros Ha. apply Hgen. now apply leb_refl.
Qed.

(** C2 (as the code has it) — For every question and every corpus, the
    bonus is the same for every chunk of the query: each key word that
    occurs as a substring of the lowercased question adds 0.18 once, by a
    floating-point addition, so every score is the chunk's cosine
    similarity followed by the same [k] additions of 0.18, [k] being the
    number of key words in the question; without a key word the scores are
    the similarities. The bonus never inverts a ranking: a similarity that
    is not greater gets a score that is not greater, so a strictly greater
    score comes from a strictly greater similarity (rounding can only merge
    two similarities into one score). And it never lowers a score, so a
    similarity above the threshold stays above it: only a NoMatch can turn
    into a Match. *)
Theorem C2_bonus_uniforme (q : string) (vecteurs : list Counter) :
  (∀ s, bonus q s = Nat.iter (nb_mots_forts q) (λ x, (x + 0.18)%float) s)
  ∧ scores q vecteurs
    = (λ v, Nat.iter (nb_mots_forts q) (λ x, (x + 0.18)%float)
              (cosine_similarity (nettoyer_et_vectoriser q) v)) <$> vecteurs
  ∧ (nb_mots_forts q = 0%nat →
       scores q vecteurs
       = cosine_similarity (nettoyer_et_vectoriser q) <$> vecteurs)
  ∧ (∀ a b, (a <=? b)%float = true → (bonus q a <=? bonus q b)%float = true)
  ∧ (∀ a b, (bonus q a <? bonus q b)%float = true → (b <=? a)%float = false)
  ∧ (∀ a, non_nan a → (a <=? bonus q a)%float = true)
  ∧ (∀ a, (0.12 <? a)%float = true → (0.12 <? bonus q a)%float = true).
Proof.
  assert (Hs : scores q vecteurs
    = (λ v, Nat.iter (nb_mots_forts q) (λ x, (x + 0.18)%float)
              (cosine_similarity (nettoyer_et_vectoriser q) v)) <$> vecteurs).
  { unfold scores, score_de. apply list_fmap_ext. intros i v _. apply bonus_iter. }
  split; [apply bonus_iter|]. split; [exact Hs|]. split; [|split; [|split; [|split]]].
  - intros H0. rewrite Hs, H0. reflexivity.
  - apply bonus_croissant.
  - intros a b Hlt. apply not_true_is_false. intros Hle.
    apply (bonus_croissant q) in Hle. apply leb_non_ltb in Hle. congruence.
  - apply bonus_minore.
  - intros a Ha. eapply ltb_leb_trans; [exact Ha|].
    apply bonus_minore. now apply (ltb_non_nan _ _ Ha).
Qed.

(** C2 as stated fails. With the question "linux serveur" the two chunks
    have the distinct similarities 0.49999999999999989 and 0.5, the second
    being the greater, yet both scores are 0.67999999999999994 after the
    bonus and the query returns the first chunk. And against the same
    question without its key word, "serveur", the score of the first chunk
    is not higher by 0.18: it is lower. *)
Lemma C2_contre_exemple :
  let vq := nettoyer_et_vectoriser "linux serveur" in
  vecteurs_chunks corpus_voisins = Ok (index_de corpus_voisins)
  ∧ cosine_similarity vq <$> index_de corpus_voisins
    = [0.49999999999999989%float; 0.5%float]
  ∧ (0.49999999999999989 <? 0.5)%float = true
  ∧ scores "linux serveur" (index_de corpus_voisins)
    = [0.67999999999999994%float; 0.67999999999999994%float]
  ∧ (∃ r, moteur corpus_voisins (index_de corpus_voisins) "linux serveur" "t"
          = Ok r ∧ chunk_id r = 1)
  ∧ scores "serveur" (index_de corpus_voisins)
    = [0.70710678118654746%float; 0.70710678118654757%float]
  ∧ (0.67999999999999994 <? 0.70710678118654746)%float = true.
Proof.
  repeat split; try (vm_compute; reflexivity).
  eexists. split; vm_compute; reflexivity.
Qed.

(** * Further properties of the retrieval core *)

(** ** The similarity is symmetric *)

Lemma SFmul_comm (x y : spec_float) :
  SFmul prec emax x y = SFmul prec emax y x.
Proof.
  destruct x as [sx|sx| |sx mx ex], y as [sy|sy| |sy my ey]; simpl;
    rewrite ?(xorb_comm sx sy); try reflexivity.
  by rewrite (Pos.mul_comm mx my), (Z.add_comm ex ey).
Qed.

Lemma mul_comm_float (x y : float) : (x * y)%float = (y * x)%float.
Proof.
  rewrite <- (SF2Prim_Prim2SF (x * y)), <- (SF2Prim_Prim2SF (y * x)).
  by rewrite !FloatAxioms.mul_spec, SFmul_comm.
Qed.

Lemma produit_scalaire_sym (vec1 vec2 : Counter) (communs : gset string) :
  produit_scalaire vec1 vec2 communs = produit_scalaire vec2 vec1 communs.
Proof.
  unfold produit_scalaire. f_equal. apply list_fmap_ext. intros _ w _. lia.
Qed.

(** X1 — [cosine_similarity] is symmetric, bit for bit: exchanging the two
    vectors exchanges the factors of integer products and of one binary64
    product, which commute. *)
Theorem cosine_similarity_symetrique (vec1 vec2 : Counter) :
  cosine_similarity vec1 vec2 = cosine_similarity vec2 vec1.
Proof.
  unfold cosine_similarity.
  rewrite (intersection_comm_L (dom vec1) (dom vec2)).
  rewrite (produit_scalaire_sym vec1 vec2).
  by rewrite (mul_comm_float (sqrt (Z2F (somme_carres vec1)))).
Qed.

(** ** Letter case *)

Lemma boucle_ext (chunks : list Chunk) (q q' : string) (vq vq' : Counter)
    (vecs : list Counter) (i : nat) (st : etat) :
  (∀ v, score_de q vq v = score_de q' vq' v) →
  boucle chunks q vq i vecs st = boucle chunks q' vq' i vecs st.
Proof.
  intros H. revert i st. induction vecs as [|v vecs IH]; intros i st; [done|].
  simpl. unfold etape. rewrite (H v).
  destruct (st.1 <? score_de q' vq' v)%float; simpl; [|apply IH].
  destruct (chunks !! i); simpl; [apply IH|done].
Qed.

Lemma bonus_lower (q q' : string) (s : float) :
  lower q = lower q' → bonus q s = bonus q' s.
Proof. intros H. unfold bonus. by rewrite H. Qed.

Lemma nettoyer_et_vectoriser_lower (q q' : string) :
  lower q = lower q' → nettoyer_et_vectoriser q = nettoyer_et_vectoriser q'.
Proof. intros H. unfold nettoyer_et_vectoriser. by rewrite H. Qed.

Lemma reponse_trouvee_question (q q' now : string) (s : float)
    (mc : option Chunk) :
  reponse_trouvee q' s mc now
  = a_la_question_pres q' (reponse_trouvee q s mc now).
Proof.
  unfold reponse_trouvee. destruct mc as [c|]; simpl; [|done].
  destruct (k_text c), (k_chunk_id c), (k_source_url c), (k_source_title c);
    done.
Qed.

Lemma moteur_lower (chunks : list Chunk) (vecteurs : list Counter)
    (q q' now : string) :
  lower q = lower q' →
  moteur chunks vecteurs q' now
  = a_la_question_pres q' (moteur chunks vecteurs q now).
Proof.
  intros H. unfold moteur.
  rewrite (boucle_ext chunks q q' (nettoyer_et_vectoriser q)
             (nettoyer_et_vectoriser q')).
  2:{ intros v. unfold score_de.
      by rewrite (nettoyer_et_vectoriser_lower q q' H), (bonus_lower q q' _ H). }
  destruct (boucle chunks q' (nettoyer_et_vectoriser q') 0 vecteurs (0%float, None))
    as [[ms mc]|e]; simpl; [|done].
  destruct (seuil <? ms)%float; [apply reponse_trouvee_question|done].
Qed.

Lemma lower_vide (s : string) : lower s = "" ↔ s = "".
Proof. destruct s; simpl; split; congruence. Qed.

(** X2 — The search ignores letter case: two questions with the same
    lowercase form have the same term vector and the same scores, and the
    route gives them the same outcome (the same error, or answers equal in
    every field but the echoed question). *)
Theorem recherche_insensible_a_la_casse
    (chunks : list Chunk) (vecteurs : list Counter) (q q' now : string) :
  lower q = lower q' →
  nettoyer_et_vectoriser q' = nettoyer_et_vectoriser q
  ∧ scores q' vecteurs = scores q vecteurs
  ∧ chercher_dans_nird chunks vecteurs q' now
    = a_la_question_pres (strip q') (chercher_dans_nird chunks vecteurs q now).
Proof.
  intros H. split; [by apply nettoyer_et_vectoriser_lower|]. split.
  - unfold scores. apply list_fmap_ext. intros _ v _. unfold score_de.
    by rewrite (nettoyer_et_vectoriser_lower q q' H), (bonus_lower q q' _ H).
  - assert (Hs : lower (strip q) = lower (strip q'))
      by (by rewrite !lower_strip, H).
    unfold chercher_dans_nird.
    destruct (String.eqb_spec (strip q) "") as [E|E].
    + rewrite E in Hs. symmetry in Hs. apply (lower_vide (strip q')) in Hs.
      by rewrite Hs.
    + destruct (String.eqb_spec (strip q') "") as [E'|E'].
      * rewrite E' in Hs. by apply (lower_vide (strip q)) in Hs.
      * by apply moteur_lower.
Qed.

Lemma recherche_insensible_a_la_casse_temoin :
  lower "LINUX et Forge" = lower "linux ET forge"
  ∧ chercher_dans_nird corpus_nird (index_de corpus_nird) "linux ET forge" "t"
    = a_la_question_pres (strip "linux ET forge")
        (chercher_dans_nird corpus_nird (index_de corpus_nird)
           "LINUX et Forge" "t").
Proof.
  split; [reflexivity|].
  apply (recherche_insensible_a_la_casse corpus_nird (index_de corpus_nird)
           "LINUX et Forge" "linux ET forge" "t").
  reflexivity.
Defined.

(** ** The guard of the route *)

Lemma lstrip_espaces (a s : string) :
  tous isspace a = true → lstrip (a +:+ s) = lstrip s.
Proof.
  induction a as [|c a IH]; simpl; [done|].
  intros [Hc Ha]%andb_true_iff. by rewrite Hc, IH.
Qed.

Lemma rstrip_vide (s : string) : rstrip s = "" ↔ tous isspace s = true.
Proof.
  induction s as [|c s IH]; simpl; [done|].
  destruct (rstrip s) eqn:E.
  - destruct (isspace c); simpl; [|split; congruence].
    split; [intros _; by apply IH|done].
  - split; [done|]. intros [_ Hs]%andb_true_iff. apply IH in Hs. done.
Qed.

Lemma rstrip_espaces (s b : string) :
  tous isspace b = true → rstrip (s +:+ b) = rstrip s.
Proof.
  intros Hb. induction s as [|c s IH]; simpl.
  - by apply rstrip_vide.
  - by rewrite IH.
Qed.

Lemma lstrip_vide (s : string) : lstrip s = "" ↔ tous isspace s = true.
Proof.
  induction s as [|c s IH]; simpl; [done|].
  destruct (isspace c); simpl; [done|]. split; congruence.
Qed.

Lemma lstrip_app (s b : string) :
  tous isspace s = false → lstrip (s +:+ b) = lstrip s +:+ b.
Proof.
  induction s as [|c s IH]; simpl; [done|].
  destruct (isspace c); simpl; [apply IH|done].
Qed.

Lemma tous_isspace_lstrip (s : string) :
  tous isspace (lstrip s) = tous isspace s.
Proof.
  induction s as [|c s IH]; simpl; [done|].
  destruct (isspace c) eqn:E; simpl; [done|]. by rewrite E.
Qed.

Lemma strip_vide (s : string) : strip s = "" ↔ tous isspace s = true.
Proof. unfold strip. by rewrite rstrip_vide, tous_isspace_lstrip. Qed.

Lemma strip_espaces (a s b : string) :
  tous isspace a = true → tous isspace b = true →
  strip (a +:+ s +:+ b) = strip s.
Proof.
  intros Ha Hb. unfold strip. rewrite (lstrip_espaces a _ Ha).
  destruct (tous isspace s) eqn:Hs.
  - assert (H : tous isspace (s +:+ b) = true) by (by rewrite tous_app, Hs, Hb).
    apply lstrip_vide in H. rewrite H. apply lstrip_vide in Hs. by rewrite Hs.
  - by rewrite (lstrip_app _ _ Hs), (rstrip_espaces _ _ Hb).
Qed.

(** X3 — White space around the question is ignored: a question padded on
    either side with white-space characters gets the outcome of the
    question itself, echo and errors included. *)
Theorem espaces_autour_ignores
    (chunks : list Chunk) (vecteurs : list Counter) (a q b now : string) :
  tous isspace a = true → tous isspace b = true →
  strip (a +:+ q +:+ b) = strip q
  ∧ chercher_dans_nird chunks vecteurs (a +:+ q +:+ b) now
    = chercher_dans_nird chunks vecteurs q now.
Proof.
  intros Ha Hb. pose proof (strip_espaces a q b Ha Hb) as H. split; [done|].
  unfold chercher_dans_nird. by rewrite H.
Qed.

Lemma espaces_autour_ignores_temoin :
  tous isspace ("  " +:+ car 9) = true ∧ tous isspace (" " +:+ car 10) = true
  ∧ chercher_dans_nird corpus_nird (index_de corpus_nird)
      (("  " +:+ car 9) +:+ "Linux durable ?" +:+ (" " +:+ car 10)) "t"
    = chercher_dans_nird corpus_nird (index_de corpus_nird)
        "Linux durable ?" "t".
Proof.
  split; [reflexivity|]. split; [reflexivity|].
  apply (espaces_autour_ignores corpus_nird (index_de corpus_nird)
           ("  " +:+ car 9) "Linux durable ?" (" " +:+ car 10) "t");
    reflexivity.
Defined.

Lemma boucle_erreur (chunks : list Chunk) (q : string) (vq : Counter)
    (vecs : list Counter) (i : nat) (st : etat) (e : Exception) :
  boucle chunks q vq i vecs st = Leve e → e = IndexError.
Proof.
  revert i st. induction vecs as [|v vecs IH]; intros i st; simpl; [done|].
  unfold etape. destruct (st.1 <? score_de q vq v)%float; simpl; [|apply IH].
  destruct (chunks !! i); simpl; [apply IH|congruence].
Qed.

Lemma reponse_trouvee_erreur (q now : string) (s : float) (mc : option Chunk)
    (e : Exception) :
  reponse_trouvee q s mc now = Leve e →
  match mc with
  | None => e = TypeError
  | Some c =>
      (e = KeyError "text" ∧ k_text c = None)
      ∨ (e = KeyError "chunk_id" ∧ k_chunk_id c = None)
      ∨ (e = KeyError "source_url" ∧ k_source_url c = None)
      ∨ (e = KeyError "source_title" ∧ k_source_title c = None)
  end.
Proof.
  unfold reponse_trouvee. destruct mc as [c|]; simpl; [|congruence].
  destruct (k_text c), (k_chunk_id c), (k_source_url c), (k_source_title c);
    simpl; intros [=]; subst; tauto.
Qed.

Lemma moteur_sans_HTTPException (chunks : list Chunk) (vecteurs : list Counter)
    (q now : string) (code : Z) (detail : string) :
  moteur chunks vecteurs q now ≠ Leve (HTTPException code detail).
Proof.
  unfold moteur.
  destruct (boucle chunks q (nettoyer_et_vectoriser q) 0 vecteurs (0%float, None))
    as [[ms mc]|e] eqn:E; simpl.
  - destruct (seuil <? ms)%float; [|done]. intros H.
    apply reponse_trouvee_erreur in H. destruct mc; [|done].
    destruct H as [[H _]|[[H _]|[[H _]|[H _]]]]; done.
  - apply boucle_erreur in E. by subst.
Qed.

(** X4 — The route answers with status 400 "Question vide" exactly for the
    questions made of white space only (the empty one included), whatever
    the corpus and the index; it raises no other [HTTPException], and every
    other question is handed, stripped, to the engine. *)
Theorem question_vide_400
    (chunks : list Chunk) (vecteurs : list Counter) (q now : string) :
  (chercher_dans_nird chunks vecteurs q now
   = Leve (HTTPException 400 "Question vide") ↔ tous isspace q = true)
  ∧ (∀ code detail,
       chercher_dans_nird chunks vecteurs q now = Leve (HTTPException code detail) →
       tous isspace q = true)
  ∧ (tous isspace q = false →
       chercher_dans_nird chunks vecteurs q now
       = moteur chunks vecteurs (strip q) now).
Proof.
  assert (H : ∀ code detail,
       chercher_dans_nird chunks vecteurs q now = Leve (HTTPException code detail) →
       tous isspace q = true).
  { intros code detail. unfold chercher_dans_nird.
    destruct (String.eqb_spec (strip q) "") as [E|E].
    - intros _. by apply strip_vide.
    - intros HH. by apply moteur_sans_HTTPException in HH. }
  split; [split; [apply H|]|split; [apply H|]].
  - intros Hq. apply strip_vide in Hq. unfold chercher_dans_nird. by rewrite Hq.
  - intros Hq. unfold chercher_dans_nird.
    destruct (String.eqb_spec (strip q) "") as [E|E]; [|done].
    apply strip_vide in E. congruence.
Qed.

(** ** The outcomes of the engine *)

(** The best chunk is the initial one or a chunk of the corpus. *)
Lemma boucle_chunk (chunks : list Chunk) (q : string) (vq : Counter)
    (vecs : list Counter) (i : nat) (st st' : etat) :
  boucle chunks q vq i vecs st = Ok st' →
  st' = st ∨ ∃ c, st'.2 = Some c ∧ c ∈ chunks.
Proof.
  revert i st. induction vecs as [|v vecs IH]; intros i st; simpl.
  - intros [=]. by left.
  - unfold etape. destruct (st.1 <? score_de q vq v)%float; simpl; [|apply IH].
    destruct (chunks !! i) as [c|] eqn:E; simpl; [|done].
    intros H. apply IH in H as [->|H]; [|by right].
    right. exists c. split; [done|]. by eapply list_elem_of_lookup_2.
Qed.

Lemma moteur_Ok (chunks : list Chunk) (vecteurs : list Counter)
    (q now : string) (r : ReponseNIRD) :
  moteur chunks vecteurs q now = Ok r →
  r = reponse_defaut q now
  ∨ ∃ c s, c ∈ chunks ∧ (seuil <? s)%float = true
           ∧ reponse_trouvee q s (Some c) now = Ok r.
Proof.
  unfold moteur.
  destruct (boucle chunks q (nettoyer_et_vectoriser q) 0 vecteurs (0%float, None))
    as [[ms mc]|e] eqn:E; simpl; [|done].
  destruct (seuil <? ms)%float eqn:Hs; [|intros [=]; by left].
  intros H. right. apply boucle_chunk in E as [[= -> ->]|(c & Hc & Hin)].
  - by rewrite seuil_positif in Hs.
  - simpl in Hc. subst mc. by exists c, ms.
Qed.

Lemma reponse_trouvee_Ok (q now : string) (s : float) (c : Chunk)
    (r : ReponseNIRD) :
  reponse_trouvee q s (Some c) now = Ok r →
  ∃ t, k_text c = Some t
       ∧ r = {| question := q; contexte := tronquer (strip t);
                confiance := round3 s; chunk_id := chunk_id r;
                source_url := source_url r; source_title := source_title r;
                timestamp := now |}
       ∧ k_chunk_id c = Some (chunk_id r)
       ∧ k_source_url c = Some (source_url r)
       ∧ k_source_title c = Some (source_title r).
Proof.
  unfold reponse_trouvee. simpl.
  destruct (k_text c) as [t|], (k_chunk_id c), (k_source_url c),
    (k_source_title c); simpl; intros [=]; subst. by exists t.
Qed.



Lemma length_rsplit_espace_0 (s : string) :
  (String.length (rsplit_espace_0 s) ≤ String.length s)%nat.
Proof.
  unfold rsplit_espace_0.
  destruct (avant_dernier_espace s) as [u|] eqn:E; simpl; [|done].
  apply avant_dernier_espace_Some in E as (w & -> & _).
  rewrite longueur_app. lia.
Qed.

Lemma rsplit_espace_0_prefixe (s : string) : ∃ r, s = rsplit_espace_0 s +:+ r.
Proof.
  unfold rsplit_espace_0. destruct (avant_dernier_espace s) as [u|] eqn:E; simpl.
  - apply avant_dernier_espace_Some in E as (w & -> & _). by eexists.
  - exists "". by rewrite app_vide_d.
Qed.

(** The shape of a shaped text. *)
Lemma tronquer_forme (t : string) :
  (String.length t ≤ 600)%nat ∧ tronquer t = t
  ∨ (600 < String.length t)%nat
    ∧ ∃ u r, tronquer t = u +:+ "..." ∧ t = u +:+ r
             ∧ (String.length u ≤ 600)%nat.
Proof.
  unfold tronquer. destruct (600 <? String.length t)%nat eqn:E.
  - apply Nat.ltb_lt in E. right. split; [done|].
    destruct (rsplit_espace_0_prefixe (prendre 600 t)) as [r1 H1].
    destruct (prendre_prefixe t 600) as [r2 H2].
    exists (rsplit_espace_0 (prendre 600 t)), (r1 +:+ r2). split; [done|]. split.
    + rewrite <- app_assoc_s, <- H1. done.
    + pose proof (length_rsplit_espace_0 (prendre 600 t)) as H.
      rewrite length_prendre in H. lia.
  - apply Nat.ltb_ge in E. by left.
Qed.

Lemma length_tronquer (t : string) : (String.length (tronquer t) ≤ 603)%nat.
Proof.
  destruct (tronquer_forme t) as [[H ->]|(_ & u & r & -> & _ & H)]; [lia|].
  rewrite longueur_app. simpl. lia.
Qed.

(** X6 — The context of an answer never exceeds 603 characters. It is the
    fixed fallback text, or the stripped text of a chunk when that has at
    most 600 characters, or else a prefix of at most 600 characters of the
    stripped text followed by "...": the bound 603 is reached by a text
    without a space among its first 600 characters. *)
Theorem contexte_borne
    (chunks : list Chunk) (vecteurs : list Counter) (q now : string)
    (r : ReponseNIRD) :
  moteur chunks vecteurs q now = Ok r →
  (String.length (contexte r) ≤ 603)%nat
  ∧ (r = reponse_defaut q now
     ∨ ∃ c t, c ∈ chunks ∧ k_text c = Some t
         ∧ ((String.length (strip t) ≤ 600)%nat ∧ contexte r = strip t
            ∨ (600 < String.length (strip t))%nat
              ∧ ∃ u v, contexte r = u +:+ "..." ∧ strip t = u +:+ v
                       ∧ (String.length u ≤ 600)%nat)).
Proof.
  intros H. apply moteur_Ok in H as [->|(c & s & Hc & _ & H)].
  - split; [vm_compute; lia|by left].
  - apply reponse_trouvee_Ok in H as (t & Ht & -> & _). simpl. split.
    + apply length_tronquer.
    + right. exists c, t. split; [done|]. split; [done|].
      destruct (tronquer_forme (strip t)) as [[H1 H2]|[H1 H2]];
        [by left|by right].
Qed.

Lemma contexte_borne_temoin :
  ∃ r, moteur corpus_sans_espace (index_de corpus_sans_espace) "linux" "t" = Ok r
       ∧ String.length (contexte r) = 603%nat
       ∧ (String.length (contexte r) ≤ 603)%nat.
Proof.
  eexists. split; [vm_compute; reflexivity|]. split; [vm_compute; reflexivity|].
  exact (proj1 (contexte_borne corpus_sans_espace (index_de corpus_sans_espace)
                  "linux" "t" _ ltac:(vm_compute; reflexivity))).
Defined.

(** X7 — Every answer echoes the question and the time it was given, and is
    either the fixed fallback or built from one chunk of the corpus: its
    identifier, its address, its title and its shaped text all come from
    that one record. *)
Theorem reponse_issue_du_corpus
    (chunks : list Chunk) (vecteurs : list Counter) (q now : string)
    (r : ReponseNIRD) :
  moteur chunks vecteurs q now = Ok r →
  question r = q ∧ timestamp r = now
  ∧ (r = reponse_defaut q now
     ∨ ∃ c t, c ∈ chunks
         ∧ k_text c = Some t ∧ contexte r = tronquer (strip t)
         ∧ k_chunk_id c = Some (chunk_id r)
         ∧ k_source_url c = Some (source_url r)
         ∧ k_source_title c = Some (source_title r)).
Proof.
  intros H. apply moteur_Ok in H as [->|(c & s & Hc & _ & H)]; [by auto|].
  apply reponse_trouvee_Ok in H as (t & Ht & Hr & Hid & Hurl & Htitre).
  split; [by rewrite Hr|]. split; [by rewrite Hr|].
  right. exists c, t. rewrite Hr at 1. simpl. done.
Qed.

Lemma reponse_issue_du_corpus_temoin :
  ∃ r, moteur corpus_nird (index_de corpus_nird)
         "Comment faire du reconditionnement ?" "t" = Ok r
       ∧ question r = "Comment faire du reconditionnement ?"
       ∧ chunk_id r = 1.
Proof.
  eexists. split; [vm_compute; reflexivity|]. split; [|reflexivity].
  exact (proj1 (reponse_issue_du_corpus corpus_nird (index_de corpus_nird)
                  "Comment faire du reconditionnement ?" "t" _
                  ltac:(vm_compute; reflexivity))).
Defined.

(** ** The term vector of a text *)

Lemma occurrences_filter (P : string → Prop) `{∀ m, Decision (P m)}
    (w : string) (mots : list string) :
  P w → occurrences w (filter P mots) = occurrences w mots.
Proof.
  intros Hw. induction mots as [|m mots IH]; [done|].
  rewrite filter_cons. destruct (decide (P m)) as [Hm|Hm].
  - by rewrite !occurrences_cons, IH.
  - rewrite occurrences_cons, IH. destruct (decide (m = w)); [by subst|done].
Qed.

Lemma occurrences_app (w : string) (l k : list string) :
  occurrences w (l ++ k) = (occurrences w l + occurrences w k)%nat.
Proof. unfold occurrences. by rewrite filter_app, length_app. Qed.

Lemma occurrences_zero (w : string) (mots : list string) :
  w ∉ mots → occurrences w mots = 0%nat.
Proof.
  intros H. destruct (occurrences w mots) eqn:E; [done|].
  exfalso. apply H, occurrences_pos. lia.
Qed.

(** X8 — The term vector counts the tokens of the lowercased text: a string
    is a term exactly when it is one of those tokens, is no stop word and
    has more than two characters, and its count is then the number of its
    occurrences among the tokens. *)
Theorem vecteur_compte_les_jetons (texte w : string) :
  nettoyer_et_vectoriser texte !! w
  = if decide (w ∈ findall_w (lower texte) ∧ (w ∉ stopwords)
               ∧ (2 < String.length w)%nat)
    then Some (Z.of_nat (occurrences w (findall_w (lower texte))))
    else None.
Proof.
  unfold nettoyer_et_vectoriser. rewrite compter_lookup.
  set (P := λ m : string, (m ∉ stopwords) ∧ (2 < String.length m)%nat).
  destruct (decide (w ∈ filter P (findall_w (lower texte)))) as [Hin|Hin].
  - apply list_elem_of_filter in Hin as [Hw Hin].
    rewrite decide_True by (destruct Hw; done).
    by rewrite (occurrences_filter P w _ Hw).
  - rewrite decide_False; [done|]. intros (H1 & H2 & H3).
    apply Hin, list_elem_of_filter. done.
Qed.

Lemma compte_jetons (texte w : string) :
  default 0 (nettoyer_et_vectoriser texte !! w)
  = if decide ((w ∉ stopwords) ∧ (2 < String.length w)%nat)
    then Z.of_nat (occurrences w (findall_w (lower texte))) else 0.
Proof.
  unfold nettoyer_et_vectoriser. rewrite compter_lookup.
  set (P := λ m : string, (m ∉ stopwords) ∧ (2 < String.length m)%nat).
  destruct (decide (w ∈ filter P (findall_w (lower texte)))) as [Hin|Hin].
  - apply list_elem_of_filter in Hin as [Hw Hin].
    rewrite decide_True by done. simpl.
    by rewrite (occurrences_filter P w _ Hw).
  - simpl. destruct (decide _) as [Hw|Hw]; [|done].
    rewrite occurrences_zero; [done|]. intros Hin'.
    apply Hin, list_elem_of_filter. done.
Qed.

Lemma mots_de_separateur (a b acc : string) (c : ascii) :
  is_word c = false →
  mots_de acc (a +:+ String c b) = mots_de acc a ++ mots_de "" b.
Proof.
  intros Hc. revert acc. induction a as [|x a IH]; intros acc; simpl.
  - by rewrite Hc.
  - destruct (is_word x); [apply IH|]. by rewrite IH, app_assoc.
Qed.

(** X9 — Vectorization is additive over texts joined by a character that is
    not a word character (a space, a line feed, a punctuation mark),
    whenever lowering the joined text gives the two lowered texts joined by
    that character: the count of every term in the joined text is then the
    sum of its counts in the two texts. The condition holds for every text
    of the Latin-1 block; [str.lower] does not meet it in general (a final
    capital sigma is lowered otherwise once a letter follows it). *)
Theorem vecteur_de_textes_joints (a b : string) (c : ascii) (w : string) :
  is_word c = false →
  lower (a +:+ String c b) = lower a +:+ String c (lower b) →
  default 0 (nettoyer_et_vectoriser (a +:+ String c b) !! w)
  = default 0 (nettoyer_et_vectoriser a !! w)
    + default 0 (nettoyer_et_vectoriser b !! w).
Proof.
  intros Hc Hl. rewrite !compte_jetons.
  destruct (decide _); [|done].
  rewrite Hl. unfold findall_w.
  rewrite (mots_de_separateur (lower a) (lower b) "" c Hc), occurrences_app.
  lia.
Qed.

Lemma vecteur_de_textes_joints_temoin :
  is_word " " = false
  ∧ lower ("Linux libre" +:+ String " " "et LINUX durable")
    = lower "Linux libre" +:+ String " " (lower "et LINUX durable")
  ∧ default 0 (nettoyer_et_vectoriser
                 ("Linux libre" +:+ String " " "et LINUX durable") !! "linux")
    = default 0 (nettoyer_et_vectoriser "Linux libre" !! "linux")
      + default 0 (nettoyer_et_vectoriser "et LINUX durable" !! "linux")
  ∧ default 0 (nettoyer_et_vectoriser
                 ("Linux libre" +:+ String " " "et LINUX durable") !! "linux")
    = 2.
Proof.
  split; [reflexivity|]. split; [reflexivity|].
  split; [|vm_compute; reflexivity].
  apply (vecteur_de_textes_joints "Linux libre" "et LINUX durable" " " "linux");
    reflexivity.
Defined.

(** ** A longer corpus *)

Lemma vecteurs_chunks_app (chunks plus : list Chunk) (vs ws : list Counter) :
  vecteurs_chunks chunks = Ok vs → vecteurs_chunks plus = Ok ws →
  vecteurs_chunks (chunks ++ plus) = Ok (vs ++ ws).
Proof.
  revert vs. induction chunks as [|c chunks IH]; intros vs; simpl.
  - by intros [= <-].
  - destruct (k_text c) as [t|]; simpl; [|done].
    destruct (vecteurs_chunks chunks) as [vs'|] eqn:E; simpl; [|done].
    intros [= <-] Hw. by rewrite (IH vs' eq_refl Hw).
Qed.

Lemma boucle_app (chunks : list Chunk) (q : string) (vq : Counter)
    (vs ws : list Counter) (i : nat) (st : etat) :
  boucle chunks q vq i (vs ++ ws) st
  = st' ← boucle chunks q vq i vs st;
    boucle chunks q vq (i + length vs) ws st'.
Proof.
  revert i st. induction vs as [|v vs IH]; intros i st; simpl.
  - by rewrite Nat.add_0_r.
  - destruct (etape chunks q vq st i v) as [st1|e]; simpl; [|done].
    rewrite IH.
    by replace (S i + length vs)%nat with (i + S (length vs))%nat by lia.
Qed.

(** The loop reads the corpus only at the positions of the index. *)
Lemma boucle_corpus (chunks plus : list Chunk) (q : string) (vq : Counter)
    (vs : list Counter) (i : nat) (st : etat) :
  (i + length vs ≤ length chunks)%nat →
  boucle (chunks ++ plus) q vq i vs st = boucle chunks q vq i vs st.
Proof.
  revert i st. induction vs as [|v vs IH]; intros i st Hl; simpl in *; [done|].
  unfold etape. rewrite (lookup_app_l chunks plus i) by lia.
  destruct (st.1 <? score_de q vq v)%float; simpl.
  - destruct (chunks !! i); simpl; [|done]. apply IH. lia.
  - apply IH. lia.
Qed.

(** Scoring further entries never lowers the best score, and replaces the
    best chunk only by one of them that scores strictly higher. *)
Lemma boucle_suite (chunks plus : list Chunk) (q : string) (vq : Counter)
    (ws : list Counter) (k : nat) (st : etat) :
  non_nan st.1 → (k + length ws ≤ length plus)%nat →
  ∃ st', boucle (chunks ++ plus) q vq (length chunks + k) ws st = Ok st'
         ∧ (st.1 <=? st'.1)%float = true
         ∧ (st' = st
            ∨ (st.1 <? st'.1)%float = true ∧ ∃ c, st'.2 = Some c ∧ c ∈ plus).
Proof.
  revert k st. induction ws as [|w ws IH]; intros k st Hn Hl; simpl in *.
  - exists st. split; [done|]. split; [by apply leb_refl|by left].
  - unfold etape. destruct (st.1 <? score_de q vq w)%float eqn:E; simpl.
    + destruct (lookup_lt_is_Some_2 plus k) as [c Hc]; [lia|].
      rewrite lookup_app_r by lia.
      replace (length chunks + k - length chunks)%nat with k by lia.
      rewrite Hc. simpl.
      destruct (IH (S k) (score_de q vq w, Some c)) as (st' & Hb & Hle & Hst).
      { simpl. apply ltb_non_nan in E. tauto. }
      { lia. }
      replace (S (length chunks + k)) with (length chunks + S k)%nat by lia.
      exists st'. split; [done|]. simpl in *.
      assert (Hlt : (st.1 <? st'.1)%float = true) by (by eapply ltb_leb_trans).
      split; [by apply ltb_leb|]. right. split; [done|].
      destruct Hst as [->|(_ & c' & Hc' & Hin)]; [|by exists c'].
      exists c. split; [done|]. by eapply list_elem_of_lookup_2.
    + replace (S (length chunks + k)) with (length chunks + S k)%nat by lia.
      apply IH; [done|lia].
Qed.

(** X10 — Chunks added at the end of the corpus extend the index at its
    end, never lower the best score of a question, and take the place of
    the best chunk only with a strictly higher score: otherwise the best
    score and the best chunk are what they were. *)
Theorem ajout_de_chunks
    (chunks plus : list Chunk) (vs ws : list Counter) (q : string)
    (ms : float) (mc : option Chunk) :
  vecteurs_chunks chunks = Ok vs → vecteurs_chunks plus = Ok ws →
  boucle chunks q (nettoyer_et_vectoriser q) 0 vs (0%float, None) = Ok (ms, mc) →
  vecteurs_chunks (chunks ++ plus) = Ok (vs ++ ws)
  ∧ ∃ ms' mc',
      boucle (chunks ++ plus) q (nettoyer_et_vectoriser q) 0 (vs ++ ws)
        (0%float, None) = Ok (ms', mc')
      ∧ (ms <=? ms')%float = true
      ∧ ((ms', mc') = (ms, mc)
         ∨ (ms <? ms')%float = true ∧ ∃ c, mc' = Some c ∧ c ∈ plus).
Proof.
  intros Hv Hw Hb. split; [by apply vecteurs_chunks_app|].
  pose proof (vecteurs_chunks_length _ _ Hv) as Lv.
  pose proof (vecteurs_chunks_length _ _ Hw) as Lw.
  rewrite boucle_app, boucle_corpus by (simpl; lia). rewrite Hb. simpl.
  destruct (invariant_boucle chunks q vs [] (0%float, None))
    as (st1 & Hb1 & Hinv).
  { simpl. lia. }
  { apply invariant_initial. }
  simpl in Hb1. rewrite Hb in Hb1. injection Hb1 as <-.
  destruct Hinv as (Hn & _).
  destruct (boucle_suite chunks plus q (nettoyer_et_vectoriser q) ws 0 (ms, mc))
    as ([ms' mc'] & Hb2 & Hle & Hst); [done|simpl; lia|].
  rewrite Lv. rewrite Nat.add_0_r in Hb2. exists ms', mc'. done.
Qed.

Lemma ajout_de_chunks_temoin :
  ∃ ms mc ms' mc',
    boucle [chunk_de 1 "serveur debian"] "linux serveur"
      (nettoyer_et_vectoriser "linux serveur") 0
      (index_de [chunk_de 1 "serveur debian"]) (0%float, None) = Ok (ms, mc)
    ∧ boucle ([chunk_de 1 "serveur debian"] ++ [chunk_de 2 "Linux, serveur"])
        "linux serveur" (nettoyer_et_vectoriser "linux serveur") 0
        (index_de [chunk_de 1 "serveur debian"]
         ++ index_de [chunk_de 2 "Linux, serveur"]) (0%float, None)
      = Ok (ms', mc')
    ∧ (ms <=? ms')%float = true.
Proof.
  destruct (ajout_de_chunks [chunk_de 1 "serveur debian"]
              [chunk_de 2 "Linux, serveur"]
              (index_de [chunk_de 1 "serveur debian"])
              (index_de [chunk_de 2 "Linux, serveur"]) "linux serveur"
              _ _ eq_refl eq_refl ltac:(vm_compute; reflexivity))
    as (_ & ms' & mc' & Hb & Hle & _).
  eexists _, _, ms', mc'. split; [vm_compute; reflexivity|]. split; [exact Hb|].
  exact Hle.
Defined.

(** ** Questions that share no term with the corpus *)

Lemma boucle_scores_nuls (chunks : list Chunk) (q : string) (vq : Counter)
    (vecs : list Counter) (i : nat) :
  (∀ v, v ∈ vecs → score_de q vq v = 0%float) →
  boucle chunks q vq i vecs (0%float, None) = Ok (0%float, None).
Proof.
  revert i. induction vecs as [|v vecs IH]; intros i H; simpl; [done|].
  unfold etape. rewrite (H v) by apply list_elem_of_here. simpl.
  apply IH. intros w Hw. apply H. by apply list_elem_of_further.
Qed.

Lemma boucle_scores_egaux (chunks : list Chunk) (q : string) (vq : Counter)
    (vecs : list Counter) (i : nat) (s : float) (mc : option Chunk) :
  (∀ v, v ∈ vecs → score_de q vq v = s) →
  boucle chunks q vq i vecs (s, mc) = Ok (s, mc).
Proof.
  revert i. induction vecs as [|v vecs IH]; intros i H; simpl; [done|].
  unfold etape. rewrite (H v) by apply list_elem_of_here. simpl.
  assert ((s <? s)%float = false) as ->.
  { destruct (s <? s)%float eqn:E; [|done].
    pose proof (ltb_leb _ _ E) as E'. by rewrite (leb_non_ltb _ _ E') in E. }
  apply IH. intros w Hw. apply H. by apply list_elem_of_further.
Qed.

Lemma iter_prime_minore (n : nat) (a : float) :
  non_nan a → (a <=? Nat.iter n (λ x, (x + 0.18)%float) a)%float = true.
Proof.
  intros Ha. induction n as [|n IH]; simpl; [by apply leb_refl|].
  eapply leb_trans; [exact IH|].
  apply (add_positif _ _ _ _ prime_fini). by apply leb_non_nan in IH as [_ ?].
Qed.

(** With a key word in the question, a similarity that is not negative
    gives a score above the threshold. *)
Lemma bonus_mot_fort (q : string) (s : float) :
  (1 ≤ nb_mots_forts q)%nat → (0 <=? s)%float = true →
  (0.12 <? bonus q s)%float = true.
Proof.
  intros Hk Hs. eapply ltb_leb_trans; [|apply (bonus_croissant q 0 s Hs)].
  rewrite bonus_iter. destruct (nb_mots_forts q) as [|k]; [lia|].
  rewrite Nat.iter_succ_r.
  eapply ltb_leb_trans; [|by apply iter_prime_minore]. reflexivity.
Qed.

(** X11 — When no entry of the index shares a term with the question, every
    score is the bonus alone, [k] additions of 0.18 to 0.0 for the [k] key
    words of the question. Without a key word the answer is the fallback;
    with one, the bonus alone exceeds the threshold and the answer is built
    from the first chunk of the corpus, although nothing in it matches the
    question. *)
Theorem sans_terme_commun
    (chunks : list Chunk) (vecteurs : list Counter) (q now : string) :
  Forall (λ v, dom (nettoyer_et_vectoriser q) ## dom v) vecteurs →
  let k := nb_mots_forts q in
  let s := Nat.iter k (λ x, (x + 0.18)%float) 0%float in
  scores q vecteurs = (λ _, s) <$> vecteurs
  ∧ (k = 0%nat → moteur chunks vecteurs q now = Ok (reponse_defaut q now))
  ∧ ((1 ≤ k)%nat → vecteurs ≠ [] →
       (0.12 <? s)%float = true
       ∧ moteur chunks vecteurs q now
         = match chunks !! 0%nat with
           | Some c => reponse_trouvee q s (Some c) now
           | None => Leve IndexError
           end).
Proof.
  intros Hd k s. pose proof (proj1 (Forall_forall _ _) Hd) as Hd'.
  clear Hd. rename Hd' into Hd. simpl in Hd.
  assert (Hs : ∀ v, v ∈ vecteurs → score_de q (nettoyer_et_vectoriser q) v = s).
  { intros v Hv. unfold score_de.
    by rewrite (cosine_similarity_disjoints _ _ (Hd v Hv)), bonus_iter. }
  split; [|split].
  - unfold scores. apply list_fmap_ext. intros i v Hv. apply Hs.
    by eapply list_elem_of_lookup_2.
  - intros Hk. unfold moteur. rewrite boucle_scores_nuls; [done|].
    intros v Hv. rewrite (Hs v Hv). unfold s. by rewrite Hk.
  - intros Hk Hv.
    assert (H12 : (0.12 <? s)%float = true).
    { unfold s, k. rewrite <- bonus_iter. by apply bonus_mot_fort. }
    split; [done|].
    destruct vecteurs as [|v vecteurs]; [done|].
    unfold moteur. simpl. unfold etape. rewrite (Hs v) by apply list_elem_of_here.
    simpl. assert ((0 <? s)%float = true) as ->.
    { eapply ltb_trans; [|exact H12]. reflexivity. }
    destruct (chunks !! 0%nat) as [c|]; simpl; [|done].
    rewrite boucle_scores_egaux.
    + simpl. unfold seuil. by rewrite H12.
    + intros w Hw. apply Hs. by apply list_elem_of_further.
Qed.

Lemma sans_terme_commun_temoin :
  Forall (λ v, dom (nettoyer_et_vectoriser "Linux ?") ## dom v)
         (index_de corpus_voisins)
  ∧ ∃ r, moteur corpus_voisins (index_de corpus_voisins) "Linux ?" "t" = Ok r
         ∧ chunk_id r = 1 ∧ confiance r = 0.18%float.
Proof.
  assert (H : Forall (λ v, dom (nettoyer_et_vectoriser "Linux ?") ## dom v)
                (index_de corpus_voisins)).
  { apply (bool_decide_unpack _). vm_compute. reflexivity. }
  split; [exact H|].
  destruct (sans_terme_commun corpus_voisins (index_de corpus_voisins)
              "Linux ?" "t" H) as (_ & _ & Hm).
  destruct (Hm ltac:(vm_compute; lia) ltac:(discriminate)) as [_ ->].
  eexists. split; [vm_compute; reflexivity|]. split; reflexivity.
Defined.

(** ** The sign of the similarity

    The reference operations of [SpecFloat] give a number that is not
    negative for the square root, the product and the quotient of numbers
    that are not negative, whatever the rounding. *)

Section FaitsSigne.

Lemma shr_1_mantisse (r : shr_record) :
  0 ≤ shr_m r → shr_m (shr_1 r) = shr_m r / 2.
Proof.
  destruct r as [m b s]. intros Hm. cbn [shr_m] in Hm.
  by rewrite shr_1_spec.
Qed.

Lemma iter_shr_1_mantisse (n : nat) (r : shr_record) :
  0 ≤ shr_m r → shr_m (Nat.iter n shr_1 r) = shr_m r / 2 ^ Z.of_nat n.
Proof.
  intros Hm. induction n as [|n IH].
  - simpl. by rewrite Z.div_1_r.
  - rewrite Nat2Z.inj_succ, Z.pow_succ_r by lia. simpl.
    rewrite shr_1_mantisse, IH.
    + rewrite Z.div_div by (try apply pow2_pos; lia). f_equal. lia.
    + rewrite IH. apply Z.div_pos; [done|apply pow2_pos; lia].
Qed.

Lemma shr_record_of_loc_m (m : Z) (l : location) :
  shr_m (shr_record_of_loc m l) = m.
Proof. by destruct l as [|[]]. Qed.

(** The result of [shr_fexp]: the mantissa is divided by the power of two
    that the exponent gains. *)
Lemma shr_fexp_spec (m e : Z) (l : location) :
  0 ≤ m →
  let n := Z.max (fexp prec emax (Zdigits2 m + e) - e) 0 in
  shr_m (fst (shr_fexp prec emax m e l)) = m / 2 ^ n
  ∧ snd (shr_fexp prec emax m e l) = e + n.
Proof.
  intros Hm n. unfold shr_fexp, shr. subst n.
  destruct (fexp prec emax (Zdigits2 m + e) - e) as [|p|p] eqn:E; simpl.
  - rewrite shr_record_of_loc_m, Z.div_1_r. split; [done|lia].
  - rewrite iter_pos_nat, iter_shr_1_mantisse
      by (by rewrite shr_record_of_loc_m).
    rewrite shr_record_of_loc_m, positive_nat_Z.
    rewrite Z.max_l by lia. done.
  - rewrite shr_record_of_loc_m, Z.div_1_r. split; [done|lia].
Qed.

Lemma round_nearest_even_encadre (m : Z) (l : location) :
  m ≤ round_nearest_even m l ≤ m + 1.
Proof. destruct l as [|[]]; simpl; try lia. destruct (Z.even m); lia. Qed.

Lemma chiffres_positifs (m : Z) : 0 ≤ Zdigits2 m.
Proof. destruct m; simpl; lia. Qed.

Lemma chiffres_majore (m k : Z) : 0 ≤ m → 0 ≤ k → m < 2 ^ k → Zdigits2 m ≤ k.
Proof.
  intros Hm Hk H. destruct (Z.eq_dec m 0) as [->|Hz]; [simpl; lia|].
  destruct (chiffres_bornes m ltac:(lia)) as (H1 & H2 & _).
  destruct (Z_lt_le_dec k (Zdigits2 m)) as [Hlt|]; [|done].
  assert (2 ^ k ≤ 2 ^ (Zdigits2 m - 1)) by (apply Z.pow_le_mono_r; lia). lia.
Qed.

Lemma chiffres_croissants (a b : Z) : 0 ≤ a → a ≤ b → Zdigits2 a ≤ Zdigits2 b.
Proof.
  intros Ha Hab. destruct (Z.eq_dec a 0) as [->|Hz].
  - apply chiffres_positifs.
  - apply chiffres_mono; lia.
Qed.

Lemma chiffres_succ (m : Z) : 0 ≤ m → Zdigits2 (m + 1) ≤ Zdigits2 m + 1.
Proof.
  intros Hm. destruct (Z.eq_dec m 0) as [->|Hz]; [simpl; lia|].
  etrans; [apply (chiffres_croissants (m + 1) (m * 2 ^ 1)); lia|].
  rewrite chiffres_decale by lia. lia.
Qed.

Lemma chiffres_quotient (m n : Z) :
  0 ≤ m → 0 ≤ n → Zdigits2 (m / 2 ^ n) ≤ Z.max (Zdigits2 m - n) 0.
Proof.
  intros Hm Hn. pose proof (pow2_pos n Hn) as Hp.
  assert (Hq : 0 ≤ m / 2 ^ n) by (by apply Z.div_pos).
  destruct (Z.eq_dec m 0) as [->|Hz]; [rewrite Z.div_0_l by lia; simpl; lia|].
  destruct (chiffres_bornes m ltac:(lia)) as (H1 & _ & H3).
  apply chiffres_majore; [done|lia|].
  apply Z.div_lt_upper_bound; [done|].
  rewrite <- Z.pow_add_r by lia.
  eapply Z.lt_le_trans; [exact H3|]. apply Z.pow_le_mono_r; lia.
Qed.

(** The sign and the exponent of a rounded number. *)
Lemma binary_round_aux_positif (m e : Z) (l : location) :
  0 ≤ m →
  positif (binary_round_aux prec emax false m e l)
  ∧ (Z.max e (Z.max (Zdigits2 m + e - 52) (-1074)) ≤ 971 →
     positif_fini (binary_round_aux prec emax false m e l)).
Proof.
  intros Hm. unfold binary_round_aux.
  destruct (shr_fexp_spec m e l Hm) as [H1 H2].
  destruct (shr_fexp prec emax m e l) as [mrs' e'] eqn:E1. simpl in H1, H2.
  set (n1 := Z.max (fexp prec emax (Zdigits2 m + e) - e) 0) in *.
  assert (Hn1 : 0 ≤ n1) by lia.
  assert (Hm1 : 0 ≤ shr_m mrs')
    by (rewrite H1; apply Z.div_pos; [done|by apply pow2_pos]).
  pose proof (round_nearest_even_encadre (shr_m mrs') (loc_of_shr_record mrs'))
    as Hr.
  set (m2 := round_nearest_even (shr_m mrs') (loc_of_shr_record mrs')) in *.
  assert (Hm2 : 0 ≤ m2) by lia.
  destruct (shr_fexp_spec m2 e' loc_Exact Hm2) as [H3 H4].
  destruct (shr_fexp prec emax m2 e' loc_Exact) as [mrs'' e''] eqn:E2.
  simpl in H3, H4.
  set (n2 := Z.max (fexp prec emax (Zdigits2 m2 + e') - e') 0) in *.
  assert (Hm3 : 0 ≤ shr_m mrs'')
    by (rewrite H3; apply Z.div_pos; [done|apply pow2_pos; lia]).
  destruct (shr_m mrs'') as [|p|p] eqn:E3; [done| |lia].
  split; [by destruct (e'' <=? emax - prec)|].
  intros Hb.
  assert (He : e'' ≤ 971).
  2:{ destruct (Z.leb_spec e'' (emax - prec)) as [|Hlt]; [done|].
      change (emax - prec) with 971 in Hlt. lia. }
  assert (Hd1 : Zdigits2 (shr_m mrs') ≤ Z.max (Zdigits2 m - n1) 0)
    by (rewrite H1; by apply chiffres_quotient).
  assert (Hd2 : Zdigits2 m2 ≤ Zdigits2 (shr_m mrs') + 1).
  { etrans; [apply (chiffres_croissants m2 (shr_m mrs' + 1)); lia|].
    by apply chiffres_succ. }
  pose proof (chiffres_positifs m) as Hd0.
  rewrite H4, H2. subst n2. rewrite H2. subst n1.
  rewrite !fexp_val in *. lia.
Qed.


Lemma fini_valide (s : bool) (m : positive) (e : Z) :
  -1074 ≤ e ≤ 971 → Zdigits2 (Z.pos m) ≤ 53 →
  (e = -1074 ∨ Zdigits2 (Z.pos m) = 53) →
  valid_binary (S754_finite s m e) = true.
Proof.
  intros He Hd Hc. unfold valid_binary, bounded, canonical_mantissa.
  change (Z.pos (digits2_pos m)) with (Zdigits2 (Z.pos m)).
  rewrite fexp_val. change (emax - prec) with 971.
  apply andb_true_intro. split; [apply Z.eqb_eq|apply Z.leb_le]; lia.
Qed.

(** The rounding of a positive integer below 2^2097 units is finite and
    valid. *)
Lemma arrondi_binaire_fini (N : Z) :
  0 < N → N < 2 ^ 2097 →
  ∃ m e, arrondi_binaire false N = S754_finite false m e
         ∧ valid_binary (S754_finite false m e) = true.
Proof.
  intros HN Hb. destruct (chiffres_bornes N HN) as (Hd1 & Hd2 & Hd3).
  assert (Hd : Zdigits2 N ≤ 2097) by (apply chiffres_majore; lia).
  unfold arrondi_binaire.
  destruct (Z.leb_spec (Zdigits2 N) 53) as [H53|H53].
  - eexists _, _. split; [done|]. apply fini_valide; [lia| |by left];
      rewrite Z2Pos.id by lia; lia.
  - destruct (quotient_borne N HN H53) as [Hq1 Hq2].
    set (n := Zdigits2 N - 53) in *.
    pose proof (arrondi_pair_encadre N (2 ^ n) ltac:(apply pow2_pos; lia)) as Hk.
    set (k := arrondi_pair N (2 ^ n)) in *.
    destruct (Z.eqb_spec k (2 ^ 53)) as [E|E].
    + rewrite (proj2 (Z.leb_le (-1074 + n + 1) 971)) by lia.
      eexists _, _. split; [done|]. apply fini_valide; [lia| |right];
        rewrite Z2Pos.id by (by apply pow2_pos); by vm_compute.
    + rewrite (proj2 (Z.leb_le (-1074 + n) 971)) by lia.
      assert (Hkd : Zdigits2 k = 53) by (apply chiffres_unique; lia).
      eexists _, _. split; [done|]. apply fini_valide; [lia| |right];
        rewrite Z2Pos.id by lia; lia.
Qed.

(** [float(z)] for [0 <= z < 2^1023] is a number that is not negative. *)
Lemma Z2F_positif (z : Z) :
  0 ≤ z → z < 2 ^ 1023 → positif_fini (Prim2SF (Z2F z)).
Proof.
  intros Hz Hb. unfold Z2F. destruct z as [|p|p]; [by vm_compute| |lia].
  unfold binary_normalize.
  rewrite binary_round_spec by lia.
  destruct (arrondi_binaire_fini (Z.pos p * 2 ^ (0 + 1074))) as (m & e & -> & Hv).
  - lia.
  - change (2 ^ 2097) with (2 ^ 1023 * 2 ^ (0 + 1074)).
    apply Z.mul_lt_mono_pos_r; [by apply pow2_pos|done].
  - by rewrite Prim2SF_SF2Prim.
Qed.

(** The square root of a valid number that is not negative. *)
Lemma SFsqrt_positif (x : spec_float) :
  valid_binary x = true → positif_fini x →
  positif_fini (SFsqrt prec emax x).
Proof.
  destruct x as [[]|[]| |[] mx ex]; try done. intros Hv _.
  apply valide_fini in Hv as (He & Hd & _).
  unfold SFsqrt, SFsqrt_core_binary.
  set (d := Zdigits2 (Z.pos mx)) in *.
  set (e' := Z.min (fexp prec emax (Z.div2 (d + ex + 1))) (Z.div2 ex)).
  assert (He' : e' ≤ ex / 2) by (unfold e'; rewrite (Z.div2_div ex); lia).
  assert (He'' : -1074 ≤ e').
  { unfold e'. rewrite fexp_val, (Z.div2_div ex).
    assert (-537 ≤ ex / 2) by (apply Z.div_le_lower_bound; lia). lia. }
  pose proof (Z.mul_div_le ex 2 ltac:(lia)) as Hdiv.
  set (s := ex - 2 * e').
  assert (Hs : 0 ≤ s) by (unfold s; lia).
  set (m' := match s with
             | 0 => Z.pos mx
             | Z.pos _ => Z.shiftl (Z.pos mx) s
             | Z.neg _ => 0
             end).
  assert (Hm' : m' = Z.pos mx * 2 ^ s).
  { unfold m'. destruct s as [|p|p] eqn:Es; [lia| |lia].
    by rewrite Z.shiftl_mul_pow2. }
  pose proof (Z.sqrtrem_spec m' ltac:(rewrite Hm'; pose proof (pow2_pos s Hs); lia))
    as Hsq.
  destruct (Z.sqrtrem m') as [q r]. destruct Hsq as [Hqr Hr].
  assert (Hq : 0 ≤ q) by lia.
  apply binary_round_aux_positif; [done|].
  destruct (chiffres_bornes (Z.pos mx) ltac:(lia)) as (_ & _ & Hmx). fold d in Hmx.
  set (k := (d + s + 1) / 2).
  pose proof (Z.mul_div_le (d + s + 1) 2 ltac:(lia)) as Hk1.
  pose proof (Z.mul_succ_div_gt (d + s + 1) 2 ltac:(lia)) as Hk2. fold k in Hk1, Hk2.
  assert (Hk : 0 ≤ k) by (unfold d in *; simpl in *; lia).
  assert (Hqk : q < 2 ^ k).
  { destruct (Z_lt_le_dec q (2 ^ k)) as [|Hge]; [done|]. exfalso.
    assert (2 ^ k * 2 ^ k ≤ q * q) by (apply Z.mul_le_mono_nonneg; pose proof (pow2_pos k Hk); lia).
    rewrite <- Z.pow_add_r in H by lia.
    assert (m' < 2 ^ (d + s)).
    { rewrite Hm', Z.pow_add_r by (unfold d; simpl; lia).
      apply Z.mul_lt_mono_pos_r; [by apply pow2_pos|done]. }
    assert (2 ^ (d + s) ≤ 2 ^ (k + k)) by (apply Z.pow_le_mono_r; lia).
    lia. }
  pose proof (chiffres_majore q k Hq Hk Hqk) as Hdq.
  assert (k + e' = (d + ex + 1) / 2).
  { unfold k, s. replace (d + (ex - 2 * e') + 1) with (d + ex + 1 + (- e') * 2) by lia.
    rewrite Z.div_add by lia. lia. }
  assert ((d + ex + 1) / 2 < 513) by (apply Z.div_lt_upper_bound; lia).
  assert (ex / 2 < 486) by (apply Z.div_lt_upper_bound; lia).
  lia.
Qed.

Lemma SFmul_positif (x y : spec_float) :
  positif_fini x → positif_fini y → positif (SFmul prec emax x y).
Proof.
  destruct x as [[]|[]| |[] mx ex], y as [[]|[]| |[] my ey]; try done.
  intros _ _. simpl. by apply binary_round_aux_positif.
Qed.

Lemma SFdiv_positif (x y : spec_float) :
  positif_fini x → positif y → y ≠ S754_zero false →
  positif (SFdiv prec emax x y).
Proof.
  destruct x as [[]|[]| |[] mx ex], y as [[]|[]| |[] my ey]; try done.
  intros _ _ _. unfold SFdiv, SFdiv_core_binary. simpl xorb.
  set (m' := match _ with 0 => Z.pos mx | Z.pos _ => _ | Z.neg _ => 0 end).
  assert (Hm' : 0 ≤ m').
  { unfold m'. destruct (ex - ey - _) eqn:E; [lia| |lia].
    rewrite Z.shiftl_mul_pow2 by lia. pose proof (pow2_pos (Z.pos p)). lia. }
  pose proof (Z_div_mod m' (Z.pos my) ltac:(lia)) as Hdm.
  destruct (Z.div_eucl m' (Z.pos my)) as [q r]. destruct Hdm as [Hq Hr].
  apply binary_round_aux_positif. nia.
Qed.

Lemma positif_leb (x : float) : positif (Prim2SF x) → (0 <=? x)%float = true.
Proof.
  intros H. rewrite FloatAxioms.leb_spec.
  change (Prim2SF 0) with (S754_zero false).
  by destruct (Prim2SF x) as [[]|[]| |[]].
Qed.

End FaitsSigne.

(** The similarity of two vectors with counts that are not negative, as a
    number of [SpecFloat]. *)
Lemma cosinus_positif (vec1 vec2 : Counter) :
  map_Forall (λ _ n, 0 ≤ n) vec1 → map_Forall (λ _ n, 0 ≤ n) vec2 →
  somme_carres vec1 < 2 ^ 1023 → somme_carres vec2 < 2 ^ 1023 →
  positif (Prim2SF (cosine_similarity vec1 vec2)).
Proof.
  intros H1 H2 B1 B2.
  destruct (cosinus_exact_borne vec1 vec2 H1 H2) as [Hn Hcs].
  unfold cosine_similarity. destruct (decide _); [done|].
  set (num := produit_scalaire vec1 vec2 (dom vec1 ∩ dom vec2)) in *.
  set (den := (sqrt (Z2F (somme_carres vec1))
               * sqrt (Z2F (somme_carres vec2)))%float).
  assert (P1 : 0 ≤ somme_carres vec1).
  { rewrite somme_carres_cles. apply somme_positive. intros t _. nia. }
  assert (P2 : 0 ≤ somme_carres vec2).
  { rewrite somme_carres_cles. apply somme_positive. intros t _. nia. }
  assert (Hnum : num < 2 ^ 1023).
  { destruct (Z_lt_le_dec num (2 ^ 1023)) as [|Hge]; [done|]. exfalso.
    assert (2 ^ 1023 * 2 ^ 1023 ≤ num * num)
      by (apply Z.mul_le_mono_nonneg; lia).
    assert (somme_carres vec1 * somme_carres vec2 < 2 ^ 1023 * 2 ^ 1023)
      by (apply Z.mul_lt_mono_nonneg; lia).
    lia. }
  assert (Hden : positif (Prim2SF den)).
  { unfold den. rewrite FloatAxioms.mul_spec, !FloatAxioms.sqrt_spec.
    apply SFmul_positif; apply SFsqrt_positif;
      try apply Prim2SF_valid; by apply Z2F_positif. }
  destruct (den =? 0)%float eqn:E; simpl; [done|].
  rewrite FloatAxioms.div_spec.
  apply SFdiv_positif; [by apply Z2F_positif|done|].
  intros Hz. rewrite FloatAxioms.eqb_spec, Hz in E. done.
Qed.

(** X19 — For two term vectors whose counts are not negative and whose
    sums of squares are below 2^1023 (where [float] of an [int] still
    returns), [cosine_similarity] returns a number: never a NaN, and never
    negative, through the roundings of the two square roots, of their
    product and of the quotient. *)
Theorem cosine_similarity_positive (vec1 vec2 : Counter) :
  map_Forall (λ _ n, 0 ≤ n) vec1 → map_Forall (λ _ n, 0 ≤ n) vec2 →
  somme_carres vec1 < 2 ^ 1023 → somme_carres vec2 < 2 ^ 1023 →
  non_nan (cosine_similarity vec1 vec2)
  ∧ (0 <=? cosine_similarity vec1 vec2)%float = true
  ∧ (cosine_similarity vec1 vec2 <? 0)%float = false.
Proof.
  intros H1 H2 B1 B2.
  pose proof (positif_leb _ (cosinus_positif vec1 vec2 H1 H2 B1 B2)) as H.
  split; [by apply leb_non_nan in H as [_ ?]|]. split; [exact H|].
  by apply leb_non_ltb.
Qed.

Lemma cosine_similarity_positive_temoin :
  map_Forall (λ _ n, 0 ≤ n) vecteur_trois
  ∧ somme_carres vecteur_trois < 2 ^ 1023
  ∧ non_nan (cosine_similarity vecteur_trois vecteur_trois).
Proof.
  assert (H : map_Forall (λ _ n, 0 ≤ n) vecteur_trois)
    by (apply (bool_decide_unpack _); vm_compute; reflexivity).
  assert (B : somme_carres vecteur_trois < 2 ^ 1023) by (vm_compute; reflexivity).
  split; [exact H|]. split; [exact B|].
  exact (proj1 (cosine_similarity_positive vecteur_trois vecteur_trois H H B B)).
Defined.

(** ** The size of a term vector *)

Section FaitsTaille.

Lemma somme_valeurs_insert (m : Counter) (k : string) (v : Z) :
  m !! k = None → somme_valeurs (<[k := v]> m) = v + somme_valeurs m.
Proof.
  intros H. unfold somme_valeurs.
  rewrite (somme_Permutation _ (((k, v) :: map_to_list m).*2)); [done|].
  by apply fmap_Permutation, map_to_list_insert.
Qed.

Lemma somme_carres_insert (m : Counter) (k : string) (v : Z) :
  m !! k = None → somme_carres (<[k := v]> m) = v * v + somme_carres m.
Proof.
  intros H. unfold somme_carres.
  rewrite (somme_Permutation _ ((λ kv, kv.2 * kv.2) <$> (k, v) :: map_to_list m));
    [done|].
  by apply fmap_Permutation, map_to_list_insert.
Qed.

Lemma somme_valeurs_positive (m : Counter) :
  map_Forall (λ _ n, 0 ≤ n) m → 0 ≤ somme_valeurs m.
Proof.
  induction m as [|k v m Hk IH] using map_ind; intros H.
  - unfold somme_valeurs. by rewrite map_to_list_empty.
  - rewrite somme_valeurs_insert by done.
    apply map_Forall_insert in H as [Hv H]; [|done]. specialize (IH H). lia.
Qed.

(** Counting one more token. *)
Lemma compter_pas (m : Counter) (w : string) :
  map_Forall (λ _ n, 0 ≤ n) m →
  let m' := <[w := default 0 (m !! w) + 1]> m in
  map_Forall (λ _ n, 0 ≤ n) m'
  ∧ somme_valeurs m' = somme_valeurs m + 1
  ∧ somme_carres m' ≤ somme_carres m + 2 * somme_valeurs m + 1.
Proof.
  intros Hpos m'. subst m'.
  pose proof (somme_valeurs_positive m Hpos) as Hs.
  destruct (m !! w) as [c|] eqn:E; simpl.
  - pose proof (Hpos w c E) as Hc. simpl in Hc.
    assert (H0 : map_Forall (λ _ n, 0 ≤ n) (delete w m)).
    { intros k v Hk. apply lookup_delete_Some in Hk as [_ Hk]. by apply (Hpos k v). }
    pose proof (somme_valeurs_positive _ H0) as Hs0.
    assert (Hw : delete w m !! w = None) by apply lookup_delete_eq.
    assert (Em : m = <[w := c]> (delete w m))
      by (symmetry; by apply insert_delete_id).
    clear E Hpos. revert H0 Hs0 Hw Em Hs. generalize (delete w m).
    intros m0 H0 Hs0 Hw -> Hs. rewrite insert_insert_eq.
    rewrite !somme_valeurs_insert, !somme_carres_insert in * by done.
    split; [|split; [lia|nia]].
    apply map_Forall_insert; [done|]. split; [lia|done].
  - rewrite somme_valeurs_insert, somme_carres_insert by done.
    split; [|split; [lia|lia]].
    apply map_Forall_insert; [done|]. split; [lia|done].
Qed.

Lemma foldl_compter_taille (mots : list string) (m : Counter) :
  map_Forall (λ _ n, 0 ≤ n) m →
  somme_carres m ≤ somme_valeurs m * somme_valeurs m →
  let m' := foldl (λ cpt w, <[w := default 0 (cpt !! w) + 1]> cpt) m mots in
  map_Forall (λ _ n, 0 ≤ n) m'
  ∧ somme_valeurs m' = somme_valeurs m + Z.of_nat (length mots)
  ∧ somme_carres m' ≤ somme_valeurs m' * somme_valeurs m'.
Proof.
  revert m. induction mots as [|w mots IH]; intros m Hpos Hq; simpl.
  - split; [done|]. split; [lia|done].
  - destruct (compter_pas m w Hpos) as (Hpos' & Hs' & Hq').
    pose proof (somme_valeurs_positive m Hpos) as Hs.
    destruct (IH _ Hpos' ltac:(nia)) as (H1 & H2 & H3).
    split; [done|]. split; [lia|done].
Qed.

(** The sum of the squares of the counts of a token list is at most the
    square of its length. *)
Lemma somme_carres_compter (mots : list string) :
  map_Forall (λ _ n, 0 ≤ n) (compter mots)
  ∧ somme_carres (compter mots)
    ≤ Z.of_nat (length mots) * Z.of_nat (length mots).
Proof.
  destruct (foldl_compter_taille mots ∅) as (H1 & H2 & H3).
  - apply map_Forall_empty.
  - unfold somme_carres, somme_valeurs. by rewrite map_to_list_empty.
  - unfold compter. split; [done|]. rewrite H2 in H3.
    assert (E : somme_valeurs (∅ : Counter) = 0)
      by (unfold somme_valeurs; by rewrite map_to_list_empty).
    rewrite E in H3. done.
Qed.

Lemma length_mots_de (s acc : string) :
  (length (mots_de acc s)
   ≤ String.length s + (if String.eqb acc "" then 0 else 1))%nat.
Proof.
  revert acc. induction s as [|c s IH]; intros acc; simpl.
  - destruct acc; simpl; lia.
  - destruct (is_word c).
    + etrans; [apply IH|]. destruct acc; simpl; lia.
    + rewrite length_app. pose proof (IH ""). simpl in *.
      destruct acc; simpl in *; lia.
Qed.

Lemma length_lower (s : string) : String.length (lower s) = String.length s.
Proof. induction s as [|c s IH]; simpl; [done|]. by rewrite IH. Qed.

(** The counts of the term vector of a text are not negative, and the sum
    of their squares is at most the square of its length. *)
Lemma somme_carres_texte (texte : string) :
  map_Forall (λ _ n, 0 ≤ n) (nettoyer_et_vectoriser texte)
  ∧ somme_carres (nettoyer_et_vectoriser texte)
    ≤ Z.of_nat (String.length texte) * Z.of_nat (String.length texte).
Proof.
  unfold nettoyer_et_vectoriser.
  set (P := λ m : string, (m ∉ stopwords) ∧ (2 < String.length m)%nat).
  destruct (somme_carres_compter (filter P (findall_w (lower texte)))) as [H1 H2].
  split; [done|]. etrans; [exact H2|].
  pose proof (length_filter P (findall_w (lower texte))) as H3.
  pose proof (length_mots_de (lower texte) "") as H4. simpl in H4.
  fold (findall_w (lower texte)) in H4. rewrite length_lower in H4.
  apply Z.mul_le_mono_nonneg; lia.
Qed.

End FaitsTaille.

(** The similarity of the term vectors of two texts. *)
Lemma cosinus_textes_positif (a b : string) :
  Z.of_nat (String.length a) < 2 ^ 511 →
  Z.of_nat (String.length b) < 2 ^ 511 →
  (0 <=? cosine_similarity (nettoyer_et_vectoriser a)
                           (nettoyer_et_vectoriser b))%float = true.
Proof.
  intros Ha Hb.
  destruct (somme_carres_texte a) as [Pa Qa].
  destruct (somme_carres_texte b) as [Pb Qb].
  assert (B : ∀ n : Z, 0 ≤ n → n < 2 ^ 511 → n * n < 2 ^ 1023).
  { intros n H0 Hn.
    assert (n * n ≤ (2 ^ 511 - 1) * (2 ^ 511 - 1))
      by (apply Z.mul_le_mono_nonneg; lia).
    assert ((2 ^ 511 - 1) * (2 ^ 511 - 1) < 2 ^ 1023) by (by vm_compute).
    lia. }
  apply positif_leb, cosinus_positif; try done.
  - eapply Z.le_lt_trans; [exact Qa|]. apply B; lia.
  - eapply Z.le_lt_trans; [exact Qb|]. apply B; lia.
Qed.

(** X20 — For a question and a text of fewer than 2^511 characters each,
    the similarity of their term vectors is a number that is not negative,
    and so is the score that the bonus of the question makes of it: the
    loop never compares a NaN, and no score is below the initial 0.0. *)
Theorem similarite_positive (q t : string) :
  Z.of_nat (String.length q) < 2 ^ 511 →
  Z.of_nat (String.length t) < 2 ^ 511 →
  let s := cosine_similarity (nettoyer_et_vectoriser q)
             (nettoyer_et_vectoriser t) in
  non_nan s ∧ (0 <=? s)%float = true
  ∧ non_nan (bonus q s) ∧ (s <=? bonus q s)%float = true
  ∧ (0 <=? score_de q (nettoyer_et_vectoriser q)
                    (nettoyer_et_vectoriser t))%float = true.
Proof.
  intros Hq Ht s. pose proof (cosinus_textes_positif q t Hq Ht) as H.
  fold s in H. assert (Hn : non_nan s) by (by apply leb_non_nan in H as [_ ?]).
  pose proof (bonus_minore q s Hn) as Hb.
  split; [done|]. split; [done|].
  split; [by apply leb_non_nan in Hb as [_ ?]|]. split; [done|].
  unfold score_de. fold s. by eapply leb_trans.
Qed.

Lemma similarite_positive_temoin :
  Z.of_nat (String.length "Linux libre") < 2 ^ 511
  ∧ Z.of_nat (String.length "Une forge LIBRE") < 2 ^ 511
  ∧ non_nan (cosine_similarity (nettoyer_et_vectoriser "Linux libre")
               (nettoyer_et_vectoriser "Une forge LIBRE")).
Proof.
  assert (Ha : Z.of_nat (String.length "Linux libre") < 2 ^ 511)
    by (vm_compute; reflexivity).
  assert (Hb : Z.of_nat (String.length "Une forge LIBRE") < 2 ^ 511)
    by (vm_compute; reflexivity).
  split; [exact Ha|]. split; [exact Hb|].
  exact (proj1 (similarite_positive "Linux libre" "Une forge LIBRE" Ha Hb)).
Defined.




(** * Properties of the scraping service *)

Import Scrap.

(** ** The statistics *)

Lemma somme_app (l k : list Z) : somme (l ++ k) = somme l + somme k.
Proof.
  induction l as [|x l IH]; [done|].
  rewrite <- app_comm_cons, !somme_cons, IH. lia.
Qed.

Lemma somme_caracteres_positive (chunks : list ChunkJSON) :
  0 ≤ somme_caracteres chunks.
Proof.
  unfold somme_caracteres. induction chunks as [|c chunks IH]; [done|].
  rewrite fmap_cons, somme_cons. lia.
Qed.

Lemma size_list_to_set_le (l : list string) :
  (size (list_to_set l : gset string) ≤ length l)%nat.
Proof.
  induction l as [|x l IH].
  - rewrite list_to_set_nil, size_empty. done.
  - rewrite list_to_set_cons, size_union_alt, size_singleton.
    assert (H : list_to_set l ∖ {[x]} ⊆ (list_to_set l : gset string))
      by (by apply subseteq_difference_l).
    apply subseteq_size in H. simpl. lia.
Qed.

Lemma size_list_to_set_pos (l : list string) :
  l ≠ [] → (1 ≤ size (list_to_set l : gset string))%nat.
Proof.
  destruct l as [|x l]; [done|]. intros _. rewrite list_to_set_cons.
  assert (H : ({[x]} : gset string) ⊆ {[x]} ∪ list_to_set l)
    by apply union_subseteq_l.
  apply subseteq_size in H. by rewrite size_singleton in H.
Qed.

Lemma size_list_to_set_remove_dups (l : list string) :
  size (list_to_set l : gset string) = length (remove_dups l).
Proof.
  rewrite <- (size_list_to_set (C:=gset string) (remove_dups l))
    by apply NoDup_remove_dups.
  f_equal. apply set_eq. intros x.
  by rewrite !elem_of_list_to_set, elem_of_remove_dups.
Qed.

Lemma list_to_set_constante (x : string) (l : list string) :
  l ≠ [] → Forall (λ y, y = x) l → (list_to_set l : gset string) = {[x]}.
Proof.
  intros Hl H. apply set_eq. intros y.
  rewrite elem_of_list_to_set, elem_of_singleton. split.
  - intros Hy. by apply (proj1 (Forall_forall _ _) H).
  - intros ->. destruct l as [|z l]; [done|].
    apply Forall_cons in H as [-> _]. apply list_elem_of_here.
Qed.

(** Once the file is loaded the statistics are computed: the guard
    [total_chunks > 0] keeps the two divisions from a zero divisor. *)
Lemma get_data_stats_Retour (d : Donnees) :
  let chunks := default [] (j_chunks d) in
  let n := Z.of_nat (length chunks) in
  get_data_stats (Retour d)
  = Retour {| total_chunks := n;
              total_tokens := somme_tokens chunks;
              total_characters := somme_caracteres chunks;
              unique_sources := Z.of_nat (size (sources chunks));
              export_date := j_metadata d ≫= j_export_date;
              average_chunk_size :=
                if 0 <? n then somme_caracteres chunks / n else 0;
              average_tokens_per_chunk :=
                if 0 <? n then somme_tokens chunks / n else 0 |}.
Proof.
  intros chunks n. unfold get_data_stats. simpl. fold chunks. fold n.
  destruct (0 <? n) eqn:E; simpl; [|done].
  apply Z.ltb_lt in E. unfold floordiv.
  destruct (n =? 0) eqn:E0; [apply Z.eqb_eq in E0; lia|]. done.
Qed.

(** X12 — The two averages of [GET /data/stats] are floor averages: with
    [n > 0] chunks, [average * n <= total < (average + 1) * n] for the
    characters and for the tokens; with no chunk (or no [chunks] key) the
    route divides nothing and reports 0 everywhere. The number of
    characters is never negative. *)
Theorem stats_moyennes (d : Donnees) (st : Statistiques) :
  get_data_stats (Retour d) = Retour st →
  let n := total_chunks st in
  n = Z.of_nat (length (default [] (j_chunks d)))
  ∧ 0 ≤ total_characters st
  ∧ (n = 0 →
       total_tokens st = 0 ∧ total_characters st = 0 ∧ unique_sources st = 0
       ∧ average_chunk_size st = 0 ∧ average_tokens_per_chunk st = 0)
  ∧ (0 < n →
       average_chunk_size st * n ≤ total_characters st
         < (average_chunk_size st + 1) * n
       ∧ average_tokens_per_chunk st * n ≤ total_tokens st
         < (average_tokens_per_chunk st + 1) * n
       ∧ 0 ≤ average_chunk_size st).
Proof.
  rewrite get_data_stats_Retour. intros [= <-]. simpl.
  set (chunks := default [] (j_chunks d)).
  pose proof (somme_caracteres_positive chunks) as Hc.
  split; [done|]. split; [done|]. split.
  - intros Hn. assert (chunks = []) as -> by (apply nil_length_inv; lia).
    done.
  - intros Hn. apply Z.ltb_lt in Hn as Hb. rewrite Hb.
    set (n := Z.of_nat (length chunks)) in *.
    pose proof (Z.mul_div_le (somme_caracteres chunks) n Hn).
    pose proof (Z.mul_succ_div_gt (somme_caracteres chunks) n Hn).
    pose proof (Z.mul_div_le (somme_tokens chunks) n Hn).
    pose proof (Z.mul_succ_div_gt (somme_tokens chunks) n Hn).
    pose proof (Z.div_pos (somme_caracteres chunks) n Hc Hn). lia.
Qed.

Lemma stats_moyennes_temoin :
  ∃ st, get_data_stats (Retour jouet_donnees) = Retour st
        ∧ total_chunks st = 3 ∧ total_tokens st = 11 ∧ total_characters st = 15
        ∧ average_chunk_size st = 5 ∧ average_tokens_per_chunk st = 3
        ∧ 0 ≤ total_characters st.
Proof.
  eexists. split; [reflexivity|].
  repeat (split; [reflexivity|]).
  exact (proj1 (proj2 (stats_moyennes jouet_donnees _ eq_refl))).
Defined.

(** X13 — [unique_sources] is the number of distinct values of
    [source_url] over the chunks, an absent key counting as the empty
    address: it is at most the number of chunks, at least 1 when there is a
    chunk, and exactly 1 when every chunk lacks its address or has the
    empty one. *)
Theorem stats_sources_uniques (d : Donnees) (st : Statistiques) :
  get_data_stats (Retour d) = Retour st →
  let chunks := default [] (j_chunks d) in
  let adresses := (λ chunk, default "" (j_source_url chunk)) <$> chunks in
  unique_sources st = Z.of_nat (length (remove_dups adresses))
  ∧ 0 ≤ unique_sources st ≤ total_chunks st
  ∧ (chunks ≠ [] → 1 ≤ unique_sources st)
  ∧ (chunks ≠ [] →
     Forall (λ chunk, j_source_url chunk = None ∨ j_source_url chunk = Some "")
            chunks →
     unique_sources st = 1).
Proof.
  rewrite get_data_stats_Retour. intros [= <-]. simpl.
  set (chunks := default [] (j_chunks d)). unfold sources.
  set (adresses := (λ chunk, default "" (j_source_url chunk)) <$> chunks).
  split; [by rewrite size_list_to_set_remove_dups|]. split; [|split].
  - pose proof (size_list_to_set_le adresses) as H.
    unfold adresses in H at 2. rewrite length_fmap in H. lia.
  - intros Hc. pose proof (size_list_to_set_pos adresses) as H.
    assert (adresses ≠ []) by (unfold adresses; by destruct chunks).
    specialize (H ltac:(done)). lia.
  - intros Hc Hf. rewrite (list_to_set_constante "" adresses).
    + by rewrite size_singleton.
    + unfold adresses; by destruct chunks.
    + unfold adresses. apply Forall_fmap. eapply Forall_impl; [exact Hf|].
      simpl. intros c [->| ->]; done.
Qed.

Lemma stats_sources_uniques_temoin :
  ∃ st, get_data_stats (Retour jouet_donnees) = Retour st
        ∧ unique_sources st = 2
        ∧ 0 ≤ unique_sources st ≤ total_chunks st.
Proof.
  eexists. split; [reflexivity|]. split; [vm_compute; reflexivity|].
  exact (proj1 (proj2 (stats_sources_uniques jouet_donnees _ eq_refl))).
Defined.

(** X14 — The statistics do not depend on the order of the chunks in the
    file. *)
Theorem stats_ordre_indifferent (chunks chunks' : list ChunkJSON)
    (m : option Metadata) :
  chunks ≡ₚ chunks' →
  get_data_stats (Retour {| j_chunks := Some chunks; j_metadata := m |})
  = get_data_stats (Retour {| j_chunks := Some chunks'; j_metadata := m |}).
Proof.
  intros H. rewrite !get_data_stats_Retour. simpl.
  assert (Hl : length chunks = length chunks') by (by apply Permutation_length).
  assert (Ht : somme_tokens chunks = somme_tokens chunks')
    by (unfold somme_tokens; apply somme_Permutation; by rewrite H).
  assert (Hc : somme_caracteres chunks = somme_caracteres chunks')
    by (unfold somme_caracteres; apply somme_Permutation; by rewrite H).
  assert (Hs : sources chunks = sources chunks')
    by (unfold sources; by rewrite H).
  by rewrite Hl, Ht, Hc, Hs.
Qed.

Lemma stats_ordre_indifferent_temoin :
  get_data_stats
    (Retour {| j_chunks := Some (default [] (j_chunks jouet_donnees));
               j_metadata := None |})
  = get_data_stats
      (Retour {| j_chunks := Some (reverse (default [] (j_chunks jouet_donnees)));
                 j_metadata := None |}).
Proof.
  apply (stats_ordre_indifferent (default [] (j_chunks jouet_donnees))
           (reverse (default [] (j_chunks jouet_donnees))) None).
  symmetry. apply reverse_Permutation.
Defined.

(** X15 — [GET /data/stats] fails only when the file cannot be loaded: a
    missing file gives status 404, any other [Exception] status 500 with
    its message, and an exception outside [Exception] passes through. Once
    the file is loaded, statistics are returned whatever keys are absent
    from the file or from its chunks. *)
Theorem stats_echecs (charge : issue Levee Donnees) :
  match charge with
  | Retour d => ∃ st, get_data_stats charge = Retour st
  | Echec e =>
      match classe e with
      | C_FileNotFoundError =>
          ∃ detail, get_data_stats charge = Echec (HTTPException 404 detail)
      | C_BaseException => get_data_stats charge = Echec (DeComposant e)
      | C_HTTPException _ _ | C_Exception =>
          get_data_stats charge = Echec (HTTPException 500 (str e))
      end
  end.
Proof.
  destruct charge as [d|e].
  - rewrite get_data_stats_Retour. by eexists.
  - unfold get_data_stats. simpl. destruct (classe e); eauto.
Qed.

(** ** The scraping route *)

Section FaitsScrape.

Context {Document Chunker : Type}.
Variable settings : Settings.
Variable scrape_multiple_urls : list string → issue Levee (list Document).
Variable chunker : Chunker.
Variable TextChunker : option Z → option Z → issue Levee Chunker.
Variable chunk_documents :
  Chunker → list Document → issue Levee (list ChunkJSON).
Variable export : list ChunkJSON → string → issue Levee string.

(** The runs of the route, by the outcomes of the calls. *)
Lemma scrape_urls_cas (request : ScrapeRequest) :
  let u := urls request in
  let f := OUTPUT_FILE settings in
  let a1 := @appel_scrape_multiple_urls Document Chunker u in
  let a2 :=
    if bool_decide (chunk_size request ≠ Some (CHUNK_SIZE settings))
       || bool_decide (chunk_overlap request ≠ Some (CHUNK_OVERLAP settings))
    then [@appel_TextChunker Document Chunker
            (chunk_size request) (chunk_overlap request)]
    else [] in
  scrape_urls settings scrape_multiple_urls chunker TextChunker
    chunk_documents export request =
  match scrape_multiple_urls u with
  | Echec l => (rattraper_scrape (Echec (DeComposant l)), [a1])
  | Retour [] =>
      (Echec (HTTPException 400
                ("Aucun document n'a pu " +:+ car 234 +:+ "tre scrap" +:+ car 233)),
       [a1])
  | Retour docs =>
      match chunker_de settings chunker TextChunker request with
      | Echec l => (rattraper_scrape (Echec (DeComposant l)), a1 :: a2)
      | Retour ch =>
          let a3 := appel_chunk_documents ch docs in
          match chunk_documents ch docs with
          | Echec l =>
              (rattraper_scrape (Echec (DeComposant l)), a1 :: a2 ++ [a3])
          | Retour cs =>
              let a4 := appel_export cs f in
              match export cs f with
              | Echec l =>
                  (rattraper_scrape (Echec (DeComposant l)),
                   a1 :: a2 ++ [a3; a4])
              | Retour out =>
                  (Retour {| success := true;
                             message := "Scraping termin" +:+ car 233
                                        +:+ " avec succ" +:+ car 232 +:+ "s";
                             total_documents := Z.of_nat (length docs);
                             r_total_chunks := Z.of_nat (length cs);
                             r_total_tokens := somme_tokens cs;
                             output_file := out |},
                   a1 :: a2 ++ [a3; a4])
              end
          end
      end
  end.
Proof.
  intros u f a1 a2.
  unfold scrape_urls, corps_scrape_urls, chunker_de, mbind, prog_bind, appeler,
    lever, mret, prog_ret.
  fold u. fold f. simpl.
  destruct (scrape_multiple_urls u) as [[|doc docs]|l]; [done| |done].
  subst a2. destruct (bool_decide _ || bool_decide _); simpl.
  - destruct (TextChunker _ _) as [ch|l]; simpl; [|done].
    destruct (chunk_documents ch _) as [cs|l]; simpl; [|done].
    destruct (export cs f) as [out|l]; simpl; done.
  - destruct (chunk_documents chunker _) as [cs|l]; simpl; [|done].
    destruct (export cs f) as [out|l]; simpl; done.
Qed.

Lemma rattraper_scrape_composant (A : Type) (l : Levee) :
  rattraper_scrape (A:=A) (Echec (DeComposant l))
  = match classe l with
    | C_HTTPException _ _ | C_BaseException => Echec (DeComposant l)
    | C_FileNotFoundError | C_Exception => Echec (HTTPException 500 (str l))
    end.
Proof. done. Qed.

End FaitsScrape.

(** In a journal that ends with its one element of a kind, that element
    stands only there. *)
Lemma dernier_seul {A : Type} (P : A → Prop) (pre : list A) (e y : A)
    (j1 j2 : list A) :
  Forall (λ x, ¬ P x) pre → P y → pre ++ [e] = j1 ++ y :: j2 →
  j2 = [] ∧ j1 = pre ∧ y = e.
Proof.
  intros Hpre Hy. revert j1. induction pre as [|x pre IH]; intros j1 H.
  - destruct j1 as [|z j1]; simpl in H.
    + by injection H as <- <-.
    + injection H as _ H. by destruct j1.
  - apply Forall_cons in Hpre as [Hx Hpre]. destruct j1 as [|z j1]; simpl in H.
    + injection H as -> _. done.
    + injection H as <- H. destruct (IH Hpre j1 H) as (-> & -> & ->). done.
Qed.

Lemma sans_element {A : Type} (P : A → Prop) (l : list A) (y : A)
    (j1 j2 : list A) :
  Forall (λ x, ¬ P x) l → P y → l ≠ j1 ++ y :: j2.
Proof.
  intros Hl Hy ->. apply Forall_app in Hl as [_ Hl].
  apply Forall_cons in Hl as [Hl _]. done.
Qed.

(** X16 — [POST /scrape] calls the scraper first. It exports at most once:
    an export stands in the journal of the calls only as its last call,
    with no export before it, to [settings.OUTPUT_FILE], and with the chunks
    that the chunker of the request returned for a scrape of at least one
    document. A request whose scrape returns no document is answered with
    status 400 after that one call, and leaves the exported file as it was.
    A chunker is built for the request only with the sizes of the request,
    when one of them differs from the settings. *)
Theorem scrape_export_en_dernier {Document Chunker : Type}
    (settings : Settings)
    (scrape_multiple_urls : list string → issue Levee (list Document))
    (chunker : Chunker)
    (TextChunker : option Z → option Z → issue Levee Chunker)
    (chunk_documents : Chunker → list Document → issue Levee (list ChunkJSON))
    (export : list ChunkJSON → string → issue Levee string)
    (request : ScrapeRequest)
    (r : issue Exception ScrapeResponse) (j : list Appel) :
  scrape_urls settings scrape_multiple_urls chunker TextChunker
    chunk_documents export request = (r, j) →
  head j = Some (appel_scrape_multiple_urls (urls request))
  ∧ (scrape_multiple_urls (urls request) = Retour [] →
       j = [appel_scrape_multiple_urls (urls request)]
       ∧ ∃ detail, r = Echec (HTTPException 400 detail))
  ∧ (∀ cs f, appel_export cs f ∈ j →
       f = OUTPUT_FILE settings
       ∧ last j = Some (appel_export cs f)
       ∧ ∃ docs ch, scrape_multiple_urls (urls request) = Retour docs
                    ∧ docs ≠ []
                    ∧ chunk_documents ch docs = Retour cs)
  ∧ (∀ a b, appel_TextChunker a b ∈ j →
       a = chunk_size request ∧ b = chunk_overlap request
       ∧ (a ≠ Some (CHUNK_SIZE settings) ∨ b ≠ Some (CHUNK_OVERLAP settings)))
  ∧ (∀ j1 j2 cs f, j = j1 ++ appel_export cs f :: j2 →
       j2 = []
       ∧ (∀ cs' f', appel_export cs' f' ∉ j1)
       ∧ f = OUTPUT_FILE settings
       ∧ ∃ docs ch, scrape_multiple_urls (urls request) = Retour docs
                    ∧ docs ≠ []
                    ∧ chunker_de settings chunker TextChunker request = Retour ch
                    ∧ chunk_documents ch docs = Retour cs).
Proof.
  rewrite scrape_urls_cas. cbv zeta.
  set (perso := bool_decide _ || bool_decide _).
  assert (Hperso : perso = true →
            chunk_size request ≠ Some (CHUNK_SIZE settings)
            ∨ chunk_overlap request ≠ Some (CHUNK_OVERLAP settings)).
  { unfold perso. intros [H|H]%orb_true_iff; apply bool_decide_eq_true in H; auto. }
  set (a1 := @appel_scrape_multiple_urls Document Chunker (urls request)).
  set (a2 := if perso
             then [@appel_TextChunker Document Chunker
                     (chunk_size request) (chunk_overlap request)]
             else []).
  set (P := λ a : @Appel Document Chunker, ∃ cs f, a = appel_export cs f).
  set (T := λ a : @Appel Document Chunker, ∃ x y, a = appel_TextChunker x y).
  assert (P1 : ¬ P a1) by (intros (? & ? & [=])).
  assert (P2 : Forall (λ x, ¬ P x) a2).
  { unfold a2. destruct perso; repeat constructor. intros (? & ? & [=]). }
  assert (Hexp : ∀ (l : list (@Appel Document Chunker)) cs f,
            Forall (λ x, ¬ P x) l → appel_export cs f ∉ l).
  { intros l cs f Hl Hin. apply (proj1 (Forall_forall _ _) Hl _ Hin).
    by exists cs, f. }
  assert (HT : ∀ a b (suite : list (@Appel Document Chunker)),
            Forall (λ x, ¬ T x) suite →
            appel_TextChunker a b ∈ a1 :: a2 ++ suite →
            a = chunk_size request ∧ b = chunk_overlap request
            ∧ (a ≠ Some (CHUNK_SIZE settings)
               ∨ b ≠ Some (CHUNK_OVERLAP settings))).
  { intros a b suite Hs [[=]|H]%elem_of_cons.
    apply elem_of_app in H as [H|H].
    - unfold a2 in H. destruct perso; [|by apply elem_of_nil in H].
      apply list_elem_of_singleton in H as [= -> ->]. auto.
    - exfalso. apply (proj1 (Forall_forall _ _) Hs _ H). by exists a, b. }
  destruct (scrape_multiple_urls (urls request)) as [[|doc docs]|l] eqn:E1.
  - intros [= <- <-]. split; [done|]. split; [eauto|]. split; [|split].
    + intros cs f [=]%list_elem_of_singleton.
    + intros a b [=]%list_elem_of_singleton.
    + intros j1 j2 cs f H. exfalso.
      apply (sans_element P [a1] (appel_export cs f) j1 j2); [|by exists cs, f|done].
      by repeat constructor.
  - destruct (chunker_de settings chunker TextChunker request) as [ch|l] eqn:E2.
    2:{ intros [= <- <-]. split; [done|]. split; [done|]. split; [|split].
        - intros cs f Hin. exfalso. revert Hin. apply Hexp. by constructor.
        - intros a b H. apply (HT a b []); [done|by rewrite app_nil_r].
        - intros j1 j2 cs f H. exfalso.
          apply (sans_element P (a1 :: a2) (appel_export cs f) j1 j2);
            [by constructor|by exists cs, f|done]. }
    set (a3 := appel_chunk_documents ch (doc :: docs)).
    assert (P3 : ¬ P a3) by (intros (? & ? & [=])).
    assert (T3 : ¬ T a3) by (intros (? & ? & [=])).
    destruct (chunk_documents ch (doc :: docs)) as [cs|l] eqn:E3.
    2:{ intros [= <- <-]. split; [done|]. split; [done|]. split; [|split].
        - intros cs f Hin. exfalso. revert Hin. apply Hexp.
          constructor; [done|]. apply Forall_app. split; [done|]. by repeat constructor.
        - intros a b H. apply (HT a b [a3]); [by repeat constructor|done].
        - intros j1 j2 cs f H. exfalso.
          apply (sans_element P (a1 :: a2 ++ [a3]) (appel_export cs f) j1 j2);
            [|by exists cs, f|done].
          constructor; [done|]. apply Forall_app. split; [done|]. by repeat constructor. }
    set (a4 := @appel_export Document Chunker cs (OUTPUT_FILE settings)).
    assert (T4 : ¬ T a4) by (intros (? & ? & [=])).
    assert (Hpre : Forall (λ x, ¬ P x) (a1 :: a2 ++ [a3])).
    { constructor; [done|]. apply Forall_app. split; [done|]. by repeat constructor. }
    assert (Hj : a1 :: a2 ++ [a3; a4] = (a1 :: a2 ++ [a3]) ++ [a4])
      by (simpl; by rewrite <- app_assoc).
    assert (Hdec : ∀ j1 j2 cs' f,
              a1 :: a2 ++ [a3; a4] = j1 ++ appel_export cs' f :: j2 →
              j2 = [] ∧ j1 = a1 :: a2 ++ [a3] ∧ cs' = cs ∧ f = OUTPUT_FILE settings).
    { intros j1 j2 cs' f H. rewrite Hj in H.
      destruct (dernier_seul P _ _ _ _ _ Hpre ltac:(by exists cs', f) H)
        as (-> & -> & [= -> ->]).
      done. }
    assert (HE : ∀ cs' f, appel_export cs' f ∈ a1 :: a2 ++ [a3; a4] →
              f = OUTPUT_FILE settings
              ∧ last (a1 :: a2 ++ [a3; a4]) = Some (appel_export cs' f)
              ∧ ∃ docs' ch', @Retour Levee _ (doc :: docs) = Retour docs'
                             ∧ docs' ≠ []
                             ∧ chunk_documents ch' docs' = Retour cs').
    { intros cs' f Hin. apply list_elem_of_split in Hin as (j1 & j2 & Hin).
      destruct (Hdec _ _ _ _ Hin) as (_ & _ & -> & ->).
      split; [done|]. split; [by rewrite Hj, last_snoc|].
      by exists (doc :: docs), ch. }
    assert (HD : ∀ j1 j2 cs' f,
              a1 :: a2 ++ [a3; a4] = j1 ++ appel_export cs' f :: j2 →
              j2 = []
              ∧ (∀ cs'' f', appel_export cs'' f' ∉ j1)
              ∧ f = OUTPUT_FILE settings
              ∧ ∃ docs' ch', @Retour Levee _ (doc :: docs) = Retour docs'
                             ∧ docs' ≠ []
                             ∧ @Retour Levee _ ch = Retour ch'
                             ∧ chunk_documents ch' docs' = Retour cs').
    { intros j1 j2 cs' f H. destruct (Hdec _ _ _ _ H) as (-> & -> & -> & ->).
      split; [done|]. split; [intros cs'' f'; by apply Hexp|]. split; [done|].
      by exists (doc :: docs), ch. }
    destruct (export cs (OUTPUT_FILE settings)) as [out|l] eqn:E4;
      intros [= <- <-]; (split; [done|]); (split; [done|]);
      (split; [apply HE|]); (split; [|apply HD]);
      intros a b H; apply (HT a b [a3; a4]); try done; by repeat constructor.
  - intros [= <- <-]. split; [done|]. split; [done|]. split; [|split].
    + intros cs f [=]%list_elem_of_singleton.
    + intros a b [=]%list_elem_of_singleton.
    + intros j1 j2 cs f H. exfalso.
      apply (sans_element P [a1] (appel_export cs f) j1 j2); [|by exists cs, f|done].
      by repeat constructor.
Qed.

Lemma scrape_export_en_dernier_temoin :
  let request := {| urls := ["https://nird.forge.apps.education.fr/";
                             "http://nird.example/"];
                    chunk_size := Some 256; chunk_overlap := Some 64 |} in
  ∃ r j, jouet_route request = (r, j)
         ∧ j = [ appel_scrape_multiple_urls (urls request);
                 appel_TextChunker (Some 256) (Some 64);
                 appel_chunk_documents 256 ["https://nird.forge.apps.education.fr/"];
                 appel_export
                   [ {| j_token_count := Some 1;
                        j_text := Some "https://nird.forge.apps.education.fr/";
                        j_source_url := Some "https://nird.forge.apps.education.fr/" |} ]
                   "data/nird.json" ]
         ∧ head j = Some (appel_scrape_multiple_urls (urls request)).
Proof.
  intros request. eexists _, _. split; [reflexivity|].
  split; [reflexivity|].
  exact (proj1 (scrape_export_en_dernier jouet_settings jouet_scrape 512
                  jouet_TextChunker jouet_chunk_documents jouet_export
                  request _ _ eq_refl)).
Defined.

(** X17 — A success of [POST /scrape] reports at least one document, ends
    with the export of the chunks it counted, and returns the name the
    exporter gave: [GET /data/stats] on a file that holds those chunks
    reports the same number of chunks and the same number of tokens. *)
Theorem scrape_et_stats_concordent {Document Chunker : Type}
    (settings : Settings)
    (scrape_multiple_urls : list string → issue Levee (list Document))
    (chunker : Chunker)
    (TextChunker : option Z → option Z → issue Levee Chunker)
    (chunk_documents : Chunker → list Document → issue Levee (list ChunkJSON))
    (export : list ChunkJSON → string → issue Levee string)
    (request : ScrapeRequest) (r : ScrapeResponse) (j : list Appel) :
  scrape_urls settings scrape_multiple_urls chunker TextChunker
    chunk_documents export request = (Retour r, j) →
  success r = true ∧ 1 ≤ total_documents r
  ∧ ∃ cs, last j = Some (appel_export cs (OUTPUT_FILE settings))
          ∧ export cs (OUTPUT_FILE settings) = Retour (output_file r)
          ∧ ∀ m, ∃ st,
              get_data_stats (Retour {| j_chunks := Some cs; j_metadata := m |})
              = Retour st
              ∧ total_chunks st = r_total_chunks r
              ∧ total_tokens st = r_total_tokens r.
Proof.
  rewrite scrape_urls_cas. cbv zeta.
  destruct (scrape_multiple_urls (urls request)) as [[|doc docs]|l]; [done| |].
  2:{ rewrite rattraper_scrape_composant. by destruct (classe l). }
  destruct (chunker_de settings chunker TextChunker request) as [ch|l].
  2:{ rewrite rattraper_scrape_composant. by destruct (classe l). }
  destruct (chunk_documents ch (doc :: docs)) as [cs|l].
  2:{ rewrite rattraper_scrape_composant. by destruct (classe l). }
  destruct (export cs (OUTPUT_FILE settings)) as [out|l] eqn:E.
  2:{ rewrite rattraper_scrape_composant. by destruct (classe l). }
  intros [= <- <-]. simpl. split; [done|]. split; [lia|].
  exists cs. split.
  { by destruct (bool_decide _ || bool_decide _). }
  split; [done|]. intros m. rewrite get_data_stats_Retour. by eexists.
Qed.

Lemma scrape_et_stats_concordent_temoin :
  let request := {| urls := ["https://nird.forge.apps.education.fr/"; "ftp://x"];
                    chunk_size := Some 512; chunk_overlap := Some 64 |} in
  ∃ r j, jouet_route request = (Retour r, j)
         ∧ success r = true ∧ total_documents r = 1 ∧ length j = 3%nat.
Proof.
  intros request. eexists _, _. split; [reflexivity|].
  split; [|split; reflexivity].
  exact (proj1 (scrape_et_stats_concordent jouet_settings jouet_scrape 512
                  jouet_TextChunker jouet_chunk_documents jouet_export
                  request _ _ eq_refl)).
Defined.

(** X18 — [POST /scrape] lets no plain exception out. It raises status 400
    "Aucun document n'a pu etre scrape" (with its accents) when the scrape
    returned no document, after the one call to the scraper. When a
    component raises, the exception that counts is the one of the first
    call that failed: if it is an [Exception] other than an
    [HTTPException], the route raises status 500 with the [str] of that
    very exception as detail; if it is an [HTTPException] or an exception
    outside [Exception], that very exception leaves the route. *)
Theorem scrape_echecs {Document Chunker : Type}
    (settings : Settings)
    (scrape_multiple_urls : list string → issue Levee (list Document))
    (chunker : Chunker)
    (TextChunker : option Z → option Z → issue Levee Chunker)
    (chunk_documents : Chunker → list Document → issue Levee (list ChunkJSON))
    (export : list ChunkJSON → string → issue Levee string)
    (request : ScrapeRequest) (e : Exception) (j : list Appel) :
  scrape_urls settings scrape_multiple_urls chunker TextChunker
    chunk_documents export request = (Echec e, j) →
  match e with
  | HTTPException code detail =>
      (code = 400
       ∧ detail = "Aucun document n'a pu " +:+ car 234 +:+ "tre scrap"
                  +:+ car 233
       ∧ scrape_multiple_urls (urls request) = Retour []
       ∧ j = [appel_scrape_multiple_urls (urls request)])
      ∨ (code = 500
         ∧ ∃ l, leve_par settings scrape_multiple_urls chunker TextChunker
                  chunk_documents export request l
                ∧ detail = str l
                ∧ (classe l = C_FileNotFoundError ∨ classe l = C_Exception))
  | DeComposant l =>
      leve_par settings scrape_multiple_urls chunker TextChunker
        chunk_documents export request l
      ∧ ((∃ code detail, classe l = C_HTTPException code detail)
         ∨ classe l = C_BaseException)
  end.
Proof.
  assert (H : ∀ (l : Levee) (j' : list (@Appel Document Chunker)),
            leve_par settings scrape_multiple_urls chunker TextChunker
              chunk_documents export request l →
            (rattraper_scrape (A:=ScrapeResponse) (Echec (DeComposant l)), j')
            = (Echec e, j) →
            match e with
            | HTTPException code detail =>
                (code = 400
                 ∧ detail = "Aucun document n'a pu " +:+ car 234 +:+ "tre scrap"
                            +:+ car 233
                 ∧ scrape_multiple_urls (urls request) = Retour []
                 ∧ j = [appel_scrape_multiple_urls (urls request)])
                ∨ (code = 500
                   ∧ ∃ l, leve_par settings scrape_multiple_urls chunker TextChunker
                            chunk_documents export request l
                          ∧ detail = str l
                          ∧ (classe l = C_FileNotFoundError
                             ∨ classe l = C_Exception))
            | DeComposant l =>
                leve_par settings scrape_multiple_urls chunker TextChunker
                  chunk_documents export request l
                ∧ ((∃ code detail, classe l = C_HTTPException code detail)
                   ∨ classe l = C_BaseException)
            end).
  { intros l j' Hl. rewrite rattraper_scrape_composant.
    destruct (classe l) eqn:E; intros [= <- <-]; eauto 10. }
  rewrite scrape_urls_cas. cbv zeta.
  destruct (scrape_multiple_urls (urls request)) as [[|doc docs]|l] eqn:E1.
  - intros [= <- <-]. left. done.
  - destruct (chunker_de settings chunker TextChunker request) as [ch|l] eqn:E2.
    2:{ apply H. right. exists (doc :: docs). split; [exact E1|].
        split; [done|]. left. exact E2. }
    destruct (chunk_documents ch (doc :: docs)) as [cs|l] eqn:E3.
    2:{ apply H. right. exists (doc :: docs). split; [exact E1|].
        split; [done|]. right. exists ch. split; [exact E2|]. left. exact E3. }
    destruct (export cs (OUTPUT_FILE settings)) as [out|l] eqn:E4; [done|].
    apply H. right. exists (doc :: docs). split; [exact E1|]. split; [done|].
    right. exists ch. split; [exact E2|]. right. exists cs. by split.
  - apply H. left. exact E1.
Qed.

Lemma scrape_echecs_temoin :
  let request := {| urls := ["https://nird.forge.apps.education.fr/"];
                    chunk_size := None; chunk_overlap := Some 64 |} in
  ∃ j, jouet_route request = (Echec (HTTPException 500 "chunk_size"), j)
       ∧ j = [ appel_scrape_multiple_urls (urls request);
               appel_TextChunker None (Some 64) ]
       ∧ ∃ l, leve_par jouet_settings jouet_scrape 512 jouet_TextChunker
                jouet_chunk_documents jouet_export request l
              ∧ str l = "chunk_size".
Proof.
  intros request. eexists. split; [reflexivity|]. split; [reflexivity|].
  destruct (scrape_echecs jouet_settings jouet_scrape 512
              jouet_TextChunker jouet_chunk_documents jouet_export
              request _ _ eq_refl) as [(H & _)|(_ & l & Hl & Hd & _)];
    [discriminate H|].
  exists l. split; [exact Hl|]. symmetry. exact Hd.
Defined.
